(** * Janus RabbitMQ event handler (src/events/janus_rabbitmqevh.c)

    A shallow embedding of the plugin's event hand-off, batching consumer,
    connection handshake and heartbeat monitor, with the properties its
    specification states about them.

    Layout: the JSON values and reference counts of Jansson as far as the
    plugin uses them, the GLib asynchronous queue as a FIFO list, the
    plugin's globals, the public entry points, the handler thread as a
    small-step machine over its program points, the connect handshake as a
    function of the broker library's answers, and the heartbeat thread as a
    function of what it reads on each turn of its loop. *)

From Stdlib Require Import ZArith List Bool String Ascii Lia.
From stdpp Require Import base gmap strings list.
Import ListNotations.
Local Open Scope Z_scope.
#[local] Set Warnings "-register-all".

(** ** Jansson values, pointers and reference counts *)

(** The eight [json_type]s of Jansson. The members of an object are kept in
    insertion order; a real is carried as its bit pattern. *)
Inductive json : Type :=
| JObject (members : list (string * json))
| JArray (elems : list json)
| JString (s : string)
| JInteger (i : Z)
| JReal (bits : Z)
| JTrue
| JFalse
| JNull.

(** A [json_t *]: the null pointer, the address of the plugin's static
    [exit_event], or the address of a heap value. Two pointers are the same
    event exactly when they are the same address. *)
Inductive jptr : Type :=
| NULL
| exit_event
| Ptr (a : positive).

#[global] Instance jptr_eq_dec : EqDecision jptr.
Proof. solve_decision. Defined.

(** [struct json_t]: the value with its [size_t] reference count. *)
Record json_t : Type := { refcount : Z; jvalue : json }.

Definition SIZE_MAX : Z := 2 ^ 64 - 1.

(** Memory as the plugin sees it: the heap values, and the reference count
    field of the static [exit_event] (zero-initialised like every static). *)
Record jstore : Type := {
  heap : gmap positive json_t;
  exit_refcount : Z
}.

Definition set_heap (hp : gmap positive json_t) (m : jstore) : jstore :=
  {| heap := hp; exit_refcount := exit_refcount m |}.

(** [json_incref]: nothing on NULL or on a count of [(size_t)-1], one more
    reference otherwise. An address that holds no value is outside what
    the library defines; the store is left as it is there. *)
Definition json_incref (p : jptr) (m : jstore) : jstore :=
  match p with
  | NULL => m
  | exit_event =>
      if exit_refcount m =? SIZE_MAX then m
      else {| heap := heap m; exit_refcount := exit_refcount m + 1 |}
  | Ptr a =>
      match heap m !! a with
      | Some c =>
          if refcount c =? SIZE_MAX then m
          else set_heap (<[a := {| refcount := refcount c + 1; jvalue := jvalue c |}]> (heap m)) m
      | None => m
      end
  end.

(** [json_decref]: nothing on NULL or on a count of [(size_t)-1]; otherwise
    the count is decremented as a [size_t] and the value is deleted when it
    reaches zero. The members of a value are part of it here, so deleting
    it releases them with it. *)
Definition json_decref (p : jptr) (m : jstore) : jstore :=
  match p with
  | NULL => m
  | exit_event =>
      if exit_refcount m =? SIZE_MAX then m
      else {| heap := heap m; exit_refcount := (exit_refcount m - 1) mod 2 ^ 64 |}
  | Ptr a =>
      match heap m !! a with
      | Some c =>
          if refcount c =? SIZE_MAX then m
          else
            let r := (refcount c - 1) mod 2 ^ 64 in
            if r =? 0 then set_heap (delete a (heap m)) m
            else set_heap (<[a := {| refcount := r; jvalue := jvalue c |}]> (heap m)) m
      | None => m
      end
  end.


(** The value behind a pointer; the static [exit_event] is all zeroes, which
    reads as an object without members. *)
Definition deref (p : jptr) (m : jstore) : option json :=
  match p with
  | NULL => None
  | exit_event => Some (JObject [])
  | Ptr a => jvalue <$> heap m !! a
  end.

Fixpoint assoc_get (key : string) (kv : list (string * json)) : option json :=
  match kv with
  | [] => None
  | (k, v) :: rest => if String.eqb k key then Some v else assoc_get key rest
  end.

(** [json_object_get]: NULL unless the value is an object with that key. *)
Definition json_object_get (v : option json) (key : string) : option json :=
  match v with
  | Some (JObject kv) => assoc_get key kv
  | _ => None
  end.

Definition json_is_integer (v : json) : bool :=
  match v with JInteger _ => true | _ => false end.

Definition json_integer_value (v : json) : Z :=
  match v with JInteger i => i | _ => 0 end.

Definition json_is_true (v : option json) : bool :=
  match v with Some JTrue => true | _ => false end.

Definition json_is_string (v : json) : bool :=
  match v with JString _ => true | _ => false end.

Definition json_is_boolean (v : json) : bool :=
  match v with JTrue | JFalse => true | _ => false end.

Definition json_string_value (v : option json) : option string :=
  match v with Some (JString s) => Some s | _ => None end.

(** Serialisation flags of Jansson. *)
Definition JSON_INDENT (n : Z) : Z := Z.land n 31.
Definition JSON_COMPACT : Z := 32.
Definition JSON_PRESERVE_ORDER : Z := 256.

(** ** What the handler thread holds in [output] *)

(** [output] is NULL, the popped event itself, or the array made by
    [json_array()]. That array is referenced by [output] alone from its
    creation to the final [json_decref], so it is kept as a local value: the
    pointers appended to it, in order. *)
Inductive output_t : Type :=
| ONull
| OEvent (p : jptr)
| OArray (elems : list jptr).

(** [json_array_append_new(output, event)]: appends and keeps the caller's
    reference; on a null value nothing happens, and on a target that is not
    an array the value's reference is dropped. *)
Definition json_array_append_new (o : output_t) (p : jptr) (m : jstore)
  : output_t * jstore :=
  match p with
  | NULL => (o, m)
  | _ =>
      match o with
      | OArray l => (OArray (l ++ [p]), m)
      | _ => (o, json_decref p m)
      end
  end.

(** [json_decref(output)]: releasing the array releases every element. *)
Definition json_decref_output (o : output_t) (m : jstore) : jstore :=
  match o with
  | ONull => m
  | OEvent p => json_decref p m
  | OArray l => fold_left (fun m' p => json_decref p m') l m
  end.

(** The events a batch is made of. *)
Definition batch_of (o : output_t) : list jptr :=
  match o with
  | ONull => []
  | OEvent p => [p]
  | OArray l => l
  end.

(** ** The GLib asynchronous queue, as a FIFO list *)

(** [g_async_queue_push] refuses a NULL item and appends any other. *)
Definition g_async_queue_push (q : list jptr) (p : jptr) : list jptr :=
  match p with
  | NULL => q
  | _ => q ++ [p]
  end.

(** [g_async_queue_try_pop]: the head and the rest, NULL when empty. *)
Definition g_async_queue_try_pop (q : list jptr) : jptr * list jptr :=
  match q with
  | [] => (NULL, [])
  | p :: q' => (p, q')
  end.

(** ** Globals of the plugin *)

Record plugin : Type := {
  initialized : bool;
  stopping : bool;
  group_events : bool;
  json_format : Z;
  events : list jptr;
  store : jstore
}.

Definition set_events (q : list jptr) (g : plugin) : plugin :=
  {| initialized := initialized g; stopping := stopping g;
     group_events := group_events g; json_format := json_format g;
     events := q; store := store g |}.

Definition set_store (m : jstore) (g : plugin) : plugin :=
  {| initialized := initialized g; stopping := stopping g;
     group_events := group_events g; json_format := json_format g;
     events := events g; store := m |}.

Definition set_group_events (b : bool) (g : plugin) : plugin :=
  {| initialized := initialized g; stopping := stopping g;
     group_events := b; json_format := json_format g;
     events := events g; store := store g |}.

Definition set_stopping (b : bool) (g : plugin) : plugin :=
  {| initialized := initialized g; stopping := b;
     group_events := group_events g; json_format := json_format g;
     events := events g; store := store g |}.

(** [janus_rabbitmqevh_event_free], the queue's item destructor. *)
Definition janus_rabbitmqevh_event_free (event : jptr) (m : jstore) : jstore :=
  match event with
  | NULL => m
  | exit_event => m
  | _ => json_decref event m
  end.

(** [janus_rabbitmqevh_incoming_event]. *)
Definition janus_rabbitmqevh_incoming_event (event : jptr) (g : plugin) : plugin :=
  if stopping g || negb (initialized g) then g
  else
    let g1 := set_store (json_incref event (store g)) g in
    set_events (g_async_queue_push (events g1) event) g1.

(** [g_async_queue_unref] by the last owner: every item still queued is
    handed to the destructor, front first. *)
Definition g_async_queue_unref (q : list jptr) (m : jstore) : jstore :=
  fold_left (fun m' p => janus_rabbitmqevh_event_free p m') q m.

(** [janus_rabbitmqevh_destroy] up to the point where it waits for the
    handler thread: raise [stopping], push the exit event. *)
Definition destroy_signal (g : plugin) : plugin :=
  if negb (initialized g) then g
  else
    let g1 := set_stopping true g in
    set_events (g_async_queue_push (events g1) exit_event) g1.

(** The rest of [janus_rabbitmqevh_destroy], once the threads are joined:
    the queue is released and both flags are cleared. *)
Definition destroy_finish (g : plugin) : plugin :=
  if negb (initialized g) then g
  else
    {| initialized := false; stopping := false;
       group_events := group_events g; json_format := json_format g;
       events := [];
       store := g_async_queue_unref (events g) (store g) |}.

(** The globals as a successful [janus_rabbitmqevh_init] leaves them: the
    configured format and grouping flag, an empty queue, [initialized] set. *)
Definition init_plugin (fmt : Z) (grouping : bool) (m : jstore) : plugin :=
  {| initialized := true; stopping := false; group_events := grouping;
     json_format := fmt; events := []; store := m |}.

(** ** The Admin API request *)

Definition to_lower (c : ascii) : ascii :=
  let n := N_of_ascii c in
  if ((65 <=? n) && (n <=? 90))%N then ascii_of_N (n + 32) else c.

(** [!strcasecmp(a, b)]. *)
Fixpoint strcaseeq (a b : string) : bool :=
  match a, b with
  | EmptyString, EmptyString => true
  | String x a', String y b' => Ascii.eqb (to_lower x) (to_lower y) && strcaseeq a' b'
  | _, _ => false
  end.

Inductive param_type : Type := JSON_STRING | JANUS_JSON_BOOL.

Record janus_json_parameter : Type := {
  pname : string;
  jtype : param_type;
  pflags : Z
}.

Definition JANUS_JSON_PARAM_REQUIRED : Z := 1.

Definition request_parameters : list janus_json_parameter :=
  [ {| pname := "request"%string; jtype := JSON_STRING; pflags := JANUS_JSON_PARAM_REQUIRED |} ].

Definition tweak_parameters : list janus_json_parameter :=
  [ {| pname := "events"%string; jtype := JSON_STRING; pflags := 0 |};
    {| pname := "grouping"%string; jtype := JANUS_JSON_BOOL; pflags := 0 |} ].

Definition JANUS_RABBITMQEVH_ERROR_INVALID_REQUEST : Z := 411.
Definition JANUS_RABBITMQEVH_ERROR_MISSING_ELEMENT : Z := 412.
Definition JANUS_RABBITMQEVH_ERROR_INVALID_ELEMENT : Z := 413.

Definition param_type_ok (t : param_type) (v : json) : bool :=
  match t with
  | JSON_STRING => json_is_string v
  | JANUS_JSON_BOOL => json_is_boolean v
  end.

(** Modelled from the spec: the macro JANUS_VALIDATE_JSON_OBJECT lives in
    utils.h, outside the sources at hand. It walks the parameter table in
    order: a required parameter that is absent gives the missing-element
    code, a present parameter of another type than the table's gives the
    invalid-element code, and the first error ends the walk. The result is
    the error code (0 when the request passes) and the offending name. *)
Fixpoint janus_validate_json_object (request : json)
    (params : list janus_json_parameter) (missing_code invalid_code : Z)
  : Z * string :=
  match params with
  | [] => (0, ""%string)
  | p :: rest =>
      match json_object_get (Some request) (pname p) with
      | None =>
          if Z.land (pflags p) JANUS_JSON_PARAM_REQUIRED =? 0
          then janus_validate_json_object request rest missing_code invalid_code
          else (missing_code, pname p)
      | Some v =>
          if param_type_ok (jtype p) v
          then janus_validate_json_object request rest missing_code invalid_code
          else (invalid_code, pname p)
      end
  end.

(** Jansson's check of a string for UTF-8, which [json_string] makes
    before it allocates ([utf8_check_first], [utf8_check_full] and
    [utf8_check_string] of its utf8.c): the length of the sequence a first
    byte opens, 0 for a byte that cannot open one; *)
Definition utf8_check_first (u : N) : nat :=
  if (u <? 128)%N then 1%nat
  else if (u <=? 191)%N then 0%nat
  else if (u <=? 193)%N then 0%nat
  else if (u <=? 223)%N then 2%nat
  else if (u <=? 239)%N then 3%nat
  else if (u <=? 244)%N then 4%nat
  else 0%nat.

(** whether [size] bytes are one well-formed sequence: continuation bytes
    only after the first, a code point up to 0x10FFFF, no surrogate half,
    no overlong form; *)
Definition utf8_check_full (buffer : list N) (size : nat) : bool :=
  match buffer with
  | [] => false
  | u :: rest =>
      let first :=
        match size with
        | 2%nat => Some (N.land u 31)
        | 3%nat => Some (N.land u 15)
        | 4%nat => Some (N.land u 7)
        | _ => None
        end in
      let value :=
        fold_left
          (fun acc c =>
             match acc with
             | Some v =>
                 if ((c <? 128) || (191 <? c))%N then None
                 else Some (N.shiftl v 6 + N.land c 63)%N
             | None => None
             end) rest first in
      match value with
      | None => false
      | Some v =>
          if (1114111 <? v)%N then false
          else if ((55296 <=? v) && (v <=? 57343))%N then false
          else
            negb (((size =? 2)%nat && (v <? 128)%N) ||
                  ((size =? 3)%nat && (v <? 2048)%N) ||
                  ((size =? 4)%nat && (v <? 65536)%N))
      end
  end.

(** and the walk over the bytes, one sequence after the other; [fuel]
    bounds the walk by the number of bytes. *)
Fixpoint utf8_check_bytes (fuel : nat) (l : list N) : bool :=
  match fuel, l with
  | _, [] => true
  | O, _ :: _ => false
  | S fuel', u :: rest =>
      match utf8_check_first u with
      | O => false
      | S O => utf8_check_bytes fuel' rest
      | count =>
          if (length l <? count)%nat then false
          else if utf8_check_full (take count l) count
               then utf8_check_bytes fuel' (drop count l)
               else false
      end
  end.

Definition utf8_check_string (value : string) : bool :=
  let bytes := map N_of_ascii (list_ascii_of_string value) in
  utf8_check_bytes (length bytes) bytes.

(** [json_string]: NULL unless the bytes are valid UTF-8. *)
Definition json_string (value : string) : option json :=
  if utf8_check_string value then Some (JString value) else None.

(** Lines 545-557. [json_object_set_new] adds nothing when the value it is
    given is NULL, so an [error_cause] that is not valid UTF-8 leaves the
    response with [error_code] alone. *)
Definition plugin_response (error_code : Z) (error_cause : string) : json :=
  if error_code =? 0 then JObject [("result"%string, JInteger 200)]
  else JObject (("error_code"%string, JInteger error_code) ::
                match json_string error_cause with
                | Some v => [("error"%string, v)]
                | None => []
                end).

(** [janus_rabbitmqevh_handle_request]. The events mask and the function
    that edits it belong to the core ([janus_events_edit_events_mask]); the
    mask is threaded through as [mask] and the editor is the parameter
    [edit_mask]. The result is the response (NULL when the plugin is not
    running), the globals and the mask. *)
Definition janus_rabbitmqevh_handle_request
    (edit_mask : option string -> Z -> Z) (request : json) (g : plugin) (mask : Z)
  : option json * plugin * Z :=
  if stopping g || negb (initialized g) then (None, g, mask)
  else
    let '(error_code, error_cause) :=
      janus_validate_json_object request request_parameters
        JANUS_RABBITMQEVH_ERROR_MISSING_ELEMENT JANUS_RABBITMQEVH_ERROR_INVALID_ELEMENT in
    if negb (error_code =? 0) then (Some (plugin_response error_code error_cause), g, mask)
    else
      let request_text :=
        default ""%string (json_string_value (json_object_get (Some request) "request"%string)) in
      if strcaseeq request_text "tweak"%string then
        let '(error_code, error_cause) :=
          janus_validate_json_object request tweak_parameters
            JANUS_RABBITMQEVH_ERROR_MISSING_ELEMENT JANUS_RABBITMQEVH_ERROR_INVALID_ELEMENT in
        if negb (error_code =? 0) then (Some (plugin_response error_code error_cause), g, mask)
        else
          let mask1 :=
            match json_object_get (Some request) "events"%string with
            | Some v => edit_mask (json_string_value (Some v)) mask
            | None => mask
            end in
          let g1 :=
            match json_object_get (Some request) "grouping"%string with
            | Some v => set_group_events (json_is_true (Some v)) g
            | None => g
            end in
          (Some (plugin_response 0 ""%string), g1, mask1)
      else
        (Some (plugin_response JANUS_RABBITMQEVH_ERROR_INVALID_REQUEST
                 (String.substring 0 511 ("Unknown request '" ++ request_text ++ "'")%string)),
         g, mask).

(** The globals after a request; the mask is the core's business. *)
Definition tweak (request : json) (g : plugin) : plugin :=
  (janus_rabbitmqevh_handle_request (fun _ mask => mask) request g 0).1.2.

(** Lines 178-190 of [janus_rabbitmqevh_init]: the serialisation flags
    chosen by the value of the [json] item of the configuration. Without
    the item nothing is assigned, see [janus_rabbitmqevh_init]. *)
Definition json_format_of (v : string) : Z :=
  if strcaseeq v "indented" then Z.lor (JSON_INDENT 3) JSON_PRESERVE_ORDER
  else if strcaseeq v "plain" then Z.lor (JSON_INDENT 0) JSON_PRESERVE_ORDER
  else if strcaseeq v "compact" then Z.lor JSON_COMPACT JSON_PRESERVE_ORDER
  else Z.lor (JSON_INDENT 3) JSON_PRESERVE_ORDER.

(** ** The handler thread, [jns_rmqevh_hdlr] *)

(** Program points of the thread, named by source line: the test of the
    outer [while] (567), the blocking pop (569), the head of the inner loop
    with an event in hand (575), the non-blocking pop (596), the send block
    (601) and the code after the loop (630). Other threads may run between
    any two of them. *)
Inductive hdlr_pc : Type := L567 | L569 | L575 | L596 | L601 | L630.

#[global] Instance hdlr_pc_eq_dec : EqDecision hdlr_pc.
Proof. solve_decision. Defined.

(** The locals of the thread. [h_max] is assigned once, before the loop. *)
Record hdlr : Type := {
  h_pc : hdlr_pc;
  h_event : jptr;
  h_output : output_t;
  h_count : Z;
  h_max : Z
}.

(** What the thread does to the outside, in the order it does it. *)
Inductive label : Type :=
| LPop (p : jptr)
| LTryPop (p : jptr)
| LHandledAfter (us : Z)
| LDumps (o : output_t) (flags : Z)
| LStringifyFailed
| LLock
| LPublish (content_type body : string)
| LPublishError (status : Z)
| LUnlock
| LDecref (o : output_t).

(** What the outside answers when the thread asks during one step: the
    monotonic clock, the text [json_dumps] returns (NULL on failure) and the
    status of [amqp_basic_publish]. *)
Record answers : Type := {
  a_now : Z;
  a_dumps : option string;
  a_publish : Z
}.

Definition AMQP_STATUS_OK : Z := 0.

Record sys : Type := {
  glob : plugin;
  thr : hdlr;
  trace : list label
}.

(** The thread as [g_thread_try_new] starts it (lines 563-565). *)
Definition hdlr_start (g : plugin) : sys :=
  {| glob := g;
     thr := {| h_pc := L567; h_event := NULL; h_output := ONull; h_count := 0;
               h_max := if group_events g then 100 else 1 |};
     trace := [] |}.

Definition goto (l : hdlr_pc) (t : hdlr) : hdlr :=
  {| h_pc := l; h_event := h_event t; h_output := h_output t;
     h_count := h_count t; h_max := h_max t |}.

(** Line 567. *)
Definition hdlr_test (s : sys) : sys :=
  if initialized (glob s) && negb (stopping (glob s))
  then {| glob := glob s; thr := goto L569 (thr s); trace := trace s |}
  else {| glob := glob s; thr := goto L630 (thr s); trace := trace s |}.

(** Lines 569-573. On an empty queue the pop does not return: the thread
    stays where it is. *)
Definition hdlr_pop (s : sys) : sys :=
  match events (glob s) with
  | [] => s
  | p :: q =>
      let t := thr s in
      if decide (p = exit_event) then
        {| glob := set_events q (glob s);
           thr := {| h_pc := L630; h_event := p; h_output := h_output t;
                     h_count := h_count t; h_max := h_max t |};
           trace := trace s ++ [LPop p] |}
      else
        {| glob := set_events q (glob s);
           thr := {| h_pc := L575; h_event := p; h_output := ONull;
                     h_count := 0; h_max := h_max t |};
           trace := trace s ++ [LPop p] |}
  end.

(** Lines 577-582: the delay is logged when the event carries an integer
    [timestamp]. Both times are [gint64]; the difference goes to the log
    through an unsigned 64-bit conversion. *)
Definition handled_after (now : Z) (event : jptr) (m : jstore) : list label :=
  match json_object_get (deref event m) "timestamp"%string with
  | Some created =>
      if json_is_integer created
      then [LHandledAfter ((now - json_integer_value created) mod 2 ^ 64)]
      else []
  | None => []
  end.

(** Lines 577-595: one turn of the inner loop up to the non-blocking pop. *)
Definition hdlr_collect (a : answers) (s : sys) : sys :=
  let g := glob s in
  let t := thr s in
  let logs := handled_after (a_now a) (h_event t) (store g) in
  if negb (group_events g) then
    {| glob := g;
       thr := {| h_pc := L601; h_event := h_event t; h_output := OEvent (h_event t);
                 h_count := h_count t; h_max := h_max t |};
       trace := trace s ++ logs |}
  else
    let o := match h_output t with ONull => OArray [] | o' => o' end in
    let '(o1, m1) := json_array_append_new o (h_event t) (store g) in
    let count := h_count t + 1 in
    {| glob := set_store m1 g;
       thr := {| h_pc := if count =? h_max t then L601 else L596;
                 h_event := h_event t; h_output := o1;
                 h_count := count; h_max := h_max t |};
       trace := trace s ++ logs |}.

(** Lines 596-598. *)
Definition hdlr_try_pop (s : sys) : sys :=
  let t := thr s in
  let '(p, q) := g_async_queue_try_pop (events (glob s)) in
  {| glob := set_events q (glob s);
     thr := {| h_pc := if decide (p = NULL) then L601
                       else if decide (p = exit_event) then L601 else L575;
               h_event := p; h_output := h_output t;
               h_count := h_count t; h_max := h_max t |};
     trace := trace s ++ [LTryPop p] |}.

(** Lines 601-628: serialise and publish unless stopping, then release the
    batch; either way the thread is back at the test of the outer loop. *)
Definition hdlr_send (a : answers) (s : sys) : sys :=
  let g := glob s in
  let t := thr s in
  let o := h_output t in
  let back :=
    {| h_pc := L567; h_event := h_event t; h_output := ONull;
       h_count := h_count t; h_max := h_max t |} in
  let released := set_store (json_decref_output o (store g)) g in
  if negb (stopping g) then
    match a_dumps a with
    | None =>
        {| glob := released; thr := back;
           trace := trace s ++ [LDumps o (json_format g); LStringifyFailed; LDecref o] |}
    | Some event_text =>
        {| glob := released; thr := back;
           trace := trace s ++
             [LDumps o (json_format g); LLock; LPublish "application/json" event_text] ++
             (if a_publish a =? AMQP_STATUS_OK then [] else [LPublishError (a_publish a)]) ++
             [LUnlock; LDecref o] |}
    end
  else
    {| glob := released; thr := back; trace := trace s ++ [LDecref o] |}.

(** One step of the thread. After the loop nothing is left to do. *)
Definition hdlr_step (a : answers) (s : sys) : sys :=
  match h_pc (thr s) with
  | L567 => hdlr_test s
  | L569 => hdlr_pop s
  | L575 => hdlr_collect a s
  | L596 => hdlr_try_pop s
  | L601 => hdlr_send a s
  | L630 => s
  end.

(** The thread running alone for [n] steps, every question answered by [a]. *)
Fixpoint hdlr_run (n : nat) (a : answers) (s : sys) : sys :=
  match n with
  | O => s
  | S n' => hdlr_run n' a (hdlr_step a s)
  end.

(** ** Executions of the whole plugin *)

(** What can happen next: a step of the handler thread, a producer
    delivering an event, an Admin API request, the two halves of destroy.
    Each call runs in one piece here, and so does the send block of the
    thread; [fine_action] further down takes them apart at their reads and
    writes. *)
Inductive action : Type :=
| AHdlr (a : answers)
| AIncoming (event : jptr)
| ARequest (request : json)
| ADestroySignal
| ADestroyFinish.

Definition with_glob (f : plugin -> plugin) (s : sys) : sys :=
  {| glob := f (glob s); thr := thr s; trace := trace s |}.

(** [ADestroyFinish] stands for the code after [g_thread_join]: it runs only
    once the handler thread has left its loop. *)
Definition act (s : sys) (x : action) : sys :=
  match x with
  | AHdlr a => hdlr_step a s
  | AIncoming event => with_glob (janus_rabbitmqevh_incoming_event event) s
  | ARequest request => with_glob (tweak request) s
  | ADestroySignal => with_glob destroy_signal s
  | ADestroyFinish =>
      if decide (h_pc (thr s) = L630) then with_glob destroy_finish s else s
  end.

Definition exec (s : sys) (xs : list action) : sys := fold_left act xs s.

(** Bodies handed to [amqp_basic_publish] and values handed to
    [json_dumps], oldest first. *)
Definition published (tr : list label) : list string :=
  omap (fun l => match l with LPublish _ body => Some body | _ => None end) tr.

Definition dumped (tr : list label) : list output_t :=
  omap (fun l => match l with LDumps o _ => Some o | _ => None end) tr.

Definition is_event (p : jptr) : bool :=
  match p with Ptr _ => true | _ => false end.

(** ** The connect handshake, [janus_rabbitmqevh_connect] *)

(** Constants of rabbitmq-c. *)
Definition AMQP_STATUS_TIMEOUT : Z := -13.
Definition AMQP_STATUS_SSL_ERROR : Z := -512.
Definition AMQP_RESPONSE_NORMAL : Z := 1.
Definition AMQP_SASL_METHOD_PLAIN : Z := 0.

(** The configuration globals the handshake reads. *)
Record config : Type := {
  ssl_enable : bool;
  ssl_verify_peer : bool;
  ssl_verify_hostname : bool;
  ssl_cacert_file : option string;
  ssl_cert_file : option string;
  ssl_key_file : option string;
  rmqhost : string;
  rmqport : Z;
  vhost : string;
  username : string;
  password : string;
  heartbeat : Z;
  exchange : option string;
  exchange_type : string;
  route_key : string;
  declare_outgoing_queue : bool
}.

(** What the broker library answers during one handshake: the connection
    object, whether a socket was made, the status codes and the reply types
    of the remote calls. *)
Record amqp_answers : Type := {
  r_new_connection : option positive;
  r_ssl_socket_new : bool;
  r_set_cacert : Z;
  r_set_key : Z;
  r_tcp_socket_new : bool;
  r_socket_open : Z;
  r_login : Z;
  r_channel_open : Z;
  r_exchange_declare : Z;
  r_queue_declare : Z
}.

(** The library calls of the handshake, and the fatal log lines. *)
Inductive amqp_call : Type :=
| CNewConnection
| CSslSocketNew
| CSetVerifyPeer (b : bool)
| CSetVerifyHostname (b : bool)
| CSetCacert (file : string)
| CSetKey (cert key : string)
| CTcpSocketNew
| CSocketOpen (host : string) (port : Z)
| CLogin (vh : string) (channel_max frame_max hb : Z) (method : Z) (user pass : string)
| CChannelOpen (channel : Z)
| CExchangeDeclare (name kind : string)
| CQueueDeclare (name : string)
| CFatal (what : string).

(** The RabbitMQ session globals, the local [status], and the calls made so
    far. *)
Record session : Type := {
  rmq_conn : option positive;
  rmq_channel : Z;
  rmq_exchange : option string;
  status : Z;
  calls : list amqp_call
}.

(** The handshake is a sequence of steps, each of which may end it with
    [return -1]: a step maps the session to the session after it, flagged
    with whether the function goes on. *)
Definition handshake : Type := session -> bool * session.

Definition skip : handshake := fun s => (true, s).

Definition andthen (f k : handshake) : handshake :=
  fun s => let '(go, s1) := f s in if go then k s1 else (false, s1).

Notation "f ';>' k" := (andthen f k) (at level 62, right associativity).

Definition call (c : amqp_call) : handshake :=
  fun s => (true, {| rmq_conn := rmq_conn s; rmq_channel := rmq_channel s;
                     rmq_exchange := rmq_exchange s; status := status s;
                     calls := calls s ++ [c] |}).

Definition set_status (v : Z) : handshake :=
  fun s => (true, {| rmq_conn := rmq_conn s; rmq_channel := rmq_channel s;
                     rmq_exchange := rmq_exchange s; status := v;
                     calls := calls s |}).

Definition set_conn (c : option positive) : handshake :=
  fun s => (true, {| rmq_conn := c; rmq_channel := rmq_channel s;
                     rmq_exchange := rmq_exchange s; status := status s;
                     calls := calls s |}).

Definition set_channel (ch : Z) : handshake :=
  fun s => (true, {| rmq_conn := rmq_conn s; rmq_channel := ch;
                     rmq_exchange := rmq_exchange s; status := status s;
                     calls := calls s |}).

Definition set_exchange (e : option string) : handshake :=
  fun s => (true, {| rmq_conn := rmq_conn s; rmq_channel := rmq_channel s;
                     rmq_exchange := e; status := status s;
                     calls := calls s |}).

(** [if(!ok) { JANUS_LOG(LOG_FATAL, ...); return -1; }] *)
Definition fatal_unless (ok : bool) (what : string) : handshake :=
  fun s => if ok then (true, s) else (false, (call (CFatal what) s).2).

(** The same on the local [status], as it stands when the test is reached. *)
Definition fatal_unless_status_ok (what : string) : handshake :=
  fun s => fatal_unless (status s =? AMQP_STATUS_OK) what s.

Definition connect_steps (cfg : config) (r : amqp_answers) : handshake :=
  set_conn (r_new_connection r) ;> call CNewConnection ;>
  set_status AMQP_STATUS_OK ;>
  (if ssl_enable cfg then
     call CSslSocketNew ;>
     fatal_unless (r_ssl_socket_new r) "error creating socket" ;>
     call (CSetVerifyPeer (ssl_verify_peer cfg)) ;>
     call (CSetVerifyHostname (ssl_verify_hostname cfg)) ;>
     match ssl_cacert_file cfg with
     | Some cacert =>
         call (CSetCacert cacert) ;> set_status (r_set_cacert r) ;>
         fatal_unless_status_ok "error setting CA certificate"
     | None => skip
     end ;>
     match ssl_cert_file cfg, ssl_key_file cfg with
     | Some cert, Some key =>
         call (CSetKey cert key) ;>
         fatal_unless_status_ok "error setting key"
     | _, _ => skip
     end
   else
     call CTcpSocketNew ;>
     fatal_unless (r_tcp_socket_new r) "error creating socket") ;>
  call (CSocketOpen (rmqhost cfg) (rmqport cfg)) ;> set_status (r_socket_open r) ;>
  fatal_unless_status_ok "error opening socket" ;>
  call (CLogin (vhost cfg) 0 131072 (heartbeat cfg) AMQP_SASL_METHOD_PLAIN
          (username cfg) (password cfg)) ;>
  fatal_unless (r_login r =? AMQP_RESPONSE_NORMAL) "error logging in" ;>
  set_channel 1 ;>
  call (CChannelOpen 1) ;>
  fatal_unless (r_channel_open r =? AMQP_RESPONSE_NORMAL) "error opening channel" ;>
  set_exchange None ;>
  match exchange cfg with
  | Some name =>
      set_exchange (Some name) ;>
      call (CExchangeDeclare name (exchange_type cfg)) ;>
      fatal_unless (r_exchange_declare r =? AMQP_RESPONSE_NORMAL) "error declaring exchange"
  | None => skip
  end ;>
  (if declare_outgoing_queue cfg then
     call (CQueueDeclare (route_key cfg)) ;>
     fatal_unless (r_queue_declare r =? AMQP_RESPONSE_NORMAL) "error declaring queue"
   else skip).

(** [janus_rabbitmqevh_connect]: 0 when every step went through, -1 when one
    ended the handshake. The calls are counted from this invocation on. *)
Definition janus_rabbitmqevh_connect (cfg : config) (r : amqp_answers) (s : session)
  : Z * session :=
  let fresh := {| rmq_conn := rmq_conn s; rmq_channel := rmq_channel s;
                  rmq_exchange := rmq_exchange s; status := AMQP_STATUS_OK;
                  calls := [] |} in
  let '(go, s1) := connect_steps cfg r fresh in
  (if go then 0 else -1, s1).

(** ** The heartbeat thread, [jns_rmqevh_hrtbt] *)

(** C arithmetic: a result stored in an [int], and an [int] passed where a
    [gulong] is expected. *)
Definition to_int (x : Z) : Z := (x + 2 ^ 31) mod 2 ^ 32 - 2 ^ 31.
Definition to_gulong (x : Z) : Z := x mod 2 ^ 64.

(** Line 638: [int waiting_usec = (heartbeat/2) * 1000000;] *)
Definition waiting_usec (hb : Z) : Z := to_int (Z.quot hb 2 * 1000000).

(** What the thread reads on one turn of its loop: the two flags at the
    loop test, the status of the poll, [stopping] again before reconnecting,
    and the library's answers should it reconnect. *)
Record hb_reads : Type := {
  rd_initialized : bool;
  rd_stopping : bool;
  rd_res : Z;
  rd_stopping_again : bool;
  rd_amqp : amqp_answers
}.

(** What the thread does, in order. *)
Inductive hb_label : Type :=
| HLock
| HMaybeReleaseBuffers
| HWaitFrame (res : Z)
| HUnlock
| HSleep (usec : Z)
| HPollError (res : Z)
| HDestroyConnection (c : positive)
| HConnect (made : list amqp_call) (result : Z).

(** Lines 645-675: the body of the loop. *)
Definition hrtbt_body (cfg : config) (rd : hb_reads) (s : session)
  : session * list hb_label :=
  let w := waiting_usec (heartbeat cfg) in
  let res := rd_res rd in
  let poll := [HLock; HMaybeReleaseBuffers; HWaitFrame res; HUnlock] in
  if negb (res =? AMQP_STATUS_OK) then
    if (res =? AMQP_STATUS_TIMEOUT) || (res =? AMQP_STATUS_SSL_ERROR) then
      (s, poll ++ [HSleep (to_gulong w)])
    else
      let teardown :=
        match rmq_conn s with
        | Some c => [HDestroyConnection c]
        | None => []
        end in
      if negb (rd_stopping_again rd) then
        let '(result, s1) := janus_rabbitmqevh_connect cfg (rd_amqp rd) s in
        (s1, poll ++ [HPollError res] ++ teardown ++ [HConnect (calls s1) result] ++
             [HSleep (if result <? 0 then 5000000 else to_gulong w)])
      else
        (s, poll ++ [HPollError res] ++ teardown)
  else
    (s, poll ++ [HSleep (to_gulong w)]).

(** The loop over the turns the environment offers. The thread leaves as
    soon as the test of line 644 fails; [true] in the result says it left. *)
Fixpoint hrtbt_loop (cfg : config) (rds : list hb_reads) (s : session)
  : session * list hb_label * bool :=
  match rds with
  | [] => (s, [], false)
  | rd :: rest =>
      if rd_initialized rd && negb (rd_stopping rd) then
        let '(s1, ls) := hrtbt_body cfg rd s in
        let '(s2, ls', gone) := hrtbt_loop cfg rest s1 in
        (s2, ls ++ ls', gone)
      else (s, [], true)
  end.

(** The reconnect attempts and the sleeps among the actions. *)
Definition connects (ls : list hb_label) : list Z :=
  omap (fun l => match l with HConnect _ result => Some result | _ => None end) ls.

Definition sleeps (ls : list hb_label) : list Z :=
  omap (fun l => match l with HSleep us => Some us | _ => None end) ls.

(** A poll status that is neither success nor one of the two the loop
    waits out. *)
Definition hard_error (res : Z) : bool :=
  negb (res =? AMQP_STATUS_OK) && negb (res =? AMQP_STATUS_TIMEOUT)
  && negb (res =? AMQP_STATUS_SSL_ERROR).

(** ** Initialisation, [janus_rabbitmqevh_init] *)

Definition AMQP_PROTOCOL_PORT : Z := 5672.
Definition JANUS_RABBITMQEVH_EXCHANGE_TYPE : string := "fanout".

(** The statics of the configuration that a call of init leaves alone
    unless the configuration file assigns them. *)
Record carried : Type := {
  k_mask : Z;
  k_rmqport : Z;
  k_heartbeat : Z;
  k_ssl_enable : bool;
  k_ssl_verify_peer : bool;
  k_ssl_verify_hostname : bool;
  k_ssl_cacert_file : option string;
  k_ssl_cert_file : option string;
  k_ssl_key_file : option string;
  k_exchange : option string;
  k_declare_outgoing_queue : bool
}.

(** Their initialisers (lines 74 and 114-125). *)
Definition initial_statics : carried :=
  {| k_mask := 0;
     k_rmqport := AMQP_PROTOCOL_PORT;
     k_heartbeat := 0;
     k_ssl_enable := false;
     k_ssl_verify_peer := false;
     k_ssl_verify_hostname := false;
     k_ssl_cacert_file := None;
     k_ssl_cert_file := None;
     k_ssl_key_file := None;
     k_exchange := None;
     k_declare_outgoing_queue := true |}.

(** What init gets from outside the file: the items of the category
    [general] that have a value (none at all when no configuration file
    was found), the core's [janus_is_true], [janus_string_to_uint16]
    (the number on success) and [janus_events_edit_events_mask], the
    broker's answers to the handshake, and whether GLib starts each of the
    two threads. *)
Record init_host : Type := {
  cfg_item : string -> option string;
  janus_is_true : string -> bool;
  janus_string_to_uint16 : string -> option Z;
  janus_events_edit_events_mask : option string -> Z -> Z;
  broker : amqp_answers;
  handler_thread_starts : bool;
  heartbeat_thread_starts : bool
}.

(** Lines 193-260: the statics once events mask, port, heartbeat and the
    TLS settings have been read, given that the handler is enabled. *)
Definition init_statics_first (h : init_host) (k : carried) : carried :=
  let ssl :=
    match cfg_item h "ssl_enable" with
    | Some v => janus_is_true h v
    | None => false
    end in
  let flag_item (name : string) (old : bool) : bool :=
    match cfg_item h name with
    | Some v => if janus_is_true h v then true else old
    | None => old
    end in
  let file_item (name : string) (old : option string) : option string :=
    match cfg_item h name with
    | Some v => Some v
    | None => old
    end in
  let number_item (name : string) (old fallback : Z) : Z :=
    match cfg_item h name with
    | Some v =>
        match janus_string_to_uint16 h v with
        | Some n => n
        | None => fallback
        end
    | None => old
    end in
  {| k_mask :=
       match cfg_item h "events" with
       | Some v => janus_events_edit_events_mask h (Some v) (k_mask k)
       | None => k_mask k
       end;
     k_rmqport := number_item "port" (k_rmqport k) AMQP_PROTOCOL_PORT;
     k_heartbeat := number_item "heartbeat" (k_heartbeat k) 0;
     k_ssl_enable := if ssl then true else k_ssl_enable k;
     k_ssl_verify_peer :=
       if ssl then flag_item "ssl_verify_peer" (k_ssl_verify_peer k)
       else k_ssl_verify_peer k;
     k_ssl_verify_hostname :=
       if ssl then flag_item "ssl_verify_hostname" (k_ssl_verify_hostname k)
       else k_ssl_verify_hostname k;
     k_ssl_cacert_file :=
       if ssl then file_item "ssl_cacert" (k_ssl_cacert_file k) else k_ssl_cacert_file k;
     k_ssl_cert_file :=
       if ssl then file_item "ssl_cert" (k_ssl_cert_file k) else k_ssl_cert_file k;
     k_ssl_key_file :=
       if ssl then file_item "ssl_key" (k_ssl_key_file k) else k_ssl_key_file k;
     k_exchange := k_exchange k;
     k_declare_outgoing_queue := k_declare_outgoing_queue k |}.

(** Lines 277-288, reached with a [route_key]: the queue declaration flag
    and the exchange on top of the above. *)
Definition init_statics (h : init_host) (k : carried) : carried :=
  let k1 := init_statics_first h k in
  {| k_mask := k_mask k1;
     k_rmqport := k_rmqport k1;
     k_heartbeat := k_heartbeat k1;
     k_ssl_enable := k_ssl_enable k1;
     k_ssl_verify_peer := k_ssl_verify_peer k1;
     k_ssl_verify_hostname := k_ssl_verify_hostname k1;
     k_ssl_cacert_file := k_ssl_cacert_file k1;
     k_ssl_cert_file := k_ssl_cert_file k1;
     k_ssl_key_file := k_ssl_key_file k1;
     k_exchange :=
       match cfg_item h "exchange" with
       | Some v => Some v
       | None => k_exchange k
       end;
     k_declare_outgoing_queue :=
       match cfg_item h "declare_outgoing_queue" with
       | Some v => if janus_is_true h v then k_declare_outgoing_queue k else false
       | None => k_declare_outgoing_queue k
       end |}.

(** The configuration globals as the handshake finds them: what the file
    assigns, defaults for host, virtual host, credentials and exchange
    type, and the statics for the rest. There is none without a
    [route_key]. *)
Definition init_config (h : init_host) (k : carried) : option config :=
  let k1 := init_statics h k in
  match cfg_item h "route_key" with
  | None => None
  | Some rk =>
      Some {| ssl_enable := k_ssl_enable k1;
              ssl_verify_peer := k_ssl_verify_peer k1;
              ssl_verify_hostname := k_ssl_verify_hostname k1;
              ssl_cacert_file := k_ssl_cacert_file k1;
              ssl_cert_file := k_ssl_cert_file k1;
              ssl_key_file := k_ssl_key_file k1;
              rmqhost := default "localhost"%string (cfg_item h "host");
              rmqport := k_rmqport k1;
              vhost := default "/"%string (cfg_item h "vhost");
              username := default "guest"%string (cfg_item h "username");
              password := default "guest"%string (cfg_item h "password");
              heartbeat := k_heartbeat k1;
              exchange := k_exchange k1;
              exchange_type :=
                default JANUS_RABBITMQEVH_EXCHANGE_TYPE (cfg_item h "exchange_type");
              route_key := rk;
              declare_outgoing_queue := k_declare_outgoing_queue k1 |}
  end.

(** Lines 301-303: the queue is made and [initialized] is set. *)
Definition set_initialized_and_queue (g : plugin) : plugin :=
  {| initialized := true; stopping := stopping g;
     group_events := group_events g; json_format := json_format g;
     events := []; store := store g |}.

(** [g_atomic_int_set(&initialized, 0)] after a thread failed to start. *)
Definition clear_initialized (g : plugin) : plugin :=
  {| initialized := false; stopping := stopping g;
     group_events := group_events g; json_format := json_format g;
     events := events g; store := store g |}.

(** What a call of init leaves behind: its result, the globals, the
    statics, the configuration the handshake ran with if it ran, the
    session, the handler thread if one was started, and whether a
    heartbeat thread runs. *)
Record init_out : Type := {
  i_ret : Z;
  i_plugin : plugin;
  i_statics : carried;
  i_cfg : option config;
  i_session : session;
  i_handler : option hdlr;
  i_heartbeat : bool
}.

(** [janus_rabbitmqevh_init]. The strings freed on the error path are not
    followed up: the model says what the statics hold, not whether the
    memory behind them is still allocated. *)
Definition janus_rabbitmqevh_init (h : init_host) (config_path : option string)
    (g : plugin) (k : carried) (s : session) : init_out :=
  let refused :=
    {| i_ret := -1; i_plugin := g; i_statics := k; i_cfg := None;
       i_session := s; i_handler := None; i_heartbeat := false |} in
  if stopping g then refused
  else
    match config_path with
    | None => refused
    | Some _ =>
        if match cfg_item h "enabled" with
           | Some v => janus_is_true h v
           | None => false
           end
        then
          let g1 :=
            {| initialized := initialized g; stopping := stopping g;
               group_events :=
                 match cfg_item h "grouping" with
                 | Some v => janus_is_true h v
                 | None => group_events g
                 end;
               json_format :=
                 match cfg_item h "json" with
                 | Some v => json_format_of v
                 | None => json_format g
                 end;
               events := events g; store := store g |} in
          let k1 := init_statics h k in
          match init_config h k with
          | None =>
              {| i_ret := -1; i_plugin := g1; i_statics := init_statics_first h k;
                 i_cfg := None;
                 i_session := s; i_handler := None; i_heartbeat := false |}
          | Some cfg =>
              let '(result, s1) := janus_rabbitmqevh_connect cfg (broker h) s in
              if result <? 0 then
                {| i_ret := -1; i_plugin := g1; i_statics := k1; i_cfg := Some cfg;
                   i_session := s1; i_handler := None; i_heartbeat := false |}
              else
                let g2 := set_initialized_and_queue g1 in
                if handler_thread_starts h then
                  if 0 <? heartbeat cfg then
                    if heartbeat_thread_starts h then
                      {| i_ret := 0; i_plugin := g2; i_statics := k1;
                         i_cfg := Some cfg; i_session := s1;
                         i_handler := Some (thr (hdlr_start g2));
                         i_heartbeat := true |}
                    else
                      {| i_ret := -1; i_plugin := clear_initialized g2;
                         i_statics := k1; i_cfg := Some cfg; i_session := s1;
                         i_handler := Some (thr (hdlr_start g2));
                         i_heartbeat := false |}
                  else
                    {| i_ret := 0; i_plugin := g2; i_statics := k1;
                       i_cfg := Some cfg; i_session := s1;
                       i_handler := Some (thr (hdlr_start g2));
                       i_heartbeat := false |}
                else
                  {| i_ret := -1; i_plugin := clear_initialized g2; i_statics := k1;
                     i_cfg := Some cfg; i_session := s1;
                     i_handler := None; i_heartbeat := false |}
          end
        else refused
    end.

(** ** Notions the properties are stated with *)

(** The batch holds no shutdown token. *)
Definition token_free (o : output_t) : Prop := exit_event ∉ batch_of o.

(** Every value the trace shows as serialised or released is token free. *)
Definition label_ok (l : label) : Prop :=
  match l with
  | LDumps o _ => token_free o
  | LDecref o => token_free o
  | _ => True
  end.

(** Each published body with the value whose serialisation it is: the one
    of the latest [json_dumps] before the publish. *)
Fixpoint sent_from (cur : output_t) (tr : list label) : list (output_t * string) :=
  match tr with
  | [] => []
  | LDumps o _ :: tr' => sent_from o tr'
  | LPublish _ body :: tr' => (cur, body) :: sent_from cur tr'
  | _ :: tr' => sent_from cur tr'
  end.

Definition sent (tr : list label) : list (output_t * string) := sent_from ONull tr.

(** What the inner loop takes from a queue when it may still append [n]
    events: events from the front, until the queue is empty, an item that
    is no event has been removed, or [n] have been taken. The result is the
    events taken and the queue left behind. *)
Fixpoint drain (n : nat) (q : list jptr) : list jptr * list jptr :=
  match n with
  | O => ([], q)
  | S n' =>
      match q with
      | [] => ([], [])
      | p :: q' =>
          if is_event p then
            let '(b, r) := drain n' q' in (p :: b, r)
          else ([], q')
      end
  end.

(** The JSON value [json_dumps] is given: the event's own value, or an
    array of the values of the events appended, in order. *)
Definition output_value (o : output_t) (m : jstore) : option json :=
  match o with
  | ONull => None
  | OEvent p => deref p m
  | OArray l => Some (JArray (omap (fun p => deref p m) l))
  end.

(** What holds of the handler thread at every point of every execution:
    its batch is token free, the event it is about to append is not the
    token, and so is everything it has serialised or released so far. *)
Definition hdlr_inv (s : sys) : Prop :=
  token_free (h_output (thr s)) /\
  (h_pc (thr s) = L575 -> h_event (thr s) <> exit_event) /\
  Forall label_ok (trace s).

(** A producer never holds the address of the plugin's static token. *)
Definition foreign (x : action) : Prop :=
  match x with
  | AIncoming p => p <> exit_event
  | _ => True
  end.

(** Two states of the plugin that differ at most in what has been logged
    and sent so far. *)
Definition same_but_trace (s1 s2 : sys) : Prop :=
  glob s1 = glob s2 /\ thr s1 = thr s2.

(** The place of a library call in the order of the handshake; log lines
    have none. *)
Definition rank (c : amqp_call) : nat :=
  match c with
  | CNewConnection => 0
  | CSslSocketNew | CTcpSocketNew | CSetVerifyPeer _ | CSetVerifyHostname _ => 1
  | CSetCacert _ => 2
  | CSetKey _ _ => 3
  | CSocketOpen _ _ => 4
  | CLogin _ _ _ _ _ _ _ => 5
  | CChannelOpen _ => 6
  | CExchangeDeclare _ _ => 7
  | CQueueDeclare _ => 8
  | CFatal _ => 0
  end.

(** The library's answers with another status for the key. *)
Definition with_set_key (v : Z) (r : amqp_answers) : amqp_answers :=
  {| r_new_connection := r_new_connection r;
     r_ssl_socket_new := r_ssl_socket_new r;
     r_set_cacert := r_set_cacert r;
     r_set_key := v;
     r_tcp_socket_new := r_tcp_socket_new r;
     r_socket_open := r_socket_open r;
     r_login := r_login r;
     r_channel_open := r_channel_open r;
     r_exchange_declare := r_exchange_declare r;
     r_queue_declare := r_queue_declare r |}.



(** The poll under the lock, lines 645-649. *)
Definition poll_actions (res : Z) : list hb_label :=
  [HLock; HMaybeReleaseBuffers; HWaitFrame res; HUnlock].

(** The teardown of lines 660-662. *)
Definition teardown_actions (s : session) : list hb_label :=
  match rmq_conn s with
  | Some c => [HDestroyConnection c]
  | None => []
  end.


(** What holds of the sizes in every execution of a thread started on a
    queue without NULL items: [max] is 1 or 100, an array in the making
    has as many events as [count] says and fewer than [max], and whatever
    reaches the send block or has been serialised holds between one and a
    hundred events. *)
Definition size_inv (s : sys) : Prop :=
  (h_max (thr s) = 1 \/ h_max (thr s) = 100) /\
  (NULL ∉ events (glob s)) /\
  match h_pc (thr s) with
  | L575 =>
      is_event (h_event (thr s)) = true /\
      ((h_output (thr s) = ONull /\ h_count (thr s) = 0) \/
       exists l, h_output (thr s) = OArray l /\
                 h_count (thr s) = Z.of_nat (length l) /\
                 h_count (thr s) < h_max (thr s))
  | L596 =>
      exists l, h_output (thr s) = OArray l /\ l <> [] /\
                h_count (thr s) = Z.of_nat (length l) /\
                h_count (thr s) < h_max (thr s)
  | L601 => (1 <= length (batch_of (h_output (thr s))) <= 100)%nat
  | _ => True
  end /\
  Forall (fun o => (1 <= length (batch_of o) <= 100)%nat) (dumped (trace s)).

(** ** Data for the examples *)

(** A store with three events, each an object stamped by its producer and
    referenced once, and the globals after init with grouping on. *)
Definition stamped (t : Z) : json_t :=
  {| refcount := 1; jvalue := JObject [("timestamp"%string, JInteger t)] |}.

Definition three_events : jstore :=
  {| heap := <[1%positive := stamped 10]>
               (<[2%positive := stamped 20]> (<[3%positive := stamped 30]> ∅));
     exit_refcount := 0 |}.

Definition indented : Z := Z.lor (JSON_INDENT 3) JSON_PRESERVE_ORDER.

(** Answers of the outside: all well, a publish that fails with
    AMQP_STATUS_CONNECTION_CLOSED, a serialisation that fails. *)
Definition all_well : answers :=
  {| a_now := 100; a_dumps := Some "text"%string; a_publish := AMQP_STATUS_OK |}.

Definition publish_fails : answers :=
  {| a_now := 100; a_dumps := Some "text"%string; a_publish := -7 |}.

Definition dumps_fails : answers :=
  {| a_now := 100; a_dumps := None; a_publish := AMQP_STATUS_OK |}.

(** The plugin started with grouping on, its thread waiting in the blocking
    pop. *)
Definition started_grouping : sys :=
  exec (hdlr_start (init_plugin indented true three_events)) [AHdlr all_well].

(** The same after one event has come in and has been collected: the
    thread stands before the send block with a batch of one. *)
Definition before_send : sys :=
  exec started_grouping
    [AIncoming (Ptr 1); AHdlr all_well; AHdlr all_well; AHdlr all_well].

(** The Admin API request that sets the grouping flag. *)
Definition tweak_grouping (b : bool) : json :=
  JObject [("request"%string, JString "tweak");
           ("grouping"%string, if b then JTrue else JFalse)].

(** A hundred events in the store, numbered from 1. *)
Definition hundred : list positive := map Pos.of_nat (seq 1 100).

Definition hundred_events : jstore :=
  {| heap := list_to_map (map (fun i => (i, stamped (Z.pos i))) hundred);
     exit_refcount := 0 |}.

(** The plugin started with grouping off, then told to group at run time,
    then handed a hundred events. The thread is waiting in its blocking
    pop all the while. *)
Definition enabled_at_runtime : sys :=
  exec (hdlr_start (init_plugin indented false hundred_events))
    ([AHdlr all_well; ARequest (tweak_grouping true)] ++
     map (fun i => AIncoming (Ptr i)) hundred).

(** The same with three events only. *)
Definition enabled_at_runtime_three : sys :=
  exec (hdlr_start (init_plugin indented false three_events))
    [AHdlr all_well; ARequest (tweak_grouping true);
     AIncoming (Ptr 1); AIncoming (Ptr 2); AIncoming (Ptr 3)].

(** Destroy begins while the thread, started with grouping on, waits for
    events and one event is queued: the token ends up behind the event. *)
Definition token_behind_event : sys :=
  exec started_grouping [AIncoming (Ptr 1); ADestroySignal].

(** A TLS configuration with CA certificate, client certificate and key,
    an exchange and the outgoing queue declared, for a given heartbeat
    interval. *)
Definition with_heartbeat (hb : Z) : config :=
  {| ssl_enable := true; ssl_verify_peer := true; ssl_verify_hostname := true;
     ssl_cacert_file := Some "ca.pem"%string;
     ssl_cert_file := Some "client.pem"%string;
     ssl_key_file := Some "client.key"%string;
     rmqhost := "localhost"; rmqport := 5671;
     vhost := "/"; username := "guest"; password := "guest";
     heartbeat := hb;
     exchange := Some "janus-exchange"%string; exchange_type := "fanout";
     route_key := "janus-events";
     declare_outgoing_queue := true |}.

Definition tls_config : config := with_heartbeat 60.

(** A broker that answers every call with success. *)
Definition broker_fine : amqp_answers :=
  {| r_new_connection := Some 7%positive;
     r_ssl_socket_new := true;
     r_set_cacert := AMQP_STATUS_OK;
     r_set_key := AMQP_STATUS_OK;
     r_tcp_socket_new := true;
     r_socket_open := AMQP_STATUS_OK;
     r_login := AMQP_RESPONSE_NORMAL;
     r_channel_open := AMQP_RESPONSE_NORMAL;
     r_exchange_declare := AMQP_RESPONSE_NORMAL;
     r_queue_declare := AMQP_RESPONSE_NORMAL |}.

(** The same, except that loading the client certificate and key fails. *)
Definition key_rejected : amqp_answers := with_set_key AMQP_STATUS_SSL_ERROR broker_fine.

(** No session yet. *)
Definition no_session : session :=
  {| rmq_conn := None; rmq_channel := 0; rmq_exchange := None;
     status := AMQP_STATUS_OK; calls := [] |}.

(** The same, except that loading the CA certificate fails. *)
Definition cacert_rejected : amqp_answers :=
  {| r_new_connection := Some 8%positive;
     r_ssl_socket_new := true;
     r_set_cacert := AMQP_STATUS_SSL_ERROR;
     r_set_key := AMQP_STATUS_OK;
     r_tcp_socket_new := true;
     r_socket_open := AMQP_STATUS_OK;
     r_login := AMQP_RESPONSE_NORMAL;
     r_channel_open := AMQP_RESPONSE_NORMAL;
     r_exchange_declare := AMQP_RESPONSE_NORMAL;
     r_queue_declare := AMQP_RESPONSE_NORMAL |}.

(** A turn of the heartbeat loop with the plugin running: the poll's
    status and the broker's answers should the thread reconnect. *)
Definition turn (res : Z) (r : amqp_answers) : hb_reads :=
  {| rd_initialized := true; rd_stopping := false; rd_res := res;
     rd_stopping_again := false; rd_amqp := r |}.

(** An established session. *)
Definition session_up : session :=
  {| rmq_conn := Some 5%positive; rmq_channel := 1;
     rmq_exchange := Some "janus-exchange"%string;
     status := AMQP_STATUS_OK; calls := [] |}.

(** Reading a trace for the mutex: [held] says whether the lock is held
    where the reading starts. A publish and its error line are in order
    only under the lock, everything else only outside it, a lock only when
    it is free and an unlock only when it is held. The result is the state
    of the lock at the end, or nothing if the trace is out of order. *)
Fixpoint lock_scan (held : bool) (tr : list label) : option bool :=
  match tr with
  | [] => Some held
  | LLock :: tr' => if held then None else lock_scan true tr'
  | LUnlock :: tr' => if held then lock_scan false tr' else None
  | LPublish _ _ :: tr' => if held then lock_scan true tr' else None
  | LPublishError _ :: tr' => if held then lock_scan true tr' else None
  | _ :: tr' => if held then None else lock_scan false tr'
  end.

(** The values the thread has released with [json_decref(output)], oldest
    first. *)
Definition released (tr : list label) : list output_t :=
  omap (fun l => match l with LDecref o => Some o | _ => None end) tr.

(** The events the thread has in hand: the batch in the making, and at the
    head of the inner loop also the event about to be appended. *)
Definition in_hand (t : hdlr) : list jptr :=
  match h_pc t with
  | L575 => batch_of (h_output t) ++ [h_event t]
  | L596 | L601 => batch_of (h_output t)
  | _ => []
  end.

(** The events the plugin holds a reference to: those in hand and those
    queued, in the order they will be serialised. *)
Definition held (s : sys) : list jptr :=
  in_hand (thr s) ++ List.filter is_event (events (glob s)).

(** The events the plugin has had to do with so far, in order: those of
    the batches released, then those it holds. *)
Definition handled (s : sys) : list jptr :=
  concat (map batch_of (released (trace s))) ++ held s.

(** The event an action queues, if it queues one. *)
Definition accepted (s : sys) (x : action) : list jptr :=
  match x with
  | AIncoming p =>
      if stopping (glob s) || negb (initialized (glob s)) then []
      else if is_event p then [p] else []
  | _ => []
  end.

Fixpoint accepted_all (s : sys) (xs : list action) : list jptr :=
  match xs with
  | [] => []
  | x :: xs' => accepted s x ++ accepted_all (act s x) xs'
  end.

(** The thread is collecting a batch that already holds an event. *)
Definition mid_batch (t : hdlr) : bool :=
  match h_pc t with
  | L575 => match h_output t with ONull => false | _ => true end
  | L596 => true
  | _ => false
  end.

(** An action that does not switch grouping off under a batch that is
    being collected. *)
Definition calm (s : sys) (x : action) : Prop :=
  match x with
  | ARequest r => mid_batch (thr s) = true -> group_events (tweak r (glob s)) = true
  | _ => True
  end.

Fixpoint calm_all (s : sys) (xs : list action) : Prop :=
  match xs with
  | [] => True
  | x :: xs' => calm s x /\ calm_all (act s x) xs'
  end.

(** What the accounting of events rests on: no NULL in the queue, only
    events in the batch, and an array in the making only under grouping. *)
Definition track_inv (s : sys) : Prop :=
  (NULL ∉ events (glob s)) /\
  Forall (fun p => is_event p = true) (batch_of (h_output (thr s))) /\
  match h_pc (thr s) with
  | L575 =>
      is_event (h_event (thr s)) = true /\
      (h_output (thr s) = ONull \/
       ((exists l, h_output (thr s) = OArray l) /\ group_events (glob s) = true))
  | L596 => (exists l, h_output (thr s) = OArray l) /\ group_events (glob s) = true
  | _ => True
  end.

(** How often the address [a] occurs in a list of pointers. *)
Definition cnt (a : positive) (h : list jptr) : nat :=
  length (List.filter (fun p => bool_decide (p = Ptr a)) h).

(** The store [m] is the store [m0] with one more reference to each value
    for every time it occurs in [h], and nothing else changed. *)
Definition holds (h : list jptr) (m0 m : jstore) : Prop :=
  exit_refcount m = exit_refcount m0 /\
  forall a, heap m !! a =
    (fun c => {| refcount := refcount c + Z.of_nat (cnt a h); jvalue := jvalue c |})
      <$> heap m0 !! a.

(** Every value of the store is referenced at least once, and [n] more
    references will not reach Jansson's immortal count. *)
Definition roomy (n : nat) (m0 : jstore) : Prop :=
  forall a c, heap m0 !! a = Some c -> 1 <= refcount c /\ refcount c + Z.of_nat n < SIZE_MAX.

(** Whether every step the handshake checks goes through with these
    answers: the socket is made, the CA certificate loads if one is
    configured, the socket opens, login and channel get a normal reply,
    and so do the exchange and queue declarations that are configured. *)
Definition handshake_ok (cfg : config) (r : amqp_answers) : bool :=
  (if ssl_enable cfg then
     r_ssl_socket_new r &&
     match ssl_cacert_file cfg with
     | Some _ => r_set_cacert r =? AMQP_STATUS_OK
     | None => true
     end
   else r_tcp_socket_new r) &&
  (r_socket_open r =? AMQP_STATUS_OK) &&
  (r_login r =? AMQP_RESPONSE_NORMAL) &&
  (r_channel_open r =? AMQP_RESPONSE_NORMAL) &&
  match exchange cfg with
  | Some _ => r_exchange_declare r =? AMQP_RESPONSE_NORMAL
  | None => true
  end &&
  (if declare_outgoing_queue cfg then r_queue_declare r =? AMQP_RESPONSE_NORMAL
   else true).

Definition is_fatal (c : amqp_call) : bool :=
  match c with CFatal _ => true | _ => false end.

(** The calls that belong to the TLS socket. *)
Definition is_tls_call (c : amqp_call) : bool :=
  match c with
  | CSslSocketNew | CSetVerifyPeer _ | CSetVerifyHostname _
  | CSetCacert _ | CSetKey _ _ => true
  | _ => false
  end.

(** Reading the actions of the heartbeat thread for the mutex, as
    [lock_scan] does for the handler thread: releasing buffers and polling
    are in order only under the lock, everything else only outside it. *)
Fixpoint hb_lock_scan (held : bool) (ls : list hb_label) : option bool :=
  match ls with
  | [] => Some held
  | HLock :: ls' => if held then None else hb_lock_scan true ls'
  | HUnlock :: ls' => if held then hb_lock_scan false ls' else None
  | HMaybeReleaseBuffers :: ls' => if held then hb_lock_scan true ls' else None
  | HWaitFrame _ :: ls' => if held then hb_lock_scan true ls' else None
  | _ :: ls' => if held then None else hb_lock_scan false ls'
  end.

(** The test of line 644 on what a turn reads. *)
Definition passes_test (rd : hb_reads) : bool :=
  rd_initialized rd && negb (rd_stopping rd).

(** The connections handed to [amqp_destroy_connection]. *)
Definition destroyed (ls : list hb_label) : list positive :=
  omap (fun l => match l with HDestroyConnection c => Some c | _ => None end) ls.

(** Lines 449-451 of [janus_rabbitmqevh_destroy], after both threads are
    joined: the connection [rmq_conn] points to is destroyed. *)
Definition destroy_connection (s : session) : list hb_label :=
  match rmq_conn s with
  | Some c => [HDestroyConnection c]
  | None => []
  end.

(** The globals before the first call of init (lines 85, 94 and 103),
    over a given store. *)
Definition before_init (m : jstore) : plugin :=
  {| initialized := false; stopping := false; group_events := true;
     json_format := indented; events := []; store := m |}.

(** A host for the examples: a configuration file given by its items, a
    [janus_is_true] that takes the word true, a number parser that knows
    the two numbers the examples use, an events mask that is kept, and
    both threads starting or not. *)
Definition host_with (items : list (string * string)) (r : amqp_answers)
    (handler heartbeat_thread : bool) : init_host :=
  {| cfg_item := fun name => (list_to_map items : gmap string string) !! name;
     janus_is_true := fun v => strcaseeq v "true";
     janus_string_to_uint16 := fun v =>
       if String.eqb v "5671" then Some 5671
       else if String.eqb v "30" then Some 30
       else None;
     janus_events_edit_events_mask := fun _ mask => mask;
     broker := r;
     handler_thread_starts := handler;
     heartbeat_thread_starts := heartbeat_thread |}.

Definition items_fine : list (string * string) :=
  [("enabled", "true"); ("route_key", "janus-events"); ("port", "5671");
   ("heartbeat", "30"); ("json", "compact")]%string.

(** A file without [route_key], with a port that is no number, and with
    certificate items but no [ssl_enable]. *)
Definition items_poor : list (string * string) :=
  [("enabled", "true"); ("port", "http"); ("heartbeat", "soon");
   ("ssl_cacert", "ca.pem"); ("grouping", "false")]%string.

(** Grouping is switched off while the thread, started with grouping on,
    has one event in its array and the next one in hand. *)
Definition grouping_off_mid_batch : sys :=
  exec started_grouping
    [AIncoming (Ptr 1); AIncoming (Ptr 2);
     AHdlr all_well; AHdlr all_well; AHdlr all_well;
     ARequest (tweak_grouping false)].

(** A hundred events queued behind a thread started with grouping on. *)
Definition hundred_queued : list action :=
  AHdlr all_well :: map (fun i => AIncoming (Ptr i)) hundred.

(** ** The plugin at the grain of single reads and writes *)

(** Lines 603-628 of the handler thread, reached when the test of line 601
    found [stopping] clear: serialise, publish under the lock, release. *)
Definition hdlr_emit (a : answers) (s : sys) : sys :=
  let g := glob s in
  let t := thr s in
  let o := h_output t in
  let back :=
    {| h_pc := L567; h_event := h_event t; h_output := ONull;
       h_count := h_count t; h_max := h_max t |} in
  let released := set_store (json_decref_output o (store g)) g in
  match a_dumps a with
  | None =>
      {| glob := released; thr := back;
         trace := trace s ++ [LDumps o (json_format g); LStringifyFailed; LDecref o] |}
  | Some event_text =>
      {| glob := released; thr := back;
         trace := trace s ++
           [LDumps o (json_format g); LLock; LPublish "application/json" event_text] ++
           (if a_publish a =? AMQP_STATUS_OK then [] else [LPublishError (a_publish a)]) ++
           [LUnlock; LDecref o] |}
  end.

(** Lines 626-628 alone, reached when the test found [stopping] set. *)
Definition hdlr_drop (s : sys) : sys :=
  let g := glob s in
  let t := thr s in
  {| glob := set_store (json_decref_output (h_output t) (store g)) g;
     thr := {| h_pc := L567; h_event := h_event t; h_output := ONull;
               h_count := h_count t; h_max := h_max t |};
     trace := trace s ++ [LDecref (h_output t)] |}.

(** Where the caller of [janus_rabbitmqevh_destroy] stands: before the call
    (or back from one that returned at line 433), [stopping] raised and the
    token not yet pushed (line 436), waiting in the join (line 438), and
    back from the call. *)
Inductive destroy_pc : Type := D432 | D436 | D438 | D464.

#[global] Instance destroy_pc_eq_dec : EqDecision destroy_pc.
Proof. solve_decision. Defined.

(** The plugin with its calls in flight: the globals, the handler thread
    and its trace; whether the thread, standing at the send block, has
    already read [stopping] and found it clear; where destroy stands; the
    events of the producers that are past the test of line 496 and have
    not taken their reference yet; the events of those that have taken it
    (line 508) and have not pushed yet; and the requests that are past the
    test of line 513. *)
Record fine : Type := {
  f_sys : sys;
  f_passed : bool;
  f_dpc : destroy_pc;
  f_entered : list jptr;
  f_referenced : list jptr;
  f_pending : list json
}.

Definition with_sys (s : sys) (f : fine) : fine :=
  {| f_sys := s; f_passed := f_passed f; f_dpc := f_dpc f;
     f_entered := f_entered f; f_referenced := f_referenced f;
     f_pending := f_pending f |}.

(** A plugin just initialised: the thread at the head of its loop, no call
    in flight. *)
Definition fine_start (g : plugin) : fine :=
  {| f_sys := hdlr_start g; f_passed := false; f_dpc := D432;
     f_entered := []; f_referenced := []; f_pending := [] |}.

(** One step of the handler thread. The send block is two steps: the read
    of [stopping] at line 601, and what that read leads to. *)
Definition fine_hdlr (a : answers) (f : fine) : fine :=
  let s := f_sys f in
  match h_pc (thr s) with
  | L601 =>
      if f_passed f then
        {| f_sys := hdlr_emit a s; f_passed := false; f_dpc := f_dpc f;
           f_entered := f_entered f; f_referenced := f_referenced f;
           f_pending := f_pending f |}
      else if stopping (glob s) then with_sys (hdlr_drop s) f
      else
        {| f_sys := s; f_passed := true; f_dpc := f_dpc f;
           f_entered := f_entered f; f_referenced := f_referenced f;
           f_pending := f_pending f |}
  | _ => with_sys (hdlr_step a s) f
  end.

(** Lines 517-538 for the grouping flag: the value a request assigns, if it
    gets that far. *)
Definition request_grouping (request : json) : option bool :=
  let '(error_code, _) :=
    janus_validate_json_object request request_parameters
      JANUS_RABBITMQEVH_ERROR_MISSING_ELEMENT JANUS_RABBITMQEVH_ERROR_INVALID_ELEMENT in
  if negb (error_code =? 0) then None
  else
    let request_text :=
      default ""%string (json_string_value (json_object_get (Some request) "request"%string)) in
    if strcaseeq request_text "tweak"%string then
      let '(error_code, _) :=
        janus_validate_json_object request tweak_parameters
          JANUS_RABBITMQEVH_ERROR_MISSING_ELEMENT JANUS_RABBITMQEVH_ERROR_INVALID_ELEMENT in
      if negb (error_code =? 0) then None
      else
        match json_object_get (Some request) "grouping"%string with
        | Some v => Some (json_is_true (Some v))
        | None => None
        end
    else None.

Definition apply_request (request : json) (g : plugin) : plugin :=
  match request_grouping request with
  | Some b => set_group_events b g
  | None => g
  end.

(** Lines 446-462 of destroy, after the joins: the queue is released with
    what it still holds, and both flags are cleared. *)
Definition teardown (g : plugin) : plugin :=
  {| initialized := false; stopping := false;
     group_events := group_events g; json_format := json_format g;
     events := [];
     store := g_async_queue_unref (events g) (store g) |}.

(** What can happen next: a step of the handler thread; a producer calling
    [janus_rabbitmqevh_incoming_event] and making the test of line 496; the
    [i]-th of the producers past the test taking its reference; the [i]-th
    of those holding a reference pushing its event; a request making the
    test of line 513; the [i]-th request past the test doing the rest; the
    next step of destroy. *)
Inductive fine_action : Type :=
| FHdlr (a : answers)
| FEnter (event : jptr)
| FIncref (i : nat)
| FPush (i : nat)
| FReqEnter (request : json)
| FReqApply (i : nat)
| FDestroy.

(** Destroy waits in the join until the thread has left its loop; the
    join of the heartbeat thread, which touches neither queue nor store,
    and the release of the connection and of the configuration strings are
    not followed here. Once destroy is back the queue is gone: [events] is
    NULL and a push finds nothing to push to. *)
Definition fine_act (f : fine) (x : fine_action) : fine :=
  let s := f_sys f in
  let g := glob s in
  match x with
  | FHdlr a => fine_hdlr a f
  | FEnter event =>
      if stopping g || negb (initialized g) then f
      else
        {| f_sys := s; f_passed := f_passed f; f_dpc := f_dpc f;
           f_entered := f_entered f ++ [event]; f_referenced := f_referenced f;
           f_pending := f_pending f |}
  | FIncref i =>
      match f_entered f !! i with
      | Some event =>
          {| f_sys := with_glob (set_store (json_incref event (store g))) s;
             f_passed := f_passed f; f_dpc := f_dpc f;
             f_entered := delete i (f_entered f);
             f_referenced := f_referenced f ++ [event];
             f_pending := f_pending f |}
      | None => f
      end
  | FPush i =>
      match f_referenced f !! i with
      | Some event =>
          {| f_sys :=
               if decide (f_dpc f = D464) then s
               else with_glob (set_events (g_async_queue_push (events g) event)) s;
             f_passed := f_passed f; f_dpc := f_dpc f;
             f_entered := f_entered f;
             f_referenced := delete i (f_referenced f);
             f_pending := f_pending f |}
      | None => f
      end
  | FReqEnter request =>
      if stopping g || negb (initialized g) then f
      else
        {| f_sys := s; f_passed := f_passed f; f_dpc := f_dpc f;
           f_entered := f_entered f; f_referenced := f_referenced f;
           f_pending := f_pending f ++ [request] |}
  | FReqApply i =>
      match f_pending f !! i with
      | Some request =>
          {| f_sys := with_glob (apply_request request) s;
             f_passed := f_passed f; f_dpc := f_dpc f;
             f_entered := f_entered f; f_referenced := f_referenced f;
             f_pending := delete i (f_pending f) |}
      | None => f
      end
  | FDestroy =>
      match f_dpc f with
      | D432 =>
          if initialized g then
            {| f_sys := with_glob (set_stopping true) s;
               f_passed := f_passed f; f_dpc := D436;
               f_entered := f_entered f; f_referenced := f_referenced f;
               f_pending := f_pending f |}
          else f
      | D436 =>
          {| f_sys := with_glob (set_events (g_async_queue_push (events g) exit_event)) s;
             f_passed := f_passed f; f_dpc := D438;
             f_entered := f_entered f; f_referenced := f_referenced f;
             f_pending := f_pending f |}
      | D438 =>
          if decide (h_pc (thr s) = L630) then
            {| f_sys := with_glob teardown s;
               f_passed := f_passed f; f_dpc := D464;
               f_entered := f_entered f; f_referenced := f_referenced f;
               f_pending := f_pending f |}
          else f
      | D464 => f
      end
  end.

Definition fine_exec (f : fine) (xs : list fine_action) : fine := fold_left fine_act xs f.

(** The thread has read [stopping] at line 601, found it clear, and has
    not yet serialised. *)
Definition committed (f : fine) : bool :=
  f_passed f && bool_decide (h_pc (thr (f_sys f)) = L601).

(** A producer never holds the address of the plugin's static token. *)
Definition fine_foreign (x : fine_action) : Prop :=
  match x with
  | FEnter p => p <> exit_event
  | _ => True
  end.

(** A request that does not switch grouping off under a batch that is
    being collected. *)
Definition fine_calm (f : fine) (x : fine_action) : Prop :=
  match x with
  | FReqApply i =>
      match f_pending f !! i with
      | Some r =>
          mid_batch (thr (f_sys f)) = true -> request_grouping r <> Some false
      | None => True
      end
  | _ => True
  end.

Fixpoint fine_calm_all (f : fine) (xs : list fine_action) : Prop :=
  match xs with
  | [] => True
  | x :: xs' => fine_calm f x /\ fine_calm_all (fine_act f x) xs'
  end.

(** The references the plugin owes: the events in the thread's hands and
    in the queue, and those a producer has referenced and not yet pushed. *)
Definition owed (f : fine) : list jptr :=
  held (f_sys f) ++ f_referenced f.

(** What the accounting rests on, for a store [m0] referenced before the
    plugin took any reference: the invariant of the thread, the store being
    [m0] with one reference more for each event the plugin owes, a bound on
    their number, and no producer holding the token. *)
Definition acct (m0 : jstore) (k : nat) (f : fine) : Prop :=
  track_inv (f_sys f) /\
  holds (owed f) m0 (store (glob (f_sys f))) /\
  (length (owed f) <= k)%nat /\
  (exit_event ∉ f_entered f) /\ (exit_event ∉ f_referenced f).

(** The thread, started with grouping on, has collected one event, found
    the queue empty, read [stopping] at line 601 and found it clear; then
    destroy raises the flag. *)
Definition sending_when_stopped : fine :=
  fine_exec (fine_start (init_plugin indented true three_events))
    [FHdlr all_well; FEnter (Ptr 1); FIncref 0; FPush 0;
     FHdlr all_well; FHdlr all_well; FHdlr all_well; FHdlr all_well;
     FDestroy].

(** Two producers pass the test; one delivers at once, the other takes its
    reference and pushes only after destroy has pushed the token. The
    thread then takes the first event, meets the token, releases its batch
    unsent and leaves. *)
Definition pushed_behind_the_token : list fine_action :=
  [FHdlr all_well; FEnter (Ptr 1); FEnter (Ptr 2); FIncref 0; FPush 0;
   FDestroy; FDestroy; FIncref 0; FPush 0;
   FHdlr all_well; FHdlr all_well; FHdlr all_well; FHdlr all_well; FHdlr all_well].

(** A producer passes the test and is overtaken by the whole of destroy. *)
Definition overtaken_by_destroy : fine :=
  fine_exec (fine_start (init_plugin indented true three_events))
    [FHdlr all_well; FEnter (Ptr 1); FDestroy; FDestroy; FHdlr all_well; FDestroy].

(** ** Proof steps that recur *)

(** Case analysis on every test and option the goal still branches on. *)
Ltac split_ifs :=
  repeat match goal with
    | |- context [if ?b then _ else _] => destruct b eqn:?; simpl
    | |- context [match ?o with Some _ => _ | None => _ end] => destruct o eqn:?; simpl
    end.

Ltac connect_cases cfg r :=
  unfold janus_rabbitmqevh_connect, connect_steps, andthen, fatal_unless_status_ok,
    fatal_unless, call, set_status, set_conn, set_channel, set_exchange, skip;
  destruct cfg, r; simpl in *; split_ifs.

(** * Properties *)

(** ** Reference counts *)




(** ** The incoming-event entry point *)



(** ** The shutdown token *)

Lemma exit_refcount_decref (p : jptr) (m : jstore) :
  p <> exit_event -> exit_refcount (json_decref p m) = exit_refcount m.
Proof.
  intros Hp. destruct p as [| |a]; simpl; [reflexivity|contradiction|].
  destruct (heap m !! a) as [c|]; [|reflexivity].
  destruct (refcount c =? SIZE_MAX); [reflexivity|].
  destruct ((refcount c - 1) mod 2 ^ 64 =? 0); reflexivity.
Qed.

Lemma exit_refcount_incref (p : jptr) (m : jstore) :
  p <> exit_event -> exit_refcount (json_incref p m) = exit_refcount m.
Proof.
  intros Hp. destruct p as [| |a]; simpl; [reflexivity|contradiction|].
  destruct (heap m !! a) as [c|]; [|reflexivity].
  destruct (refcount c =? SIZE_MAX); reflexivity.
Qed.

Lemma exit_refcount_decref_all (l : list jptr) (m : jstore) :
  exit_event ∉ l ->
  exit_refcount (fold_left (fun m' p => json_decref p m') l m) = exit_refcount m.
Proof.
  revert m. induction l as [|p l IH]; intros m Hl; simpl; [reflexivity|].
  apply not_elem_of_cons in Hl as [Hp Hl].
  rewrite IH by assumption. apply exit_refcount_decref. congruence.
Qed.

Lemma exit_refcount_decref_output (o : output_t) (m : jstore) :
  token_free o -> exit_refcount (json_decref_output o m) = exit_refcount m.
Proof.
  unfold token_free. destruct o as [|p|l]; simpl; intros Ho.
  - reflexivity.
  - apply exit_refcount_decref. intros ->. apply Ho. constructor.
  - by apply exit_refcount_decref_all.
Qed.

(** The queue's destructor leaves the token alone. *)
Lemma event_free_exit_event (m : jstore) :
  janus_rabbitmqevh_event_free exit_event m = m.
Proof. reflexivity. Qed.

Lemma exit_refcount_event_free (p : jptr) (m : jstore) :
  exit_refcount (janus_rabbitmqevh_event_free p m) = exit_refcount m.
Proof.
  destruct p as [| |a]; [reflexivity|reflexivity|].
  apply (exit_refcount_decref (Ptr a)). discriminate.
Qed.

Lemma exit_refcount_queue_unref (q : list jptr) (m : jstore) :
  exit_refcount (g_async_queue_unref q m) = exit_refcount m.
Proof.
  unfold g_async_queue_unref. revert m.
  induction q as [|p q IH]; intros m; simpl; [reflexivity|].
  rewrite IH. apply exit_refcount_event_free.
Qed.

Lemma hdlr_inv_start (g : plugin) : hdlr_inv (hdlr_start g).
Proof.
  unfold hdlr_inv, token_free. simpl. repeat split.
  - apply not_elem_of_nil.
  - discriminate.
  - constructor.
Qed.

Lemma token_free_append (o : output_t) (p : jptr) (m : jstore) :
  token_free o -> p <> exit_event ->
  token_free (json_array_append_new o p m).1.
Proof.
  unfold token_free. intros Ho Hp.
  destruct p as [| |a]; [exact Ho|contradiction|].
  destruct o as [|q|l]; simpl; try exact Ho.
  intros [Hin|Hin]%elem_of_app; [by apply Ho|].
  apply list_elem_of_singleton in Hin. discriminate.
Qed.

Lemma hdlr_step_inv (a : answers) (s : sys) :
  hdlr_inv s -> hdlr_inv (hdlr_step a s).
Proof.
  intros (Ho & He & Htr). unfold hdlr_step.
  destruct (h_pc (thr s)) eqn:Hpc.
  - unfold hdlr_test. destruct (initialized (glob s) && negb (stopping (glob s)));
      (repeat split; simpl; [exact Ho|discriminate|exact Htr]).
  - unfold hdlr_pop. destruct (events (glob s)) as [|p q].
    { split; [exact Ho|split; [congruence|exact Htr]]. }
    destruct (decide (p = exit_event)) as [->|Hp]; repeat split; simpl.
    + exact Ho.
    + discriminate.
    + apply Forall_app. split; [exact Htr|]. repeat constructor.
    + apply not_elem_of_nil.
    + intros _. exact Hp.
    + apply Forall_app. split; [exact Htr|]. repeat constructor.
  - specialize (He eq_refl). unfold hdlr_collect.
    assert (Hlogs : Forall label_ok
              (handled_after (a_now a) (h_event (thr s)) (store (glob s)))).
    { unfold handled_after.
      destruct (json_object_get _ _) as [created|]; [|constructor].
      destruct (json_is_integer created); repeat constructor. }
    destruct (negb (group_events (glob s))).
    + repeat split; simpl.
      * unfold token_free. simpl. intros Hin.
        apply list_elem_of_singleton in Hin. congruence.
      * discriminate.
      * apply Forall_app. split; assumption.
    + destruct (json_array_append_new _ _ _) as [o1 m1] eqn:Happ.
      repeat split; simpl.
      * replace o1 with (json_array_append_new
          match h_output (thr s) with ONull => OArray [] | o' => o' end
          (h_event (thr s)) (store (glob s))).1 by (rewrite Happ; reflexivity).
        apply token_free_append; [|exact He].
        destruct (h_output (thr s)); [apply not_elem_of_nil|exact Ho|exact Ho].
      * destruct (h_count (thr s) + 1 =? h_max (thr s)); discriminate.
      * apply Forall_app. split; assumption.
  - unfold hdlr_try_pop.
    destruct (g_async_queue_try_pop (events (glob s))) as [p q].
    repeat split; simpl.
    + exact Ho.
    + destruct (decide (p = NULL)); [discriminate|].
      destruct (decide (p = exit_event)); [discriminate|]. intros _. assumption.
    + apply Forall_app. split; [exact Htr|]. repeat constructor.
  - unfold hdlr_send. destruct (negb (stopping (glob s))); [destruct (a_dumps a)|];
      (repeat split; simpl; [apply not_elem_of_nil|discriminate|]);
      (apply Forall_app; split; [exact Htr|]).
    + destruct (a_publish a =? AMQP_STATUS_OK); simpl; repeat constructor; exact Ho.
    + repeat constructor; exact Ho.
    + repeat constructor; exact Ho.
  - split; [exact Ho|split; [congruence|exact Htr]].
Qed.

Lemma act_inv (s : sys) (x : action) : hdlr_inv s -> hdlr_inv (act s x).
Proof.
  intros H. destruct x; simpl; try exact H.
  - by apply hdlr_step_inv.
  - destruct (decide (h_pc (thr s) = L630)); exact H.
Qed.

Lemma exec_inv (xs : list action) (s : sys) : hdlr_inv s -> hdlr_inv (exec s xs).
Proof.
  revert s. induction xs as [|x xs IH]; intros s H; simpl; [exact H|].
  apply IH. by apply act_inv.
Qed.

(** A request changes the grouping flag or nothing at all. *)
Lemma tweak_cases (request : json) (g : plugin) :
  tweak request g = g \/ exists b, tweak request g = set_group_events b g.
Proof.
  unfold tweak, janus_rabbitmqevh_handle_request.
  destruct (stopping g || negb (initialized g)); [by left|].
  destruct (janus_validate_json_object request request_parameters _ _) as [c1 e1].
  destruct (negb (c1 =? 0)); [by left|].
  destruct (strcaseeq _ _); [|by left].
  destruct (janus_validate_json_object request tweak_parameters _ _) as [c2 e2].
  destruct (negb (c2 =? 0)); [by left|].
  destruct (json_object_get (Some request) "grouping") as [v|]; simpl; [|by left].
  right. by eexists.
Qed.

Lemma tweak_store (request : json) (g : plugin) :
  store (tweak request g) = store g.
Proof. destruct (tweak_cases request g) as [->|[b ->]]; reflexivity. Qed.

Lemma tweak_events (request : json) (g : plugin) :
  events (tweak request g) = events g.
Proof. destruct (tweak_cases request g) as [->|[b ->]]; reflexivity. Qed.

Lemma hdlr_step_exit_refcount (a : answers) (s : sys) :
  hdlr_inv s ->
  exit_refcount (store (glob (hdlr_step a s))) = exit_refcount (store (glob s)).
Proof.
  intros (Ho & He & _). unfold hdlr_step.
  destruct (h_pc (thr s)) eqn:Hpc; try reflexivity.
  - unfold hdlr_test. by destruct (_ && _).
  - unfold hdlr_pop. destruct (events (glob s)) as [|p q]; [reflexivity|].
    by destruct (decide (p = exit_event)).
  - specialize (He eq_refl). unfold hdlr_collect.
    destruct (negb (group_events (glob s))); [reflexivity|].
    destruct (json_array_append_new _ _ _) as [o1 m1] eqn:Happ. simpl.
    unfold json_array_append_new in Happ.
    destruct (h_event (thr s)) as [| |e] eqn:Hev; [congruence|congruence|].
    destruct (h_output (thr s)); injection Happ as _ <-; try reflexivity.
    apply (exit_refcount_decref (Ptr e)). discriminate.
  - unfold hdlr_try_pop. by destruct (g_async_queue_try_pop _).
  - unfold hdlr_send.
    destruct (negb (stopping (glob s))); [destruct (a_dumps a)|]; simpl;
      by apply exit_refcount_decref_output.
Qed.

Lemma act_exit_refcount (s : sys) (x : action) :
  hdlr_inv s -> foreign x ->
  exit_refcount (store (glob (act s x))) = exit_refcount (store (glob s)).
Proof.
  intros Hinv Hx. destruct x as [a|p|r| |]; simpl.
  - by apply hdlr_step_exit_refcount.
  - unfold janus_rabbitmqevh_incoming_event.
    destruct (_ || _); [reflexivity|]. simpl. by apply exit_refcount_incref.
  - by rewrite tweak_store.
  - unfold destroy_signal. by destruct (negb _).
  - destruct (decide _); [|reflexivity]. simpl. unfold destroy_finish.
    destruct (negb _); [reflexivity|]. simpl. apply exit_refcount_queue_unref.
Qed.

Lemma exec_exit_refcount (xs : list action) (s : sys) :
  hdlr_inv s -> Forall foreign xs ->
  exit_refcount (store (glob (exec s xs))) = exit_refcount (store (glob s)).
Proof.
  revert s. induction xs as [|x xs IH]; intros s Hinv Hxs; simpl; [reflexivity|].
  apply Forall_cons in Hxs as [Hx Hxs].
  rewrite IH by (try apply act_inv; assumption).
  by apply act_exit_refcount.
Qed.

Lemma sent_from_token_free (tr : list label) (cur : output_t) :
  token_free cur -> Forall label_ok tr ->
  Forall (fun ob => token_free ob.1) (sent_from cur tr).
Proof.
  revert cur. induction tr as [|l tr IH]; intros cur Hcur Htr; simpl; [constructor|].
  apply Forall_cons in Htr as [Hl Htr].
  destruct l; simpl in *; auto.
Qed.

Lemma dumped_token_free (tr : list label) :
  Forall label_ok tr -> Forall token_free (dumped tr).
Proof.
  unfold dumped. induction tr as [|l tr IH]; intros Htr; simpl; [constructor|].
  apply Forall_cons in Htr as [Hl Htr].
  destruct l; simpl in *; auto.
Qed.

(** C4. Whatever the queue holds when the handler thread starts and
    whatever the producers, the Admin API, destroy and the thread do from
    then on, in any order: the batch in the thread's hands never holds the
    shutdown token, no value given to [json_dumps] holds it, and no body
    given to [amqp_basic_publish] is the serialisation of a value that
    holds it. That covers the token as the first item of a blocking pop and
    the token met by the non-blocking pop in the middle of a batch. The
    queue's destructor returns at once on the token, so releasing a queue
    that holds it changes no reference count of the token; and as long as no
    producer hands in the token's own address, its count is in every state
    what it was at the start. *)
Theorem exit_event_never_batched (g : plugin) (xs : list action) :
  let s := exec (hdlr_start g) xs in
  (exit_event ∉ batch_of (h_output (thr s))) /\
  Forall (fun o => exit_event ∉ batch_of o) (dumped (trace s)) /\
  Forall (fun ob => exit_event ∉ batch_of ob.1) (sent (trace s)) /\
  (forall m, janus_rabbitmqevh_event_free exit_event m = m) /\
  (forall q m, exit_refcount (g_async_queue_unref q m) = exit_refcount m) /\
  (Forall foreign xs ->
     exit_refcount (store (glob s)) = exit_refcount (store g)).
Proof.
  intros s.
  assert (Hinv : hdlr_inv s) by (apply exec_inv, hdlr_inv_start).
  destruct Hinv as (Ho & _ & Htr).
  split; [exact Ho|].
  split; [by apply dumped_token_free|].
  split; [apply sent_from_token_free; [apply not_elem_of_nil|exact Htr]|].
  split; [apply event_free_exit_event|].
  split; [apply exit_refcount_queue_unref|].
  intros Hxs. subst s. rewrite exec_exit_refcount; [reflexivity|apply hdlr_inv_start|exact Hxs].
Qed.

Lemma exit_event_never_batched_witness :
  let g := set_events [Ptr 1; exit_event; Ptr 2] (init_plugin indented true three_events) in
  let a := {| a_now := 100; a_dumps := Some "[]"%string; a_publish := AMQP_STATUS_OK |} in
  let xs := [AHdlr a; AHdlr a; AHdlr a; AHdlr a; AIncoming (Ptr 3); AHdlr a; ADestroySignal] in
  exit_refcount (store (glob (exec (hdlr_start g) xs))) = 0.
Proof.
  intros g a xs.
  apply (exit_event_never_batched g xs).
  repeat constructor; discriminate.
Defined.

(** ** Failures of serialisation and publish *)

Lemma hdlr_step_same (a : answers) (s1 s2 : sys) :
  same_but_trace s1 s2 ->
  exists new,
    same_but_trace (hdlr_step a s1) (hdlr_step a s2) /\
    trace (hdlr_step a s1) = trace s1 ++ new /\
    trace (hdlr_step a s2) = trace s2 ++ new.
Proof.
  destruct s1 as [g t tr1], s2 as [g2 t2 tr2]. unfold same_but_trace. simpl.
  intros [<- <-]. unfold hdlr_step. simpl. destruct (h_pc t).
  - exists []. unfold hdlr_test. simpl. rewrite !app_nil_r.
    by destruct (initialized g && negb (stopping g)).
  - unfold hdlr_pop. simpl. destruct (events g) as [|p q].
    + exists []. by rewrite !app_nil_r.
    + exists [LPop p]. by destruct (decide (p = exit_event)).
  - exists (handled_after (a_now a) (h_event t) (store g)).
    unfold hdlr_collect. simpl. destruct (negb (group_events g)); [done|].
    by destruct (json_array_append_new _ _ _).
  - unfold hdlr_try_pop. simpl. destruct (g_async_queue_try_pop (events g)) as [p q].
    by exists [LTryPop p].
  - unfold hdlr_send. simpl.
    destruct (negb (stopping g)); [destruct (a_dumps a)|]; by eexists.
  - exists []. by rewrite !app_nil_r.
Qed.

Lemma act_same (x : action) (s1 s2 : sys) :
  same_but_trace s1 s2 ->
  exists new,
    same_but_trace (act s1 x) (act s2 x) /\
    trace (act s1 x) = trace s1 ++ new /\
    trace (act s2 x) = trace s2 ++ new.
Proof.
  intros Hsame. destruct x as [a|p|r| |]; simpl.
  - by apply hdlr_step_same.
  - exists []. rewrite !app_nil_r. destruct Hsame as [Hg Ht].
    unfold same_but_trace, with_glob. simpl. by rewrite Hg, Ht.
  - exists []. rewrite !app_nil_r. destruct Hsame as [Hg Ht].
    unfold same_but_trace, with_glob. simpl. by rewrite Hg, Ht.
  - exists []. rewrite !app_nil_r. destruct Hsame as [Hg Ht].
    unfold same_but_trace, with_glob. simpl. by rewrite Hg, Ht.
  - exists []. rewrite !app_nil_r. destruct Hsame as [Hg Ht].
    rewrite Ht. destruct (decide _); [|done].
    unfold same_but_trace, with_glob. simpl. by rewrite Hg, Ht.
Qed.

Lemma exec_same (xs : list action) (s1 s2 : sys) :
  same_but_trace s1 s2 ->
  exists new,
    same_but_trace (exec s1 xs) (exec s2 xs) /\
    trace (exec s1 xs) = trace s1 ++ new /\
    trace (exec s2 xs) = trace s2 ++ new.
Proof.
  revert s1 s2. induction xs as [|x xs IH]; intros s1 s2 Hsame; simpl.
  - exists []. by rewrite !app_nil_r.
  - destruct (act_same x s1 s2 Hsame) as (n1 & Hs & H1 & H2).
    destruct (IH _ _ Hs) as (n2 & Hs' & H1' & H2').
    exists (n1 ++ n2). rewrite H1', H2', H1, H2, !app_assoc. done.
Qed.

(** The thread takes items from the queue and never puts one back. *)
Lemma hdlr_step_only_removes (a : answers) (s : sys) :
  exists k, events (glob (hdlr_step a s)) = drop k (events (glob s)).
Proof.
  unfold hdlr_step. destruct (h_pc (thr s)).
  - exists 0%nat. unfold hdlr_test. by destruct (_ && _).
  - unfold hdlr_pop. destruct (events (glob s)) as [|p q] eqn:Hq.
    + exists 0%nat. by rewrite Hq.
    + exists 1%nat. by destruct (decide (p = exit_event)).
  - exists 0%nat. unfold hdlr_collect.
    destruct (negb (group_events (glob s))); [done|].
    by destruct (json_array_append_new _ _ _).
  - unfold hdlr_try_pop. destruct (events (glob s)) as [|p q]; simpl.
    + by exists 0%nat.
    + by exists 1%nat.
  - exists 0%nat. unfold hdlr_send.
    by destruct (negb (stopping (glob s))); [destruct (a_dumps a)|].
  - by exists 0%nat.
Qed.

(** The thread leaves its loop at the loop test or on popping the token,
    and nowhere else. *)
Lemma hdlr_step_leaves (a : answers) (s : sys) :
  h_pc (thr (hdlr_step a s)) = L630 ->
  h_pc (thr s) = L630 \/
  (h_pc (thr s) = L567 /\ initialized (glob s) && negb (stopping (glob s)) = false) \/
  (h_pc (thr s) = L569 /\ exists q, events (glob s) = exit_event :: q).
Proof.
  unfold hdlr_step. destruct (h_pc (thr s)) eqn:Hpc.
  - unfold hdlr_test. destruct (_ && _); simpl; [discriminate|]. intros _. right. by left.
  - unfold hdlr_pop. destruct (events (glob s)) as [|p q]; [congruence|].
    destruct (decide (p = exit_event)) as [->|]; simpl; [|discriminate].
    intros _. right. right. split; [done|]. by exists q.
  - unfold hdlr_collect. destruct (negb _); simpl; [discriminate|].
    destruct (json_array_append_new _ _ _). simpl.
    destruct (_ =? _); discriminate.
  - unfold hdlr_try_pop. destruct (g_async_queue_try_pop _) as [p q]. simpl.
    destruct (decide (p = NULL)); [discriminate|].
    destruct (decide (p = exit_event)); discriminate.
  - unfold hdlr_send.
    destruct (negb (stopping (glob s))); [destruct (a_dumps a)|]; discriminate.
  - by left.
Qed.

(** C1. At the send block of a thread that is not stopping, let the
    serialisation fail or the publish return an error. Then the step ends
    at the loop test like any other, with the batch released and [output]
    cleared; the queue is as it was, so nothing of the batch is queued
    again; globals and locals are exactly those a successful send leaves,
    and every later execution runs as it would after a success, with the
    same effects from there on; the trace shows one [json_dumps], the
    warning and no publish when serialisation failed, and one publish with
    its error line and no second attempt when the publish failed; the loop
    test lets a running thread go on to the next blocking pop. On the
    whole, the thread never puts an item into the queue, and it leaves its
    loop only at the loop test on the flags or on popping the token: no
    answer of the outside makes it leave. *)
Theorem failed_batch_is_dropped (a : answers) (s : sys) :
  h_pc (thr s) = L601 -> stopping (glob s) = false ->
  a_dumps a = None \/ a_publish a <> AMQP_STATUS_OK ->
  let s' := hdlr_step a s in
  let o := h_output (thr s) in
  h_pc (thr s') = L567 /\
  h_output (thr s') = ONull /\
  events (glob s') = events (glob s) /\
  store (glob s') = json_decref_output o (store (glob s)) /\
  (forall a_ok, same_but_trace s' (hdlr_step a_ok s)) /\
  (forall a_ok xs, exists new,
     same_but_trace (exec s' xs) (exec (hdlr_step a_ok s) xs) /\
     trace (exec s' xs) = trace s' ++ new /\
     trace (exec (hdlr_step a_ok s) xs) = trace (hdlr_step a_ok s) ++ new) /\
  (a_dumps a = None ->
     trace s' = trace s ++ [LDumps o (json_format (glob s)); LStringifyFailed; LDecref o]) /\
  (forall text, a_dumps a = Some text ->
     trace s' = trace s ++
       [LDumps o (json_format (glob s)); LLock; LPublish "application/json" text;
        LPublishError (a_publish a); LUnlock; LDecref o]) /\
  (initialized (glob s) = true -> forall a', h_pc (thr (hdlr_step a' s')) = L569) /\
  (forall a' t, exists k, events (glob (hdlr_step a' t)) = drop k (events (glob t))) /\
  (forall a' t, h_pc (thr (hdlr_step a' t)) = L630 ->
     h_pc (thr t) = L630 \/
     (h_pc (thr t) = L567 /\ initialized (glob t) && negb (stopping (glob t)) = false) \/
     (h_pc (thr t) = L569 /\ exists q, events (glob t) = exit_event :: q)).
Proof.
  intros Hpc Hstop Hfail s' o.
  assert (Hsame : forall a_ok, same_but_trace s' (hdlr_step a_ok s)).
  { intros a_ok. subst s'. unfold hdlr_step. rewrite Hpc. unfold hdlr_send.
    rewrite Hstop. simpl. by destruct (a_dumps a), (a_dumps a_ok). }
  assert (Hs' : s' = hdlr_send a s) by (subst s'; unfold hdlr_step; by rewrite Hpc).
  assert (Hshape : h_pc (thr s') = L567 /\ h_output (thr s') = ONull /\
                   events (glob s') = events (glob s) /\
                   store (glob s') = json_decref_output o (store (glob s)) /\
                   stopping (glob s') = false /\
                   initialized (glob s') = initialized (glob s)).
  { rewrite Hs'. unfold hdlr_send. rewrite Hstop. simpl. by destruct (a_dumps a). }
  destruct Hshape as (H1 & H2 & H3 & H4 & H5 & H6).
  split; [exact H1|]. split; [exact H2|]. split; [exact H3|]. split; [exact H4|].
  split; [exact Hsame|].
  split; [intros a_ok xs; apply exec_same, Hsame|].
  split.
  { intros Hd. rewrite Hs'. unfold hdlr_send. by rewrite Hstop, Hd. }
  split.
  { intros text Hd. destruct Hfail as [Hnone|Hpub]; [congruence|].
    rewrite Hs'. unfold hdlr_send. rewrite Hstop, Hd. simpl.
    destruct (Z.eqb_spec (a_publish a) AMQP_STATUS_OK); [contradiction|done]. }
  split.
  { intros Hinit a'. unfold hdlr_step. rewrite H1. unfold hdlr_test.
    by rewrite H6, Hinit, H5. }
  split; [intros a' t; apply hdlr_step_only_removes|].
  intros a' t. apply hdlr_step_leaves.
Qed.

Lemma failed_batch_is_dropped_witness :
  let s' := hdlr_step publish_fails before_send in
  h_pc (thr s') = L567 /\ h_output (thr s') = ONull /\ events (glob s') = [].
Proof.
  intros s'.
  destruct (failed_batch_is_dropped publish_fails before_send) as (H1 & H2 & H3 & _).
  - reflexivity.
  - reflexivity.
  - right. discriminate.
  - split; [exact H1|]. split; [exact H2|exact H3].
Defined.

(** Scenario C: the publish of the first batch fails, a second event comes
    in, and it is serialised and published like any other. The failed body
    went out once and is not sent again. *)
Example publish_failure_then_next_event :
  let s := exec before_send
             [AHdlr publish_fails; AIncoming (Ptr 2); AHdlr all_well; AHdlr all_well;
              AHdlr all_well; AHdlr all_well; AHdlr all_well] in
  trace s =
    [LPop (Ptr 1); LHandledAfter 90; LTryPop NULL;
     LDumps (OArray [Ptr 1]) indented; LLock; LPublish "application/json" "text";
     LPublishError (-7); LUnlock; LDecref (OArray [Ptr 1]);
     LPop (Ptr 2); LHandledAfter 80; LTryPop NULL;
     LDumps (OArray [Ptr 2]) indented; LLock; LPublish "application/json" "text";
     LUnlock; LDecref (OArray [Ptr 2])] /\
  published (trace s) = ["text"%string; "text"%string] /\
  h_pc (thr s) = L567.
Proof. vm_compute. repeat split; reflexivity. Qed.

(** The same with a serialisation that fails: nothing is published for the
    first batch, the second goes out. *)
Example dumps_failure_then_next_event :
  let s := exec before_send
             [AHdlr dumps_fails; AIncoming (Ptr 2); AHdlr all_well; AHdlr all_well;
              AHdlr all_well; AHdlr all_well; AHdlr all_well] in
  sent (trace s) = [(OArray [Ptr 2], "text"%string)] /\
  published (trace s) = ["text"%string] /\
  dumped (trace s) = [OArray [Ptr 1]; OArray [Ptr 2]] /\
  h_pc (thr s) = L567.
Proof. vm_compute. repeat split; reflexivity. Qed.

(** ** Collecting a batch *)

Lemma collect_grouped (a : answers) (n : nat) :
  forall (s : sys) (acc : list jptr) (e : positive),
  h_pc (thr s) = L575 -> group_events (glob s) = true ->
  h_event (thr s) = Ptr e ->
  match h_output (thr s) with ONull => OArray [] | o' => o' end = OArray acc ->
  h_count (thr s) = Z.of_nat (length acc) ->
  h_max (thr s) = Z.of_nat (length acc) + 1 + Z.of_nat n ->
  exists k,
    let s' := hdlr_run k a s in
    h_pc (thr s') = L601 /\
    h_output (thr s') = OArray (acc ++ Ptr e :: (drain n (events (glob s))).1) /\
    glob s' = set_events (drain n (events (glob s))).2 (glob s) /\
    h_max (thr s') = h_max (thr s).
Proof.
  induction n as [|n IH]; intros [g [pc ev o c mx] tr] acc e; simpl;
    intros -> Hgrp -> Ho -> ->.
  - exists 1%nat. simpl. unfold hdlr_step, hdlr_collect. simpl.
    rewrite Hgrp, Ho. simpl.
    destruct (_ =? _) eqn:E; [|apply Z.eqb_neq in E; lia].
    destruct g; simpl. done.
  - set (s1 := hdlr_step a {| glob := g; thr := {| h_pc := L575; h_event := Ptr e; h_output := o;
        h_count := Z.of_nat (length acc); h_max := Z.of_nat (length acc) + 1 + Z.of_nat (S n) |}; trace := tr |}).
    assert (H1 : h_pc (thr s1) = L596 /\ h_output (thr s1) = OArray (acc ++ [Ptr e]) /\
                 glob s1 = g /\ h_count (thr s1) = Z.of_nat (length acc) + 1 /\
                 h_max (thr s1) = Z.of_nat (length acc) + 1 + Z.of_nat (S n)).
    { subst s1. unfold hdlr_step, hdlr_collect. simpl. rewrite Hgrp, Ho. simpl.
      destruct (_ =? _) eqn:E; [apply Z.eqb_eq in E; lia|].
      destruct g; simpl. done. }
    destruct H1 as (Hpc1 & Ho1 & Hg1 & Hc1 & Hm1).
    destruct (events g) as [|p q] eqn:Hq.
    + exists 2%nat. simpl. fold s1. unfold hdlr_step. rewrite Hpc1.
      unfold hdlr_try_pop. rewrite Hg1, Hq. simpl. rewrite Ho1, Hm1. done.
    + destruct p as [| |e'].
      * exists 2%nat. simpl. fold s1. unfold hdlr_step. rewrite Hpc1.
        unfold hdlr_try_pop. rewrite Hg1, Hq. simpl. rewrite Ho1, Hm1. done.
      * exists 2%nat. simpl. fold s1. unfold hdlr_step. rewrite Hpc1.
        unfold hdlr_try_pop. rewrite Hg1, Hq. simpl. rewrite Ho1, Hm1. done.
      * set (s2 := hdlr_step a s1).
        assert (H2 : h_pc (thr s2) = L575 /\ h_event (thr s2) = Ptr e' /\
                     h_output (thr s2) = OArray (acc ++ [Ptr e]) /\
                     glob s2 = set_events q g /\
                     h_count (thr s2) = Z.of_nat (length acc) + 1 /\
                     h_max (thr s2) = Z.of_nat (length acc) + 1 + Z.of_nat (S n)).
        { subst s2. unfold hdlr_step. rewrite Hpc1. unfold hdlr_try_pop.
          rewrite Hg1, Hq. simpl. rewrite Ho1, Hm1, Hc1. done. }
        destruct H2 as (Hpc2 & He2 & Ho2 & Hg2 & Hc2 & Hm2).
        destruct (IH s2 (acc ++ [Ptr e]) e') as (k & Hk1 & Hk2 & Hk3 & Hk4).
        { exact Hpc2. }
        { rewrite Hg2. destruct g; exact Hgrp. }
        { exact He2. }
        { by rewrite Ho2. }
        { rewrite Hc2, length_app. simpl. lia. }
        { rewrite Hm2, length_app. simpl. lia. }
        exists (S (S k)). simpl. fold s1. fold s2.
        rewrite Hk1, Hk2, Hk3, Hk4, Hg2, Hm2. simpl.
        destruct (drain n q) as [b r]. simpl. rewrite <- app_assoc. simpl.
        destruct g; done.
Qed.

Lemma drain_length (n : nat) (q : list jptr) : (length (drain n q).1 <= n)%nat.
Proof.
  revert q. induction n as [|n IH]; intros q; simpl; [lia|].
  destruct q as [|p q]; simpl; [lia|].
  destruct (is_event p); simpl; [|lia].
  specialize (IH q). destruct (drain n q) as [b r]. simpl in *. lia.
Qed.

(** What is taken is a front part of the queue, in queue order. *)
Lemma drain_prefix (n : nat) (q : list jptr) :
  exists rest, q = (drain n q).1 ++ rest.
Proof.
  revert q. induction n as [|n IH]; intros q; simpl; [by exists q|].
  destruct q as [|p q]; simpl; [by exists []|].
  destruct (is_event p); simpl; [|by eexists].
  destruct (IH q) as [rest Hrest]. destruct (drain n q) as [b r]. simpl in *.
  exists rest. by rewrite <- Hrest.
Qed.

Lemma drain_events (n : nat) (q : list jptr) :
  Forall (fun p => is_event p = true) (drain n q).1.
Proof.
  revert q. induction n as [|n IH]; intros q; simpl; [constructor|].
  destruct q as [|p q]; simpl; [constructor|].
  destruct (is_event p) eqn:Hp; simpl; [|constructor].
  specialize (IH q). destruct (drain n q) as [b r]. simpl in *. by constructor.
Qed.

(** With enough events at the front, exactly [n] are taken and the rest
    stays queued. *)
Lemma drain_full (es rest : list jptr) :
  Forall (fun p => is_event p = true) es ->
  drain (length es) (es ++ rest) = (es, rest).
Proof.
  induction es as [|p es IH]; intros Hes; simpl; [reflexivity|].
  apply Forall_cons in Hes as [Hp Hes]. rewrite Hp, IH by assumption. reflexivity.
Qed.

(** One turn of the outer loop with grouping on, from the blocking pop to
    the send block. *)
Lemma grouped_iteration (a : answers) (s : sys) (e : positive) (q : list jptr) (n : nat) :
  h_pc (thr s) = L569 -> group_events (glob s) = true ->
  events (glob s) = Ptr e :: q ->
  h_max (thr s) = 1 + Z.of_nat n ->
  exists k,
    let s' := hdlr_run k a s in
    h_pc (thr s') = L601 /\
    h_output (thr s') = OArray (Ptr e :: (drain n q).1) /\
    glob s' = set_events (drain n q).2 (glob s) /\
    h_max (thr s') = h_max (thr s).
Proof.
  intros Hpc Hgrp Hq Hmax.
  set (s1 := hdlr_step a s).
  assert (H1 : h_pc (thr s1) = L575 /\ h_event (thr s1) = Ptr e /\
               h_output (thr s1) = ONull /\ h_count (thr s1) = 0 /\
               h_max (thr s1) = h_max (thr s) /\ glob s1 = set_events q (glob s)).
  { subst s1. unfold hdlr_step. rewrite Hpc. unfold hdlr_pop. rewrite Hq. done. }
  destruct H1 as (Hpc1 & He1 & Ho1 & Hc1 & Hm1 & Hg1).
  destruct (collect_grouped a n s1 [] e) as (k & Hk1 & Hk2 & Hk3 & Hk4).
  - exact Hpc1.
  - rewrite Hg1. destruct (glob s); exact Hgrp.
  - exact He1.
  - by rewrite Ho1.
  - exact Hc1.
  - rewrite Hm1, Hmax. simpl. lia.
  - exists (S k). simpl. fold s1. rewrite Hk1, Hk2, Hk3, Hk4, Hg1, Hm1. simpl.
    repeat split.
Qed.

(** The same with grouping off: the batch is the popped event. *)
Lemma single_iteration (a : answers) (s : sys) (e : positive) (q : list jptr) :
  h_pc (thr s) = L569 -> group_events (glob s) = false ->
  events (glob s) = Ptr e :: q ->
  let s' := hdlr_run 2 a s in
  h_pc (thr s') = L601 /\
  h_output (thr s') = OEvent (Ptr e) /\
  glob s' = set_events q (glob s) /\
  h_max (thr s') = h_max (thr s).
Proof.
  intros Hpc Hgrp Hq s'.
  set (s1 := hdlr_step a s).
  assert (H1 : h_pc (thr s1) = L575 /\ h_event (thr s1) = Ptr e /\
               h_max (thr s1) = h_max (thr s) /\ glob s1 = set_events q (glob s)).
  { subst s1. unfold hdlr_step. rewrite Hpc. unfold hdlr_pop. rewrite Hq. done. }
  destruct H1 as (Hpc1 & He1 & Hm1 & Hg1).
  assert (Hs' : s' = hdlr_collect a s1).
  { subst s'. simpl. fold s1. unfold hdlr_step. by rewrite Hpc1. }
  rewrite Hs'. unfold hdlr_collect. rewrite Hg1, He1, Hm1.
  destruct (glob s); simpl in *. rewrite Hgrp. simpl. done.
Qed.

(** The send block hands [output] to [json_dumps] with the configured
    flags, whatever they are. *)
Lemma send_dumps_output (a : answers) (s : sys) :
  h_pc (thr s) = L601 -> stopping (glob s) = false ->
  exists rest,
    trace (hdlr_step a s) =
      trace s ++ LDumps (h_output (thr s)) (json_format (glob s)) :: rest /\
    dumped rest = [].
Proof.
  intros Hpc Hstop. unfold hdlr_step. rewrite Hpc. unfold hdlr_send.
  rewrite Hstop. simpl. destruct (a_dumps a); [|by eexists].
  destruct (a_publish a =? AMQP_STATUS_OK); by eexists.
Qed.

(** A running plugin obeys the request. *)
Lemma tweak_grouping_sets (b : bool) (g : plugin) :
  initialized g = true -> stopping g = false ->
  tweak (tweak_grouping b) g = set_group_events b g.
Proof.
  intros Hi Hs. unfold tweak, janus_rabbitmqevh_handle_request.
  rewrite Hi, Hs. simpl. by destruct b.
Qed.

(** Every configured formatting mode keeps the insertion order of keys. *)
Lemma json_format_preserves_order (v : string) :
  Z.land (json_format_of v) JSON_PRESERVE_ORDER = JSON_PRESERVE_ORDER.
Proof.
  unfold json_format_of.
  destruct (strcaseeq v "indented"); [reflexivity|].
  destruct (strcaseeq v "plain"); [reflexivity|].
  destruct (strcaseeq v "compact"); reflexivity.
Qed.

Lemma hdlr_step_max (a : answers) (s : sys) :
  h_max (thr (hdlr_step a s)) = h_max (thr s).
Proof.
  unfold hdlr_step. destruct (h_pc (thr s)); try reflexivity.
  - unfold hdlr_test. by destruct (_ && _).
  - unfold hdlr_pop. destruct (events (glob s)) as [|p q]; [reflexivity|].
    by destruct (decide (p = exit_event)).
  - unfold hdlr_collect. destruct (negb _); [reflexivity|].
    by destruct (json_array_append_new _ _ _).
  - unfold hdlr_try_pop. by destruct (g_async_queue_try_pop _).
  - unfold hdlr_send. by destruct (negb _); [destruct (a_dumps a)|].
Qed.

(** [max] is what it was when the thread started, whatever happens. *)
Lemma exec_max (xs : list action) (s : sys) :
  h_max (thr (exec s xs)) = h_max (thr s).
Proof.
  revert s. induction xs as [|x xs IH]; intros s; simpl; [reflexivity|].
  rewrite IH. destruct x; simpl; try reflexivity.
  - apply hdlr_step_max.
  - by destruct (decide _).
Qed.

(** ** Batch sizes *)

(** X16. A thread started with grouping on, grouping still on, at least a
    hundred events queued: the batch is the first hundred, in queue order,
    and the 101st item is the head of the queue for the next pop. *)
Lemma batch_of_hundred (a : answers) (g : plugin) (xs : list action)
    (e : positive) (es rest : list jptr) :
  group_events g = true ->
  let s := exec (hdlr_start g) xs in
  h_pc (thr s) = L569 -> group_events (glob s) = true ->
  events (glob s) = Ptr e :: es ++ rest ->
  length es = 99%nat -> Forall (fun p => is_event p = true) es ->
  exists k,
    let s' := hdlr_run k a s in
    h_pc (thr s') = L601 /\
    batch_of (h_output (thr s')) = Ptr e :: es /\
    length (batch_of (h_output (thr s'))) = 100%nat /\
    events (glob s') = rest.
Proof.
  intros Hg s Hpc Hgrp Hq Hlen Hes.
  destruct (grouped_iteration a s e (es ++ rest) 99) as (k & H1 & H2 & H3 & _);
    try assumption.
  { subst s. rewrite exec_max. simpl. by rewrite Hg. }
  exists k. simpl. rewrite H1, H2, H3. rewrite <- Hlen, drain_full by assumption.
  simpl. rewrite Hlen. done.
Qed.

(** With grouping on no batch of a turn exceeds [max], whatever is queued. *)
Lemma batch_at_most_max (a : answers) (s : sys) (e : positive) (q : list jptr) (n : nat) :
  h_pc (thr s) = L569 -> group_events (glob s) = true ->
  events (glob s) = Ptr e :: q -> h_max (thr s) = 1 + Z.of_nat n ->
  exists k,
    let s' := hdlr_run k a s in
    h_pc (thr s') = L601 /\
    (1 <= length (batch_of (h_output (thr s'))) <= S n)%nat.
Proof.
  intros Hpc Hgrp Hq Hmax.
  destruct (grouped_iteration a s e q n) as (k & H1 & H2 & _); try assumption.
  exists k. simpl. rewrite H1, H2. simpl.
  pose proof (drain_length n q). split; [done|lia].
Qed.

Lemma dumped_app (l1 l2 : list label) : dumped (l1 ++ l2) = dumped l1 ++ dumped l2.
Proof. apply omap_app. Qed.

Lemma dumped_handled_after (now : Z) (p : jptr) (m : jstore) :
  dumped (handled_after now p m) = [].
Proof.
  unfold handled_after. destruct (json_object_get _ _) as [c|]; [|reflexivity].
  by destruct (json_is_integer c).
Qed.

Lemma push_keeps_no_null (q : list jptr) (p : jptr) :
  NULL ∉ q -> NULL ∉ g_async_queue_push q p.
Proof.
  intros Hq. destruct p; simpl; [exact Hq| |];
    (intros [H|H]%elem_of_app; [by apply Hq|]);
    apply list_elem_of_singleton in H; discriminate.
Qed.

Lemma size_inv_start (g : plugin) : NULL ∉ events g -> size_inv (hdlr_start g).
Proof.
  intros Hq. unfold size_inv. simpl. repeat split.
  - destruct (group_events g); [by right|by left].
  - exact Hq.
  - constructor.
Qed.

Lemma hdlr_step_size_inv (a : answers) (s : sys) :
  size_inv s -> size_inv (hdlr_step a s).
Proof.
  intros (Hmax & Hq & Hpc & Htr). unfold hdlr_step, size_inv.
  destruct (h_pc (thr s)) eqn:Epc.
  - unfold hdlr_test. destruct (_ && _); simpl; done.
  - unfold hdlr_pop. destruct (events (glob s)) as [|p q] eqn:Eq.
    { rewrite Epc, Eq. done. }
    apply not_elem_of_cons in Hq as [Hp Hq].
    destruct (decide (p = exit_event)) as [->|Hne]; simpl.
    + rewrite dumped_app, app_nil_r. done.
    + rewrite dumped_app, app_nil_r. repeat split; try done.
      * destruct p; simpl; congruence.
      * by left.
  - destruct Hpc as [Hev Hout]. unfold hdlr_collect.
    destruct (h_event (thr s)) as [| |e] eqn:Ee; try discriminate.
    destruct (negb (group_events (glob s))); simpl.
    + rewrite dumped_app, dumped_handled_after, app_nil_r. repeat split; try done; lia.
    + assert (Happ : exists l,
                match h_output (thr s) with ONull => OArray [] | o' => o' end = OArray l /\
                h_count (thr s) = Z.of_nat (length l) /\
                h_count (thr s) < h_max (thr s)).
      { destruct Hout as [[-> ->]|(l & -> & Hc & Hlt)].
        - exists []. repeat split. lia.
        - by exists l. }
      destruct Happ as (l & -> & Hc & Hlt). simpl.
      rewrite dumped_app, dumped_handled_after, app_nil_r.
      split; [exact Hmax|]. split; [exact Hq|]. split; [|exact Htr].
      destruct (Z.eqb_spec (h_count (thr s) + 1) (h_max (thr s))) as [Heq|Hneq]; simpl.
      * rewrite length_app. simpl. lia.
      * exists (l ++ [Ptr e]). rewrite length_app. simpl.
        repeat split; [by destruct l|lia|lia].
  - destruct Hpc as (l & Ho & Hl & Hc & Hlt). unfold hdlr_try_pop.
    destruct (events (glob s)) as [|p q] eqn:Eq; simpl.
    + rewrite dumped_app, app_nil_r, Ho. simpl.
      repeat split; try done; [by destruct l; [|simpl; lia]|lia].
    + apply not_elem_of_cons in Hq as [Hp Hq].
      rewrite dumped_app, app_nil_r.
      split; [exact Hmax|]. split; [exact Hq|]. split; [|exact Htr].
      destruct (decide (p = NULL)) as [->|_]; [done|].
      destruct (decide (p = exit_event)) as [->|Hne]; simpl.
      * rewrite Ho. simpl. split; [by destruct l; [|simpl; lia]|lia].
      * split; [destruct p; simpl; congruence|]. right. by exists l.
  - unfold hdlr_send.
    assert (Hnew : Forall (fun o => (1 <= length (batch_of o) <= 100)%nat)
                     (dumped (trace s) ++ [h_output (thr s)])).
    { apply Forall_app. split; [exact Htr|]. apply Forall_cons. split; [exact Hpc|constructor]. }
    destruct (negb (stopping (glob s))); [destruct (a_dumps a)|]; simpl;
      rewrite dumped_app; simpl;
      (split; [exact Hmax|]); (split; [exact Hq|]); (split; [exact I|]).
    + by destruct (a_publish a =? AMQP_STATUS_OK).
    + exact Hnew.
    + by rewrite app_nil_r.
  - rewrite Epc. done.
Qed.

Lemma act_size_inv (s : sys) (x : action) : size_inv s -> size_inv (act s x).
Proof.
  intros Hinv. destruct x as [a|p|r| |]; simpl.
  - by apply hdlr_step_size_inv.
  - destruct Hinv as (Hmax & Hq & Hpc & Htr). unfold size_inv, with_glob. simpl.
    split; [exact Hmax|]. split; [|by split].
    unfold janus_rabbitmqevh_incoming_event.
    destruct (_ || _); [exact Hq|]. simpl. by apply push_keeps_no_null.
  - destruct Hinv as (Hmax & Hq & Hpc & Htr). unfold size_inv, with_glob. simpl.
    rewrite tweak_events. done.
  - destruct Hinv as (Hmax & Hq & Hpc & Htr). unfold size_inv, with_glob. simpl.
    split; [exact Hmax|]. split; [|by split].
    unfold destroy_signal. destruct (negb _); [exact Hq|].
    exact (push_keeps_no_null (events (glob s)) exit_event Hq).
  - destruct (decide _); [|exact Hinv].
    destruct Hinv as (Hmax & Hq & Hpc & Htr). unfold size_inv, with_glob. simpl.
    split; [exact Hmax|]. split; [|by split].
    unfold destroy_finish. destruct (negb _); [exact Hq|]. simpl. apply not_elem_of_nil.
Qed.

(** X15. In every execution, whatever the Admin API does to the flag, a
    value given to [json_dumps] holds at least one event and at most a
    hundred. *)
Lemma batch_sizes_in_every_execution (g : plugin) (xs : list action) :
  NULL ∉ events g ->
  Forall (fun o => (1 <= length (batch_of o) <= 100)%nat)
    (dumped (trace (exec (hdlr_start g) xs))).
Proof.
  intros Hq.
  assert (Hinv : size_inv (exec (hdlr_start g) xs)).
  { generalize (size_inv_start g Hq). generalize (hdlr_start g).
    induction xs as [|x xs IH]; intros s Hs; simpl; [exact Hs|].
    apply IH. by apply act_size_inv. }
  by destruct Hinv as (_ & _ & _ & Htr).
Qed.

(** C2. Configured without grouping, the thread starts with [max] at 1.
    Grouping is then enabled through the Admin API, and a hundred events
    are queued while the thread waits. The next batch is the first event
    alone, in an array, and ninety-nine events stay queued. *)
Theorem enabled_at_runtime_batch_of_hundred :
  let s := hdlr_run 2 all_well enabled_at_runtime in
  group_events (glob enabled_at_runtime) = true /\
  h_pc (thr enabled_at_runtime) = L569 /\
  events (glob enabled_at_runtime) = map Ptr hundred /\
  length (events (glob enabled_at_runtime)) = 100%nat /\
  h_max (thr enabled_at_runtime) = 1 /\
  h_pc (thr s) = L601 /\
  h_output (thr s) = OArray [Ptr 1] /\
  length (events (glob s)) = 99%nat.
Proof. vm_compute. repeat split; reflexivity. Qed.

(** C9. Configured without grouping and told to group at run time, the
    thread sends three queued events as three arrays of one event each:
    the flag is on, but [max] is still the 1 computed when the thread
    started. Started with grouping on, the same three events go out as one
    array. *)
Theorem enabled_at_runtime_never_groups :
  let s := hdlr_run 12 all_well enabled_at_runtime_three in
  group_events (glob s) = true /\
  h_max (thr s) = 1 /\
  events (glob s) = [] /\
  dumped (trace s) = [OArray [Ptr 1]; OArray [Ptr 2]; OArray [Ptr 3]] /\
  dumped (trace (hdlr_run 12 all_well
     (exec started_grouping [AIncoming (Ptr 1); AIncoming (Ptr 2); AIncoming (Ptr 3)])))
    = [OArray [Ptr 1; Ptr 2; Ptr 3]].
Proof. vm_compute. repeat split; reflexivity. Qed.

(** The defect in general: a thread started without grouping never takes
    more than one event into a batch, however many are queued and whatever
    the flag says later. *)
Lemma started_ungrouped_takes_one (a : answers) (g : plugin) (xs : list action)
    (e : positive) (q : list jptr) :
  group_events g = false ->
  let s := exec (hdlr_start g) xs in
  h_pc (thr s) = L569 -> group_events (glob s) = true ->
  events (glob s) = Ptr e :: q ->
  exists k,
    let s' := hdlr_run k a s in
    h_pc (thr s') = L601 /\ h_output (thr s') = OArray [Ptr e] /\ events (glob s') = q.
Proof.
  intros Hg s Hpc Hgrp Hq.
  destruct (grouped_iteration a s e q 0) as (k & H1 & H2 & H3 & _); try assumption.
  { subst s. rewrite exec_max. simpl. by rewrite Hg. }
  exists k. simpl. rewrite H1, H2, H3. done.
Qed.

(** X17. Disabling at run time does take effect: with the flag off a batch
    is the popped event alone, whatever [max] is. *)
Lemma disabled_at_runtime_takes_one (a : answers) (s : sys) (e : positive) (q : list jptr) :
  initialized (glob s) = true -> stopping (glob s) = false ->
  h_pc (thr s) = L569 -> events (glob s) = Ptr e :: q ->
  let s' := hdlr_run 2 a (act s (ARequest (tweak_grouping false))) in
  h_pc (thr s') = L601 /\ h_output (thr s') = OEvent (Ptr e) /\ events (glob s') = q.
Proof.
  intros Hi Hs Hpc Hq s'.
  destruct (single_iteration a (act s (ARequest (tweak_grouping false))) e q)
    as (H1 & H2 & H3 & _).
  - exact Hpc.
  - simpl. by rewrite tweak_grouping_sets.
  - simpl. by rewrite tweak_events.
  - split; [exact H1|]. split; [exact H2|]. unfold s'. by rewrite H3.
Qed.

(** ** What is serialised *)

(** C3, as the code has it. The form of what is serialised follows the
    grouping flag, not the size of the batch. With grouping off the batch
    is the popped event and [json_dumps] is given that event itself, so
    the text is that of one JSON value, the event's object. With grouping
    on the batch is the popped event followed by what the non-blocking
    pops yield, and [json_dumps] is given an array of exactly these events
    in queue order; this is so for a batch of one event too. Either way
    the batch is a front part of the queue as it stood, and the value goes
    to [json_dumps] with the configured flags, whichever they are. *)
Theorem batch_serialised_by_grouping (a : answers) (s : sys) (e : positive)
    (q : list jptr) (n : nat) :
  h_pc (thr s) = L569 -> events (glob s) = Ptr e :: q ->
  stopping (glob s) = false -> h_max (thr s) = 1 + Z.of_nat n ->
  exists k batch,
    let s1 := hdlr_run k a s in
    let m := store (glob s1) in
    h_pc (thr s1) = L601 /\
    batch_of (h_output (thr s1)) = batch /\
    (exists rest, Ptr e :: q = batch ++ rest) /\
    (group_events (glob s) = false ->
       batch = [Ptr e] /\ h_output (thr s1) = OEvent (Ptr e) /\
       output_value (h_output (thr s1)) m = deref (Ptr e) m) /\
    (group_events (glob s) = true ->
       batch = Ptr e :: (drain n q).1 /\ h_output (thr s1) = OArray batch /\
       output_value (h_output (thr s1)) m
         = Some (JArray (omap (fun p => deref p m) batch))) /\
    (exists rest,
       trace (hdlr_step a s1)
         = trace s1 ++ LDumps (h_output (thr s1)) (json_format (glob s)) :: rest /\
       dumped rest = []).
Proof.
  intros Hpc Hq Hstop Hmax.
  destruct (group_events (glob s)) eqn:Hgrp.
  - destruct (grouped_iteration a s e q n) as (k & H1 & H2 & H3 & _); try assumption.
    exists k, (Ptr e :: (drain n q).1). simpl. rewrite H2. simpl.
    split; [exact H1|]. split; [reflexivity|].
    split.
    { destruct (drain_prefix n q) as [rest Hrest]. exists rest. simpl. by rewrite <- Hrest. }
    split; [discriminate|]. split; [done|].
    destruct (send_dumps_output a (hdlr_run k a s)) as (rest & Hr1 & Hr2).
    + exact H1.
    + rewrite H3. exact Hstop.
    + exists rest. rewrite Hr1, H2, H3. done.
  - destruct (single_iteration a s e q) as (H1 & H2 & H3 & _); try assumption.
    exists 2%nat, [Ptr e]. cbv zeta. rewrite H2.
    split; [exact H1|]. split; [reflexivity|].
    split; [by exists q|]. split; [done|]. split; [discriminate|].
    destruct (send_dumps_output a (hdlr_run 2 a s)) as (rest & Hr1 & Hr2).
    + exact H1.
    + rewrite H3. exact Hstop.
    + exists rest. rewrite Hr1, H2, H3. done.
Qed.

Lemma batch_serialised_by_grouping_witness :
  exists k,
    let s1 := hdlr_run k all_well
                (exec started_grouping [AIncoming (Ptr 1); AIncoming (Ptr 2)]) in
    h_pc (thr s1) = L601 /\ h_output (thr s1) = OArray [Ptr 1; Ptr 2].
Proof.
  destruct (batch_serialised_by_grouping all_well
              (exec started_grouping [AIncoming (Ptr 1); AIncoming (Ptr 2)])
              1 [Ptr 2] 99)
    as (k & batch & H1 & _ & _ & _ & H2 & _).
  - reflexivity.
  - reflexivity.
  - reflexivity.
  - reflexivity.
  - exists k. split; [exact H1|]. destruct (H2 eq_refl) as (-> & -> & _). reflexivity.
Defined.

(** C3 as stated fails: with grouping on and one event queued, the batch is
    exactly one event, and what is serialised is an array holding the
    event's object, not the object. *)
Lemma one_event_grouped_is_an_array :
  let s := hdlr_step all_well before_send in
  let m := store (glob before_send) in
  group_events (glob before_send) = true /\
  dumped (trace s) = [OArray [Ptr 1]] /\
  length (batch_of (OArray [Ptr 1])) = 1%nat /\
  output_value (OArray [Ptr 1]) m
    = Some (JArray [JObject [("timestamp"%string, JInteger 10)]]) /\
  deref (Ptr 1) m = Some (JObject [("timestamp"%string, JInteger 10)]) /\
  output_value (OArray [Ptr 1]) m <> deref (Ptr 1) m.
Proof. vm_compute. repeat split; try reflexivity. discriminate. Qed.

(** Scenarios A and B: three events with grouping on go out once, as one
    array of the three; one event with grouping off goes out bare. *)
Example three_grouped_one_array :
  let s := hdlr_run 12 all_well
             (exec started_grouping [AIncoming (Ptr 1); AIncoming (Ptr 2); AIncoming (Ptr 3)]) in
  sent (trace s) = [(OArray [Ptr 1; Ptr 2; Ptr 3], "text"%string)] /\
  output_value (OArray [Ptr 1; Ptr 2; Ptr 3]) (store (glob s))
    = Some (JArray [JObject [("timestamp"%string, JInteger 10)];
                    JObject [("timestamp"%string, JInteger 20)];
                    JObject [("timestamp"%string, JInteger 30)]]).
Proof. vm_compute. split; reflexivity. Qed.

Example one_ungrouped_bare_object :
  let s := hdlr_run 12 all_well
             (exec (hdlr_start (init_plugin indented false three_events))
                [AHdlr all_well; AIncoming (Ptr 1)]) in
  sent (trace s) = [(OEvent (Ptr 1), "text"%string)] /\
  output_value (OEvent (Ptr 1)) (store (glob s))
    = Some (JObject [("timestamp"%string, JInteger 10)]).
Proof. vm_compute. split; reflexivity. Qed.

(** ** The token met in the middle of a batch *)

(** On an empty queue the blocking pop does not return. *)
Lemma hdlr_blocked (a : answers) (s : sys) :
  h_pc (thr s) = L569 -> events (glob s) = [] ->
  forall n, hdlr_run n a s = s.
Proof.
  intros Hpc Hq n. induction n as [|n IH]; [reflexivity|].
  simpl. unfold hdlr_step. rewrite Hpc. unfold hdlr_pop. rewrite Hq. exact IH.
Qed.

(** C5, as the code has it. When the non-blocking pop returns the token,
    the token is taken out of the queue for good, the batch stays as it
    was and the thread goes to the send block. It does not pop the token
    again. With [stopping] set, as destroy sets it before it pushes the
    token, the batch is released without being serialised or published and
    the thread leaves at the next loop test, on the flag, without touching
    the queue. With [stopping] clear and the plugin initialised the batch
    is sent and the thread is back in the blocking pop, where it waits on
    the queue the token left behind, for ever if that queue is empty. *)
Theorem token_seen_by_try_pop (a : answers) (s : sys) (q : list jptr) :
  h_pc (thr s) = L596 -> events (glob s) = exit_event :: q ->
  let s1 := hdlr_step a s in
  let s3 := hdlr_run 2 a s1 in
  h_pc (thr s1) = L601 /\
  h_output (thr s1) = h_output (thr s) /\
  events (glob s1) = q /\
  trace s1 = trace s ++ [LTryPop exit_event] /\
  events (glob s3) = q /\
  (stopping (glob s) = true ->
     h_pc (thr s3) = L630 /\
     trace s3 = trace s1 ++ [LDecref (h_output (thr s))]) /\
  (stopping (glob s) = false -> initialized (glob s) = true ->
     h_pc (thr s3) = L569 /\
     dumped (trace s3) = dumped (trace s1) ++ [h_output (thr s)] /\
     (q = [] -> forall n, hdlr_run n a s3 = s3)).
Proof.
  intros Hpc Hq s1 s3.
  assert (H1 : h_pc (thr s1) = L601 /\ h_output (thr s1) = h_output (thr s) /\
               glob s1 = set_events q (glob s) /\
               trace s1 = trace s ++ [LTryPop exit_event]).
  { subst s1. unfold hdlr_step. rewrite Hpc. unfold hdlr_try_pop. rewrite Hq. done. }
  destruct H1 as (Hpc1 & Ho1 & Hg1 & Ht1).
  set (s2 := hdlr_step a s1).
  assert (Hs3 : s3 = hdlr_step a s2) by reflexivity.
  assert (H2 : h_pc (thr s2) = L567 /\ events (glob s2) = q /\
               stopping (glob s2) = stopping (glob s) /\
               initialized (glob s2) = initialized (glob s) /\
               (stopping (glob s) = true ->
                  trace s2 = trace s1 ++ [LDecref (h_output (thr s))]) /\
               (stopping (glob s) = false ->
                  dumped (trace s2) = dumped (trace s1) ++ [h_output (thr s)])).
  { subst s2. unfold hdlr_step. rewrite Hpc1. unfold hdlr_send.
    rewrite Hg1, Ho1. simpl.
    destruct (stopping (glob s)) eqn:Hst; simpl; rewrite ?Hst.
    - repeat split; try done.
    - unfold dumped. destruct (a_dumps a); simpl; rewrite omap_app; simpl.
      + destruct (a_publish a =? AMQP_STATUS_OK); done.
      + done. }
  destruct H2 as (Hpc2 & Hq2 & Hst2 & Hin2 & Htr2 & Hd2).
  assert (H3 : s3 = hdlr_test s2).
  { rewrite Hs3. unfold hdlr_step. by rewrite Hpc2. }
  split; [exact Hpc1|]. split; [exact Ho1|].
  split; [by rewrite Hg1|]. split; [exact Ht1|].
  split.
  { rewrite H3. unfold hdlr_test. by destruct (_ && _). }
  split.
  - intros Hstop. rewrite H3. unfold hdlr_test. rewrite Hst2, Hstop, andb_false_r.
    simpl. split; [reflexivity|]. by apply Htr2.
  - intros Hstop Hinit. rewrite H3. unfold hdlr_test.
    rewrite Hst2, Hin2, Hstop, Hinit. simpl.
    split; [reflexivity|]. split; [by apply Hd2|].
    intros -> n. apply hdlr_blocked; simpl; [reflexivity|exact Hq2].
Qed.

Lemma token_seen_by_try_pop_witness :
  let s := hdlr_run 2 all_well token_behind_event in
  h_pc (thr (hdlr_run 3 all_well s)) = L630 /\
  events (glob (hdlr_run 3 all_well s)) = [].
Proof.
  intros s.
  destruct (token_seen_by_try_pop all_well s []) as (_ & _ & _ & _ & Hq & Hstop & _).
  - reflexivity.
  - reflexivity.
  - destruct (Hstop eq_refl) as [Hpc _]. split; [exact Hpc|exact Hq].
Defined.

(** C5 as stated fails: the token met by the non-blocking pop is not
    popped a second time. Destroy has pushed it behind one event; the
    thread pops the event, meets the token in the non-blocking pop,
    releases the batch unsent and leaves at the loop test. The queue is
    empty by then and no blocking pop has returned the token. *)
Lemma token_is_not_popped_again :
  let s := hdlr_run 5 all_well token_behind_event in
  events (glob token_behind_event) = [Ptr 1; exit_event] /\
  h_pc (thr s) = L630 /\
  trace s = [LPop (Ptr 1); LHandledAfter 90; LTryPop exit_event;
             LDecref (OArray [Ptr 1])] /\
  ~ In (LPop exit_event) (trace s) /\
  events (glob s) = [].
Proof.
  vm_compute. repeat split; try reflexivity.
  intros [H|[H|[H|[H|[]]]]]; discriminate.
Qed.

(** ** The connect handshake *)

(** X14. Every check of the handshake other than the key's ends it: when the
    step's answer is a failure the result is -1 and no call of a later step
    has been made. *)
Lemma connect_fail_fast (cfg : config) (r : amqp_answers) (s : session) :
  let ret := (janus_rabbitmqevh_connect cfg r s).1 in
  let made := calls (janus_rabbitmqevh_connect cfg r s).2 in
  (ssl_enable cfg = true -> r_ssl_socket_new r = false ->
     ret = -1 /\ Forall (fun c => (rank c <= 1)%nat) made) /\
  (ssl_enable cfg = false -> r_tcp_socket_new r = false ->
     ret = -1 /\ Forall (fun c => (rank c <= 1)%nat) made) /\
  (ssl_enable cfg = true -> ssl_cacert_file cfg <> None ->
   r_set_cacert r <> AMQP_STATUS_OK ->
     ret = -1 /\ Forall (fun c => (rank c <= 2)%nat) made) /\
  (r_socket_open r <> AMQP_STATUS_OK ->
     ret = -1 /\ Forall (fun c => (rank c <= 4)%nat) made) /\
  (r_login r <> AMQP_RESPONSE_NORMAL ->
     ret = -1 /\ Forall (fun c => (rank c <= 5)%nat) made) /\
  (r_channel_open r <> AMQP_RESPONSE_NORMAL ->
     ret = -1 /\ Forall (fun c => (rank c <= 6)%nat) made) /\
  (exchange cfg <> None -> r_exchange_declare r <> AMQP_RESPONSE_NORMAL ->
     ret = -1 /\ Forall (fun c => (rank c <= 7)%nat) made) /\
  (declare_outgoing_queue cfg = true -> r_queue_declare r <> AMQP_RESPONSE_NORMAL ->
     ret = -1).
Proof.
  cbv zeta.
  repeat split; intros;
    connect_cases cfg r;
    repeat match goal with
      | H : (_ =? _) = true |- _ => apply Z.eqb_eq in H
      | H : (_ =? _) = false |- _ => apply Z.eqb_neq in H
      end;
    try congruence; try reflexivity;
    repeat constructor; simpl; lia.
Qed.

(** The answer to [amqp_ssl_socket_set_key] is never looked at. *)
Lemma connect_ignores_set_key (cfg : config) (r : amqp_answers) (s : session) (v : Z) :
  janus_rabbitmqevh_connect cfg (with_set_key v r) s = janus_rabbitmqevh_connect cfg r s.
Proof. reflexivity. Qed.

(** C6. TLS with a client certificate and key: the library fails to load
    them, every other call succeeds. The handshake does not stop: it opens
    the socket, logs in, opens the channel, declares exchange and queue and
    returns 0, without a fatal line. The test that follows the call reads
    [status], which the call's result was never assigned to. A CA
    certificate that fails to load, one step earlier, does end the
    handshake with -1. *)
Theorem connect_goes_on_after_key_failure :
  r_set_key key_rejected = AMQP_STATUS_SSL_ERROR /\
  janus_rabbitmqevh_connect tls_config key_rejected no_session =
    (0,
     {| rmq_conn := Some 7%positive; rmq_channel := 1;
        rmq_exchange := Some "janus-exchange"%string;
        status := AMQP_STATUS_OK;
        calls :=
          [CNewConnection; CSslSocketNew; CSetVerifyPeer true; CSetVerifyHostname true;
           CSetCacert "ca.pem"; CSetKey "client.pem" "client.key";
           CSocketOpen "localhost" 5671;
           CLogin "/" 0 131072 60 AMQP_SASL_METHOD_PLAIN "guest" "guest";
           CChannelOpen 1; CExchangeDeclare "janus-exchange" "fanout";
           CQueueDeclare "janus-events"] |}) /\
  janus_rabbitmqevh_connect tls_config cacert_rejected no_session =
    (-1,
     {| rmq_conn := Some 8%positive; rmq_channel := 0; rmq_exchange := None;
        status := AMQP_STATUS_SSL_ERROR;
        calls :=
          [CNewConnection; CSslSocketNew; CSetVerifyPeer true; CSetVerifyHostname true;
           CSetCacert "ca.pem"; CFatal "error setting CA certificate"] |}).
Proof. repeat split; reflexivity. Qed.

(** ** The heartbeat thread *)

Lemma hard_error_cases (res : Z) :
  hard_error res = false <->
  res = AMQP_STATUS_OK \/ res = AMQP_STATUS_TIMEOUT \/ res = AMQP_STATUS_SSL_ERROR.
Proof.
  unfold hard_error.
  destruct (Z.eqb_spec res AMQP_STATUS_OK), (Z.eqb_spec res AMQP_STATUS_TIMEOUT),
    (Z.eqb_spec res AMQP_STATUS_SSL_ERROR); simpl; intuition congruence.
Qed.


(** A hard error met while stopping: log and tear down, no reconnect. *)
Lemma hrtbt_body_hard_stopping (cfg : config) (rd : hb_reads) (s : session) :
  hard_error (rd_res rd) = true -> rd_stopping_again rd = true ->
  hrtbt_body cfg rd s =
    (s, poll_actions (rd_res rd) ++ [HPollError (rd_res rd)] ++ teardown_actions s).
Proof.
  unfold hard_error, hrtbt_body. intros Hhard Hstop. rewrite Hstop.
  destruct (rd_res rd =? AMQP_STATUS_OK); [discriminate|].
  destruct (rd_res rd =? AMQP_STATUS_TIMEOUT); [discriminate|].
  destruct (rd_res rd =? AMQP_STATUS_SSL_ERROR); [discriminate|]. reflexivity.
Qed.

(** Anything else: wait and poll again. *)
Lemma hrtbt_body_steady (cfg : config) (rd : hb_reads) (s : session) :
  hard_error (rd_res rd) = false ->
  hrtbt_body cfg rd s =
    (s, poll_actions (rd_res rd) ++ [HSleep (to_gulong (waiting_usec (heartbeat cfg)))]).
Proof.
  unfold hard_error, hrtbt_body. intros Hhard.
  destruct (rd_res rd =? AMQP_STATUS_OK); [reflexivity|].
  destruct (rd_res rd =? AMQP_STATUS_TIMEOUT); [reflexivity|].
  destruct (rd_res rd =? AMQP_STATUS_SSL_ERROR); [reflexivity|discriminate].
Qed.








(** The wait computed at line 638 when the product fits an [int]. *)
Lemma waiting_usec_in_range (hb : Z) :
  0 <= hb <= 4295 -> waiting_usec hb = Z.quot hb 2 * 1000000.
Proof.
  intros Hhb. unfold waiting_usec, to_int.
  assert (0 <= Z.quot hb 2 <= 2147).
  { rewrite Z.quot_div_nonneg by lia.
    split; [apply Z.div_pos; lia|].
    apply Z.lt_succ_r, Z.div_lt_upper_bound; lia. }
  rewrite Z.mod_small by lia. lia.
Qed.





(** C8, as the code has it. For a heartbeat interval of 1 to 4295 seconds
    and a poll that succeeds, times out or reports the TLS status, the turn
    is the poll under the lock followed by one sleep of the interval
    halved in whole seconds, [heartbeat / 2] in C's integer division, times
    a million microseconds. Twice that sleep is the interval when the
    interval is even and a full second less when it is odd. *)
Theorem steady_state_sleep (cfg : config) (rd : hb_reads) (s : session) :
  0 < heartbeat cfg <= 4295 ->
  hard_error (rd_res rd) = false ->
  let hb := heartbeat cfg in
  let us := Z.quot hb 2 * 1000000 in
  hrtbt_body cfg rd s =
    (s, [HLock; HMaybeReleaseBuffers; HWaitFrame (rd_res rd); HUnlock; HSleep us]) /\
  (Z.even hb = true -> 2 * us = hb * 1000000) /\
  (Z.odd hb = true -> 2 * us = (hb - 1) * 1000000).
Proof.
  intros Hhb Hsoft hb us.
  rewrite hrtbt_body_steady by assumption.
  rewrite waiting_usec_in_range by lia.
  assert (Hus : 0 <= us < 2 ^ 64).
  { subst us hb. rewrite Z.quot_div_nonneg by lia.
    assert (0 <= heartbeat cfg / 2 <= 2147).
    { split; [apply Z.div_pos; lia|]. apply Z.lt_succ_r, Z.div_lt_upper_bound; lia. }
    lia. }
  unfold to_gulong. fold hb. fold us. rewrite Z.mod_small by exact Hus.
  split; [reflexivity|].
  subst us. rewrite Z.quot_div_nonneg by (subst hb; lia).
  split; intros Hpar.
  - apply Z.even_spec in Hpar as [k Hk]. rewrite Hk.
    replace (2 * k / 2) with k by (rewrite Z.mul_comm, Z.div_mul; lia). lia.
  - apply Z.odd_spec in Hpar as [k Hk]. rewrite Hk.
    replace ((2 * k + 1) / 2) with k
      by (apply (Z.div_unique (2 * k + 1) 2 k 1); lia). lia.
Qed.

Lemma steady_state_sleep_witness :
  hrtbt_body (with_heartbeat 60) (turn AMQP_STATUS_TIMEOUT broker_fine) session_up =
    (session_up,
     [HLock; HMaybeReleaseBuffers; HWaitFrame AMQP_STATUS_TIMEOUT; HUnlock;
      HSleep 30000000]).
Proof.
  apply (steady_state_sleep (with_heartbeat 60) (turn AMQP_STATUS_TIMEOUT broker_fine)
           session_up).
  - simpl. lia.
  - reflexivity.
Defined.

(** C8 as stated fails: with a heartbeat interval of one second the thread
    sleeps zero microseconds after a timed-out poll, not half a second, and
    with three seconds it sleeps one second, not one and a half. *)
Lemma odd_heartbeat_sleeps_less_than_half :
  hrtbt_body (with_heartbeat 1) (turn AMQP_STATUS_TIMEOUT broker_fine) session_up =
    (session_up,
     [HLock; HMaybeReleaseBuffers; HWaitFrame AMQP_STATUS_TIMEOUT; HUnlock; HSleep 0]) /\
  2 * 0 <> 1 * 1000000 /\
  hrtbt_body (with_heartbeat 3) (turn AMQP_STATUS_OK broker_fine) session_up =
    (session_up,
     [HLock; HMaybeReleaseBuffers; HWaitFrame AMQP_STATUS_OK; HUnlock; HSleep 1000000]) /\
  2 * 1000000 <> 3 * 1000000.
Proof. repeat split; try reflexivity; discriminate. Qed.

(** Past 4295 seconds the product of line 638 no longer fits an [int]. *)
Example waiting_usec_wraps : waiting_usec 4296 = -2146967296.
Proof. reflexivity. Qed.

(** * Further properties of the code *)

(** ** The handler thread at shutdown *)

Lemma published_app (l1 l2 : list label) :
  published (l1 ++ l2) = published l1 ++ published l2.
Proof. apply omap_app. Qed.

Lemma published_handled_after (now : Z) (p : jptr) (m : jstore) :
  published (handled_after now p m) = [].
Proof.
  unfold handled_after. destruct (json_object_get _ _) as [c|]; [|reflexivity].
  by destruct (json_is_integer c).
Qed.

(** The thread changes the queue and the store, never a flag or the format. *)
Lemma hdlr_step_flags (a : answers) (s : sys) :
  initialized (glob (hdlr_step a s)) = initialized (glob s) /\
  stopping (glob (hdlr_step a s)) = stopping (glob s) /\
  group_events (glob (hdlr_step a s)) = group_events (glob s) /\
  json_format (glob (hdlr_step a s)) = json_format (glob s).
Proof.
  unfold hdlr_step. destruct (h_pc (thr s)); try done.
  - unfold hdlr_test. by destruct (_ && _).
  - unfold hdlr_pop. destruct (events (glob s)) as [|p q]; [done|].
    by destruct (decide (p = exit_event)).
  - unfold hdlr_collect. destruct (negb _); [done|].
    by destruct (json_array_append_new _ _ _).
  - unfold hdlr_try_pop. by destruct (g_async_queue_try_pop _).
  - unfold hdlr_send. by destruct (negb _); [destruct (a_dumps a)|].
Qed.

Lemma hdlr_step_quiet (a : answers) (s : sys) :
  stopping (glob s) = true \/ h_pc (thr s) = L630 ->
  (stopping (glob (hdlr_step a s)) = true \/ h_pc (thr (hdlr_step a s)) = L630) /\
  dumped (trace (hdlr_step a s)) = dumped (trace s) /\
  published (trace (hdlr_step a s)) = published (trace s).
Proof.
  intros [Hstop|Hpc].
  - split; [left; by rewrite (proj1 (proj2 (hdlr_step_flags a s)))|].
    unfold hdlr_step. destruct (h_pc (thr s)); try done.
    + unfold hdlr_test. by destruct (_ && _).
    + unfold hdlr_pop. destruct (events (glob s)) as [|p q]; [done|].
      destruct (decide (p = exit_event)); simpl;
        by rewrite dumped_app, published_app, !app_nil_r.
    + unfold hdlr_collect. destruct (negb _); simpl.
      * by rewrite dumped_app, published_app, dumped_handled_after,
          published_handled_after, !app_nil_r.
      * destruct (json_array_append_new _ _ _). simpl.
        by rewrite dumped_app, published_app, dumped_handled_after,
          published_handled_after, !app_nil_r.
    + unfold hdlr_try_pop. destruct (g_async_queue_try_pop _). simpl.
      by rewrite dumped_app, published_app, !app_nil_r.
    + unfold hdlr_send. rewrite Hstop. simpl.
      by rewrite dumped_app, published_app, !app_nil_r.
  - unfold hdlr_step. rewrite Hpc. split; [by right|done].
Qed.

(** ** The mutex around the publish *)

Lemma lock_scan_app (h : bool) (t1 t2 : list label) :
  lock_scan h (t1 ++ t2) =
    match lock_scan h t1 with
    | Some h' => lock_scan h' t2
    | None => None
    end.
Proof.
  revert h. induction t1 as [|l t1 IH]; intros h; simpl; [reflexivity|].
  destruct l, h; simpl; try reflexivity; apply IH.
Qed.

Lemma hdlr_step_lock (a : answers) (s : sys) :
  exists new, trace (hdlr_step a s) = trace s ++ new /\
              lock_scan false new = Some false.
Proof.
  unfold hdlr_step. destruct (h_pc (thr s)).
  - exists []. unfold hdlr_test. rewrite app_nil_r. by destruct (_ && _).
  - unfold hdlr_pop. destruct (events (glob s)) as [|p q].
    + exists []. by rewrite app_nil_r.
    + exists [LPop p]. by destruct (decide (p = exit_event)).
  - exists (handled_after (a_now a) (h_event (thr s)) (store (glob s))). split.
    + unfold hdlr_collect. destruct (negb _); [done|].
      by destruct (json_array_append_new _ _ _).
    + unfold handled_after. destruct (json_object_get _ _) as [c|]; [|done].
      by destruct (json_is_integer c).
  - unfold hdlr_try_pop. destruct (g_async_queue_try_pop _) as [p q].
    by exists [LTryPop p].
  - unfold hdlr_send. destruct (negb _); [destruct (a_dumps a)|].
    + eexists. split; [reflexivity|]. simpl.
      by destruct (a_publish a =? AMQP_STATUS_OK).
    + by eexists.
    + by eexists.
  - exists []. by rewrite app_nil_r.
Qed.

(** X2. In every execution the trace of the handler thread is in order
    with respect to the mutex: each [amqp_basic_publish] and its error line
    fall between a lock and the matching unlock, the lock is never taken
    twice nor released when free, pops, serialisation and release happen
    outside it, and after every step the lock is free. *)
Theorem publish_only_under_lock (g : plugin) (xs : list action) :
  lock_scan false (trace (exec (hdlr_start g) xs)) = Some false.
Proof.
  assert (H : forall xs s, lock_scan false (trace s) = Some false ->
                           lock_scan false (trace (exec s xs)) = Some false).
  { clear. induction xs as [|x xs IH]; intros s Hs; simpl; [exact Hs|].
    apply IH. destruct x as [a|p|r| |]; simpl; try exact Hs.
    - destruct (hdlr_step_lock a s) as (new & -> & Hnew).
      by rewrite lock_scan_app, Hs.
    - by destruct (decide _). }
  by apply H.
Qed.

(** ** Leaving the loop *)

Lemma hdlr_run_add (a : answers) (n k : nat) (s : sys) :
  hdlr_run (n + k) a s = hdlr_run k a (hdlr_run n a s).
Proof. revert s. induction n as [|n IH]; intros s; simpl; [reflexivity|apply IH]. Qed.

Lemma hdlr_run_left (a : answers) (n : nat) (s : sys) :
  h_pc (thr s) = L630 -> hdlr_run n a s = s.
Proof.
  intros Hpc. induction n as [|n IH]; [reflexivity|].
  simpl. unfold hdlr_step. rewrite Hpc. exact IH.
Qed.

(** Once out of the loop, out for good. *)
Lemma hdlr_run_left_mono (a : answers) (n m : nat) (s : sys) :
  h_pc (thr (hdlr_run n a s)) = L630 -> (n <= m)%nat ->
  h_pc (thr (hdlr_run m a s)) = L630.
Proof.
  intros Hpc Hle. replace m with (n + (m - n))%nat by lia.
  rewrite hdlr_run_add, hdlr_run_left; assumption.
Qed.

Lemma left_from_send (a : answers) (s : sys) :
  stopping (glob s) = true -> h_pc (thr s) = L601 ->
  h_pc (thr (hdlr_run 2 a s)) = L630.
Proof.
  intros Hstop Hpc. simpl. unfold hdlr_step at 2. rewrite Hpc.
  unfold hdlr_send. rewrite Hstop. simpl. unfold hdlr_step, hdlr_test. simpl.
  rewrite Hstop, andb_false_r. reflexivity.
Qed.

Lemma left_from_drain (a : answers) (n : nat) :
  forall s, stopping (glob s) = true ->
  (length (events (glob s)) <= n)%nat ->
  (h_pc (thr s) = L596 -> h_pc (thr (hdlr_run (2 * n + 3) a s)) = L630) /\
  (h_pc (thr s) = L575 -> h_pc (thr (hdlr_run (2 * n + 4) a s)) = L630).
Proof.
  induction n as [|n IH]; intros s Hstop Hlen.
  - assert (H596 : h_pc (thr s) = L596 -> h_pc (thr (hdlr_run 3 a s)) = L630).
    { intros Hpc. change 3%nat with (1 + 2)%nat. rewrite hdlr_run_add.
      apply left_from_send.
      - simpl. by rewrite (proj1 (proj2 (hdlr_step_flags a s))).
      - simpl. unfold hdlr_step. rewrite Hpc. unfold hdlr_try_pop.
        destruct (events (glob s)); [reflexivity|simpl in Hlen; lia]. }
    split; [exact H596|]. intros Hpc.
    change (2 * 0 + 4)%nat with (1 + 3)%nat. rewrite hdlr_run_add.
    set (s1 := hdlr_run 1 a s).
    assert (Hs1 : stopping (glob s1) = true /\ events (glob s1) = events (glob s) /\
                  (h_pc (thr s1) = L601 \/ h_pc (thr s1) = L596)).
    { subst s1. simpl. unfold hdlr_step. rewrite Hpc. unfold hdlr_collect.
      destruct (negb _); simpl; [by auto|].
      destruct (json_array_append_new _ _ _). simpl.
      destruct (_ =? _); auto. }
    destruct Hs1 as (Hst1 & Hq1 & [Hp1|Hp1]).
    + apply (hdlr_run_left_mono a 2 3); [by apply left_from_send|lia].
    + unfold hdlr_run at 1. fold hdlr_run.
      assert (H : h_pc (thr (hdlr_run 3 a s1)) = L630).
      { change 3%nat with (1 + 2)%nat. rewrite hdlr_run_add.
        apply left_from_send.
        - simpl. by rewrite (proj1 (proj2 (hdlr_step_flags a s1))).
        - simpl. unfold hdlr_step. rewrite Hp1. unfold hdlr_try_pop. rewrite Hq1.
          destruct (events (glob s)); [reflexivity|simpl in Hlen; lia]. }
      exact H.
  - assert (H596 : h_pc (thr s) = L596 ->
                   h_pc (thr (hdlr_run (2 * S n + 3) a s)) = L630).
    { intros Hpc. replace (2 * S n + 3)%nat with (1 + (2 * n + 4))%nat by lia.
      rewrite hdlr_run_add. set (s1 := hdlr_run 1 a s).
      assert (Hs1 : stopping (glob s1) = true /\
                    ((h_pc (thr s1) = L601) \/
                     (h_pc (thr s1) = L575 /\ (length (events (glob s1)) <= n)%nat))).
      { subst s1. simpl. split; [by rewrite (proj1 (proj2 (hdlr_step_flags a s)))|].
        unfold hdlr_step. rewrite Hpc. unfold hdlr_try_pop.
        destruct (events (glob s)) as [|p q]; simpl; [by left|].
        destruct (decide (p = NULL)); [by left|].
        destruct (decide (p = exit_event)); [by left|].
        right. split; [reflexivity|]. simpl in Hlen. lia. }
      destruct Hs1 as (Hst1 & [Hp1|[Hp1 Hl1]]).
      - apply (hdlr_run_left_mono a 2); [by apply left_from_send|lia].
      - by apply (IH s1 Hst1 Hl1). }
    split; [exact H596|]. intros Hpc.
    replace (2 * S n + 4)%nat with (1 + (2 * S n + 3))%nat by lia.
    rewrite hdlr_run_add. set (s1 := hdlr_run 1 a s).
    assert (Hs1 : stopping (glob s1) = true /\ events (glob s1) = events (glob s) /\
                  (h_pc (thr s1) = L601 \/ h_pc (thr s1) = L596)).
    { subst s1. simpl. unfold hdlr_step. rewrite Hpc. unfold hdlr_collect.
      destruct (negb _); simpl; [by auto|].
      destruct (json_array_append_new _ _ _). simpl.
      destruct (_ =? _); auto. }
    destruct Hs1 as (Hst1 & Hq1 & [Hp1|Hp1]).
    + apply (hdlr_run_left_mono a 2); [by apply left_from_send|lia].
    + assert (Hl1 : (length (events (glob s1)) <= S n)%nat) by (by rewrite Hq1).
      replace (2 * S n + 3)%nat with (1 + (2 * n + 4))%nat by lia.
      rewrite hdlr_run_add. set (s2 := hdlr_run 1 a s1).
      assert (Hs2 : stopping (glob s2) = true /\
                    ((h_pc (thr s2) = L601) \/
                     (h_pc (thr s2) = L575 /\ (length (events (glob s2)) <= n)%nat))).
      { subst s2. simpl. split; [by rewrite (proj1 (proj2 (hdlr_step_flags a s1)))|].
        unfold hdlr_step. rewrite Hp1. unfold hdlr_try_pop.
        destruct (events (glob s1)) as [|p q]; simpl; [by left|].
        destruct (decide (p = NULL)); [by left|].
        destruct (decide (p = exit_event)); [by left|].
        right. split; [reflexivity|]. simpl in Hl1. lia. }
      destruct Hs2 as (Hst2 & [Hp2|[Hp2 Hl2]]).
      * apply (hdlr_run_left_mono a 2); [by apply left_from_send|lia].
      * by apply (IH s2 Hst2 Hl2).
Qed.

Lemma left_when_stopping (a : answers) (s : sys) :
  stopping (glob s) = true ->
  (h_pc (thr s) = L569 -> events (glob s) <> []) ->
  h_pc (thr (hdlr_run (2 * length (events (glob s)) + 4) a s)) = L630.
Proof.
  intros Hstop Hq.
  destruct (h_pc (thr s)) eqn:Hpc.
  - apply (hdlr_run_left_mono a 1); [|lia].
    simpl. unfold hdlr_step. rewrite Hpc. unfold hdlr_test.
    by rewrite Hstop, andb_false_r.
  - destruct (events (glob s)) as [|p q] eqn:Eq; [by destruct Hq|].
    set (s1 := hdlr_run 1 a s).
    assert (Hs1 : stopping (glob s1) = true /\
                  (h_pc (thr s1) = L630 \/
                   (h_pc (thr s1) = L575 /\ events (glob s1) = q))).
    { subst s1. simpl. split; [by rewrite (proj1 (proj2 (hdlr_step_flags a s)))|].
      unfold hdlr_step. rewrite Hpc. unfold hdlr_pop. rewrite Eq.
      destruct (decide (p = exit_event)); [by left|by right]. }
    destruct Hs1 as (Hst1 & [Hp1|[Hp1 Hq1]]).
    + by apply (hdlr_run_left_mono a 1); [|lia].
    + apply (hdlr_run_left_mono a (1 + (2 * length q + 4))); [|simpl; lia].
      rewrite hdlr_run_add. fold s1.
      apply (left_from_drain a (length q) s1 Hst1); [by rewrite Hq1|exact Hp1].
  - by apply (left_from_drain a (length (events (glob s))) s Hstop).
  - apply (hdlr_run_left_mono a (2 * length (events (glob s)) + 3)); [|lia].
    by apply (left_from_drain a (length (events (glob s))) s Hstop).
  - apply (hdlr_run_left_mono a 2); [by apply left_from_send|lia].
  - by rewrite hdlr_run_left.
Qed.

(** X3. With [stopping] set the thread, running on its own, is out of its
    loop after at most twice as many steps as items are queued, plus four,
    wherever it stands, unless it is waiting in the blocking pop on an
    empty queue, from which only a push wakes it. Destroy pushes the
    token after raising the flag, so the join that follows returns. *)
Theorem hdlr_leaves_when_stopping (a : answers) (s : sys) :
  stopping (glob s) = true ->
  (h_pc (thr s) = L569 -> events (glob s) <> []) ->
  h_pc (thr (hdlr_run (2 * length (events (glob s)) + 4) a s)) = L630.
Proof. exact (left_when_stopping a s). Qed.

Lemma hdlr_leaves_when_stopping_witness :
  h_pc (thr (hdlr_run 8 all_well token_behind_event)) = L630.
Proof.
  apply (hdlr_leaves_when_stopping all_well token_behind_event).
  - reflexivity.
  - discriminate.
Defined.

(** ** Accounting for events *)

Lemma filter_is_event_app (q1 q2 : list jptr) :
  List.filter is_event (q1 ++ q2) = List.filter is_event q1 ++ List.filter is_event q2.
Proof. apply List.filter_app. Qed.

Lemma track_inv_start (g : plugin) : NULL ∉ events g -> track_inv (hdlr_start g).
Proof. intros Hq. unfold track_inv. simpl. repeat split; [exact Hq|constructor]. Qed.

Lemma hdlr_step_track (a : answers) (s : sys) :
  track_inv s -> track_inv (hdlr_step a s).
Proof.
  intros (Hq & Hb & Hpc). unfold hdlr_step, track_inv.
  destruct (h_pc (thr s)) eqn:Epc.
  - unfold hdlr_test. destruct (_ && _); simpl; done.
  - unfold hdlr_pop. destruct (events (glob s)) as [|p q] eqn:Eq.
    { rewrite Epc, Eq. done. }
    apply not_elem_of_cons in Hq as [Hp Hq].
    destruct (decide (p = exit_event)) as [->|Hne]; simpl; [done|].
    repeat split; [exact Hq|constructor|destruct p; simpl; congruence|by left].
  - destruct Hpc as [Hev Hout]. unfold hdlr_collect.
    destruct (h_event (thr s)) as [| |e] eqn:Ee; try discriminate.
    destruct (group_events (glob s)) eqn:Eg; simpl.
    + assert (Happ : exists l,
                match h_output (thr s) with ONull => OArray [] | o' => o' end = OArray l /\
                batch_of (h_output (thr s)) = l).
      { destruct Hout as [->|[[l ->] _]]; by eexists. }
      destruct Happ as (l & -> & Hl). simpl.
      split; [exact Hq|]. split.
      { rewrite <- Hl. apply Forall_app. split; [exact Hb|]. by repeat constructor. }
      destruct (_ =? _); [done|]. split; [by eexists|exact Eg].
    + split; [exact Hq|]. split; [by repeat constructor|done].
  - destruct Hpc as [[l Ho] Hg]. unfold hdlr_try_pop.
    destruct (events (glob s)) as [|p q] eqn:Eq; simpl.
    + done.
    + apply not_elem_of_cons in Hq as [Hp Hq].
      split; [exact Hq|]. split; [exact Hb|].
      destruct (decide (p = NULL)) as [->|_]; [done|].
      destruct (decide (p = exit_event)) as [->|Hne]; [done|].
      split; [destruct p; simpl; congruence|]. right. split; [by exists l|exact Hg].
  - unfold hdlr_send.
    destruct (negb (stopping (glob s))); [destruct (a_dumps a)|]; simpl;
      (split; [exact Hq|]); (split; [constructor|exact I]).
  - rewrite Epc. done.
Qed.

Lemma act_track (s : sys) (x : action) :
  track_inv s -> calm s x -> track_inv (act s x).
Proof.
  intros Hinv Hcalm. destruct x as [a|p|r| |]; simpl.
  - by apply hdlr_step_track.
  - destruct Hinv as (Hq & Hb & Hpc). unfold track_inv, with_glob. simpl.
    assert (Hg : group_events (janus_rabbitmqevh_incoming_event p (glob s))
                 = group_events (glob s)).
    { unfold janus_rabbitmqevh_incoming_event. by destruct (_ || _). }
    rewrite Hg. split; [|by split].
    unfold janus_rabbitmqevh_incoming_event.
    destruct (_ || _); [exact Hq|]. simpl. by apply push_keeps_no_null.
  - destruct Hinv as (Hq & Hb & Hpc). unfold track_inv, with_glob. simpl.
    rewrite tweak_events. split; [exact Hq|]. split; [exact Hb|].
    simpl in Hcalm. unfold mid_batch in Hcalm.
    destruct (h_pc (thr s)); try done.
    + destruct Hpc as [He [Ho|[[l Ho] Hg]]]; [by split; [|left]|].
      split; [exact He|]. right. split; [by exists l|].
      apply Hcalm. by rewrite Ho.
    + destruct Hpc as [Ho Hg]. split; [exact Ho|]. by apply Hcalm.
  - destruct Hinv as (Hq & Hb & Hpc). unfold track_inv, with_glob. simpl.
    assert (Hg : group_events (destroy_signal (glob s)) = group_events (glob s)).
    { unfold destroy_signal. by destruct (negb _). }
    rewrite Hg. split; [|by split].
    unfold destroy_signal. destruct (negb _); [exact Hq|].
    exact (push_keeps_no_null (events (glob s)) exit_event Hq).
  - destruct (decide _) as [Hpc630|]; [|exact Hinv].
    destruct Hinv as (Hq & Hb & Hpc). unfold track_inv, with_glob. simpl.
    rewrite Hpc630. split; [|by split].
    unfold destroy_finish. destruct (negb _); [exact Hq|]. simpl. apply not_elem_of_nil.
Qed.

Lemma released_app (l1 l2 : list label) :
  released (l1 ++ l2) = released l1 ++ released l2.
Proof. apply omap_app. Qed.

Lemma released_handled_after (now : Z) (p : jptr) (m : jstore) :
  released (handled_after now p m) = [].
Proof.
  unfold handled_after. destruct (json_object_get _ _) as [c|]; [|reflexivity].
  by destruct (json_is_integer c).
Qed.

Lemma hdlr_step_handled (a : answers) (s : sys) :
  track_inv s -> handled (hdlr_step a s) = handled s.
Proof.
  intros (Hq & Hb & Hpc). unfold handled, held, in_hand, hdlr_step.
  destruct (h_pc (thr s)) eqn:Epc.
  - unfold hdlr_test. by destruct (_ && _).
  - unfold hdlr_pop. destruct (events (glob s)) as [|p q] eqn:Eq.
    { by rewrite Epc, Eq. }
    apply not_elem_of_cons in Hq as [Hp Hq].
    destruct (decide (p = exit_event)) as [->|Hne]; simpl;
      rewrite released_app, app_nil_r; [done|].
    by destruct p.
  - destruct Hpc as [Hev Hout]. unfold hdlr_collect.
    destruct (h_event (thr s)) as [| |e] eqn:Ee; try discriminate.
    destruct (group_events (glob s)) eqn:Eg; simpl.
    + assert (Happ : exists l,
                match h_output (thr s) with ONull => OArray [] | o' => o' end = OArray l /\
                batch_of (h_output (thr s)) = l).
      { destruct Hout as [->|[[l ->] _]]; by eexists. }
      destruct Happ as (l & -> & ->). simpl.
      rewrite released_app, released_handled_after, app_nil_r.
      by destruct (_ =? _).
    + destruct Hout as [->|[_ ?]]; [|congruence]. simpl.
      by rewrite released_app, released_handled_after, app_nil_r.
  - destruct Hpc as [[l Ho] Hg]. unfold hdlr_try_pop.
    destruct (events (glob s)) as [|p q] eqn:Eq; simpl;
      rewrite released_app, app_nil_r; [done|].
    apply not_elem_of_cons in Hq as [Hp Hq].
    destruct (decide (p = NULL)) as [->|_]; [done|].
    destruct (decide (p = exit_event)) as [->|Hne]; [done|].
    destruct p; try congruence. simpl. by rewrite <- app_assoc.
  - unfold hdlr_send.
    destruct (negb (stopping (glob s))); [destruct (a_dumps a)|]; simpl;
      rewrite released_app; simpl.
    + destruct (a_publish a =? AMQP_STATUS_OK); simpl;
        by rewrite map_app, concat_app, <- app_assoc; simpl; rewrite app_nil_r.
    + by rewrite map_app, concat_app, <- app_assoc; simpl; rewrite app_nil_r.
    + by rewrite map_app, concat_app, <- app_assoc; simpl; rewrite app_nil_r.
  - by rewrite Epc.
Qed.

Lemma act_handled (s : sys) (x : action) :
  track_inv s -> x <> ADestroyFinish ->
  handled (act s x) = handled s ++ accepted s x.
Proof.
  intros Hinv Hx. destruct x as [a|p|r| |]; simpl.
  - rewrite app_nil_r. by apply hdlr_step_handled.
  - unfold handled, held, with_glob. simpl.
    unfold janus_rabbitmqevh_incoming_event.
    destruct (_ || _); [by rewrite app_nil_r|]. simpl.
    destruct p as [| |e]; simpl.
    + by rewrite app_nil_r.
    + rewrite filter_is_event_app. simpl. by rewrite !app_nil_r.
    + rewrite filter_is_event_app. simpl. by rewrite !app_assoc.
  - unfold handled, held, with_glob. simpl. by rewrite tweak_events, app_nil_r.
  - unfold handled, held, with_glob. simpl. rewrite app_nil_r.
    unfold destroy_signal. destruct (negb _); [done|]. simpl.
    rewrite filter_is_event_app. simpl. by rewrite app_nil_r.
  - done.
Qed.

Lemma hdlr_step_dumped_released (a : answers) (s : sys) :
  sublist (dumped (trace s)) (released (trace s)) ->
  sublist (dumped (trace (hdlr_step a s))) (released (trace (hdlr_step a s))).
Proof.
  intros Hs. unfold hdlr_step. destruct (h_pc (thr s)); try done.
  - unfold hdlr_test. by destruct (_ && _).
  - unfold hdlr_pop. destruct (events (glob s)) as [|p q]; [done|].
    destruct (decide (p = exit_event)); simpl;
      by rewrite dumped_app, released_app, !app_nil_r.
  - unfold hdlr_collect. destruct (negb _); simpl.
    + by rewrite dumped_app, released_app, dumped_handled_after,
        released_handled_after, !app_nil_r.
    + destruct (json_array_append_new _ _ _). simpl.
      by rewrite dumped_app, released_app, dumped_handled_after,
        released_handled_after, !app_nil_r.
  - unfold hdlr_try_pop. destruct (g_async_queue_try_pop _). simpl.
    by rewrite dumped_app, released_app, !app_nil_r.
  - unfold hdlr_send.
    destruct (negb (stopping (glob s))); [destruct (a_dumps a)|]; simpl;
      rewrite dumped_app, released_app; simpl.
    + destruct (a_publish a =? AMQP_STATUS_OK); simpl; by apply sublist_app.
    + by apply sublist_app.
    + rewrite app_nil_r. by apply sublist_inserts_r.
Qed.

(** X4. Events leave the plugin in the order in which they were queued,
    each of them once. Start the thread on any queue without NULL items and
    let thread, producers, destroy and the Admin API act in any order, as
    long as no request switches grouping off under a batch that is being
    collected and the queue is not yet torn down. Then the events of the
    batches released so far, followed by those in the thread's hands and
    those still queued, are exactly the events of the initial queue followed
    by the events queued since, in that order; and the values serialised
    are among the values released, in the same order. *)
Theorem events_leave_in_queue_order (g : plugin) (xs : list action) :
  NULL ∉ events g ->
  calm_all (hdlr_start g) xs ->
  Forall (fun x => x <> ADestroyFinish) xs ->
  let s := exec (hdlr_start g) xs in
  concat (map batch_of (released (trace s))) ++ in_hand (thr s) ++
    List.filter is_event (events (glob s))
    = List.filter is_event (events g) ++ accepted_all (hdlr_start g) xs /\
  sublist (dumped (trace s)) (released (trace s)).
Proof.
  intros Hq Hcalm Hxs s.
  assert (H : forall xs s0,
            track_inv s0 -> calm_all s0 xs ->
            Forall (fun x => x <> ADestroyFinish) xs ->
            sublist (dumped (trace s0)) (released (trace s0)) ->
            handled (exec s0 xs) = handled s0 ++ accepted_all s0 xs /\
            sublist (dumped (trace (exec s0 xs))) (released (trace (exec s0 xs)))).
  { clear. induction xs as [|x xs IH]; intros s0 Hinv Hcalm Hxs Hsub; simpl.
    - by rewrite app_nil_r.
    - destruct Hcalm as [Hc Hcalm]. apply Forall_cons in Hxs as [Hx Hxs].
      destruct (IH (act s0 x)) as [H1 H2]; try assumption.
      + by apply act_track.
      + destruct x as [a| | | |]; simpl; try exact Hsub.
        * by apply hdlr_step_dumped_released.
        * by destruct (decide _).
      + split; [|exact H2]. rewrite H1, act_handled by assumption.
        by rewrite app_assoc. }
  destruct (H xs (hdlr_start g)) as [H1 H2]; try assumption.
  - by apply track_inv_start.
  - constructor.
  - split; [|exact H2]. exact H1.
Qed.

Lemma events_leave_in_queue_order_witness :
  let xs := [AHdlr all_well; AIncoming (Ptr 1); AIncoming (Ptr 2); AHdlr all_well;
             AHdlr all_well; AIncoming (Ptr 3); AHdlr all_well; AHdlr all_well;
             AHdlr all_well; AHdlr all_well; AHdlr all_well] in
  let s := exec (hdlr_start (init_plugin indented true three_events)) xs in
  concat (map batch_of (released (trace s))) ++ in_hand (thr s) ++
    List.filter is_event (events (glob s)) = [Ptr 1; Ptr 2; Ptr 3].
Proof.
  intros xs s.
  apply (events_leave_in_queue_order (init_plugin indented true three_events) xs).
  - apply not_elem_of_nil.
  - simpl. repeat split; discriminate.
  - repeat constructor; discriminate.
Defined.

(** ** Accounting for references *)

Lemma cnt_app (a : positive) (h1 h2 : list jptr) :
  cnt a (h1 ++ h2) = (cnt a h1 + cnt a h2)%nat.
Proof. unfold cnt. by rewrite List.filter_app, length_app. Qed.

Lemma cnt_le_length (a : positive) (h : list jptr) : (cnt a h <= length h)%nat.
Proof. unfold cnt. apply List.filter_length_le. Qed.

Lemma cnt_cons_same (a : positive) (h : list jptr) : cnt a (Ptr a :: h) = S (cnt a h).
Proof. unfold cnt. simpl. by rewrite bool_decide_eq_true_2. Qed.

Lemma cnt_cons_other (a : positive) (p : jptr) (h : list jptr) :
  p <> Ptr a -> cnt a (p :: h) = cnt a h.
Proof. intros Hp. unfold cnt. simpl. by rewrite bool_decide_eq_false_2. Qed.

Lemma cnt_filter_is_event (a : positive) (q : list jptr) :
  cnt a (List.filter is_event q) = cnt a q.
Proof.
  induction q as [|p q IH]; [reflexivity|]. simpl.
  destruct p as [| |b]; simpl.
  - by rewrite cnt_cons_other.
  - by rewrite cnt_cons_other.
  - destruct (decide (b = a)) as [->|Hne].
    + by rewrite !cnt_cons_same, IH.
    + rewrite !cnt_cons_other by congruence. exact IH.
Qed.

Lemma holds_incref (n : nat) (h : list jptr) (m0 m : jstore) (a : positive) :
  roomy n m0 -> holds h m0 m -> (length h < n)%nat ->
  holds (h ++ [Ptr a]) m0 (json_incref (Ptr a) m).
Proof.
  intros Hroom [Hexit Hheap] Hlen. unfold json_incref.
  pose proof (Hheap a) as Ha.
  destruct (heap m0 !! a) as [c|] eqn:Hc; simpl in Ha; rewrite Ha.
  - destruct (Hroom a c Hc) as [H1 H2]. pose proof (cnt_le_length a h). simpl.
    destruct (Z.eqb_spec (refcount c + Z.of_nat (cnt a h)) SIZE_MAX) as [Heq|_]; [lia|].
    split; [exact Hexit|]. intros b. simpl.
    destruct (decide (a = b)) as [<-|Hne].
    + rewrite lookup_insert_eq, Hc. simpl. rewrite cnt_app.
      replace (cnt a [Ptr a]) with 1%nat by (symmetry; apply (cnt_cons_same a [])).
      f_equal. f_equal. lia.
    + rewrite lookup_insert_ne by done. rewrite Hheap, cnt_app.
      replace (cnt b [Ptr a]) with 0%nat
        by (symmetry; apply (cnt_cons_other b (Ptr a) []); congruence).
      by rewrite Nat.add_0_r.
  - split; [exact Hexit|]. intros b. rewrite Hheap, cnt_app.
    destruct (decide (a = b)) as [<-|Hne].
    + by rewrite Hc.
    + replace (cnt b [Ptr a]) with 0%nat
        by (symmetry; apply (cnt_cons_other b (Ptr a) []); congruence).
      by rewrite Nat.add_0_r.
Qed.

Lemma holds_decref (n : nat) (h : list jptr) (m0 m : jstore) (a : positive) :
  roomy n m0 -> holds (Ptr a :: h) m0 m -> (length (Ptr a :: h) <= n)%nat ->
  holds h m0 (json_decref (Ptr a) m).
Proof.
  intros Hroom [Hexit Hheap] Hlen. unfold json_decref.
  pose proof (Hheap a) as Ha. rewrite cnt_cons_same in Ha.
  destruct (heap m0 !! a) as [c|] eqn:Hc; simpl in Ha; rewrite Ha.
  - destruct (Hroom a c Hc) as [H1 H2]. pose proof (cnt_le_length a h).
    simpl in Hlen. simpl. unfold SIZE_MAX in *.
    destruct (Z.eqb_spec (refcount c + Z.of_nat (S (cnt a h))) (2 ^ 64 - 1)) as [Heq|_]; [lia|].
    replace ((refcount c + Z.of_nat (S (cnt a h)) - 1) mod 2 ^ 64)
      with (refcount c + Z.of_nat (cnt a h)) by (rewrite Z.mod_small; lia).
    destruct (Z.eqb_spec (refcount c + Z.of_nat (cnt a h)) 0) as [Heq|_]; [lia|].
    split; [exact Hexit|]. intros b. simpl.
    destruct (decide (a = b)) as [<-|Hne].
    + by rewrite lookup_insert_eq, Hc.
    + rewrite lookup_insert_ne by done. rewrite Hheap.
      by rewrite cnt_cons_other by congruence.
  - split; [exact Hexit|]. intros b. rewrite Hheap.
    destruct (decide (a = b)) as [<-|Hne].
    + by rewrite Hc.
    + by rewrite cnt_cons_other by congruence.
Qed.

Lemma holds_release (n : nat) (b : list jptr) :
  forall (rest : list jptr) (m0 m : jstore),
  roomy n m0 -> Forall (fun p => is_event p = true) b ->
  holds (b ++ rest) m0 m -> (length (b ++ rest) <= n)%nat ->
  holds rest m0 (fold_left (fun m' p => json_decref p m') b m).
Proof.
  induction b as [|p b IH]; intros rest m0 m Hroom Hb Hh Hlen; simpl; [exact Hh|].
  apply Forall_cons in Hb as [Hp Hb]. destruct p as [| |a]; try discriminate.
  apply IH; try assumption.
  - by apply (holds_decref n).
  - simpl in Hlen. lia.
Qed.

Lemma holds_queue_unref (n : nat) (q : list jptr) :
  forall (m0 m : jstore),
  roomy n m0 -> holds (List.filter is_event q) m0 m ->
  (length (List.filter is_event q) <= n)%nat ->
  holds [] m0 (g_async_queue_unref q m).
Proof.
  unfold g_async_queue_unref.
  induction q as [|p q IH]; intros m0 m Hroom Hh Hlen; simpl; [exact Hh|].
  destruct p as [| |a]; simpl in *.
  - by apply IH.
  - by apply IH.
  - apply IH; [assumption| |lia]. by apply (holds_decref n).
Qed.

(** What a step of the thread does to what the plugin holds: nothing,
    except at the send block, where the batch goes and is released. *)
Lemma hdlr_step_held (a : answers) (s : sys) :
  track_inv s ->
  (h_pc (thr s) <> L601 ->
     held (hdlr_step a s) = held s /\
     store (glob (hdlr_step a s)) = store (glob s)) /\
  (h_pc (thr s) = L601 ->
     held s = batch_of (h_output (thr s)) ++ held (hdlr_step a s) /\
     store (glob (hdlr_step a s))
       = json_decref_output (h_output (thr s)) (store (glob s))).
Proof.
  intros (Hq & Hb & Hpc). unfold held, in_hand, hdlr_step.
  destruct (h_pc (thr s)) eqn:Epc.
  - split; [intros _|discriminate]. unfold hdlr_test. by destruct (_ && _).
  - split; [intros _|discriminate].
    unfold hdlr_pop. destruct (events (glob s)) as [|p q] eqn:Eq.
    { by rewrite Epc, Eq. }
    apply not_elem_of_cons in Hq as [Hp Hq].
    destruct (decide (p = exit_event)) as [->|Hne]; simpl; [done|].
    by destruct p.
  - split; [intros _|discriminate].
    destruct Hpc as [Hev Hout]. unfold hdlr_collect.
    destruct (h_event (thr s)) as [| |e] eqn:Ee; try discriminate.
    destruct (group_events (glob s)) eqn:Eg; simpl.
    + assert (Happ : exists l,
                match h_output (thr s) with ONull => OArray [] | o' => o' end = OArray l /\
                batch_of (h_output (thr s)) = l).
      { destruct Hout as [->|[[l ->] _]]; by eexists. }
      destruct Happ as (l & -> & ->). simpl. by destruct (_ =? _).
    + destruct Hout as [->|[_ ?]]; [|congruence]. done.
  - split; [intros _|discriminate].
    destruct Hpc as [[l Ho] Hg]. unfold hdlr_try_pop.
    destruct (events (glob s)) as [|p q] eqn:Eq; simpl; [done|].
    apply not_elem_of_cons in Hq as [Hp Hq].
    destruct (decide (p = NULL)) as [->|_]; [done|].
    destruct (decide (p = exit_event)) as [->|Hne]; [done|].
    destruct p; try congruence. simpl. by rewrite <- app_assoc.
  - split; [congruence|intros _]. unfold hdlr_send.
    by destruct (negb (stopping (glob s))); [destruct (a_dumps a)|].
  - split; [intros _|discriminate]. by rewrite Epc.
Qed.

Lemma holds_nothing (m0 m : jstore) : holds [] m0 m -> m = m0.
Proof.
  intros [Hexit Hheap]. destruct m as [hp e], m0 as [hp0 e0]. simpl in *.
  subst e. f_equal. apply map_eq. intros a. rewrite Hheap.
  destruct (hp0 !! a) as [[rc v]|]; simpl; [|reflexivity].
  by rewrite Z.add_0_r.
Qed.

Lemma three_events_roomy (n : nat) : (n <= 1000)%nat -> roomy n three_events.
Proof.
  intros Hn a c H. unfold three_events in H. simpl in H.
  apply lookup_insert_Some in H as [[_ <-]|[_ H]]; [simpl; unfold SIZE_MAX; lia|].
  apply lookup_insert_Some in H as [[_ <-]|[_ H]]; [simpl; unfold SIZE_MAX; lia|].
  apply lookup_insert_Some in H as [[_ <-]|[_ H]]; [simpl; unfold SIZE_MAX; lia|].
  by rewrite lookup_empty in H.
Qed.

(** ** Requests of the Admin API *)

Lemma validate_codes (request : json) (params : list janus_json_parameter)
    (missing_code invalid_code : Z) :
  (janus_validate_json_object request params missing_code invalid_code).1 = 0 \/
  (janus_validate_json_object request params missing_code invalid_code).1 = missing_code \/
  (janus_validate_json_object request params missing_code invalid_code).1 = invalid_code.
Proof.
  induction params as [|p params IH]; [by left|].
  cbn [janus_validate_json_object].
  destruct (json_object_get (Some request) (pname p)) as [v|].
  - destruct (param_type_ok (jtype p) v); [exact IH|]. right. by right.
  - destruct (_ =? _); [exact IH|]. right. by left.
Qed.

Lemma validate_cause (request : json) (params : list janus_json_parameter)
    (missing_code invalid_code : Z) :
  (janus_validate_json_object request params missing_code invalid_code).2 = ""%string \/
  In (janus_validate_json_object request params missing_code invalid_code).2
     (map pname params).
Proof.
  induction params as [|p params IH]; [by left|].
  cbn [janus_validate_json_object].
  destruct (json_object_get (Some request) (pname p)) as [v|].
  - destruct (param_type_ok (jtype p) v).
    + destruct IH as [IH|IH]; [by left|right; by right].
    + right. by left.
  - destruct (_ =? _).
    + destruct IH as [IH|IH]; [by left|right; by right].
    + right. by left.
Qed.

(** The names of both parameter tables are ASCII, so the cause of a
    validation error always makes a JSON string. *)
Lemma validate_cause_is_utf8 (request : json) (params : list janus_json_parameter)
    (missing_code invalid_code : Z) :
  params = request_parameters \/ params = tweak_parameters ->
  utf8_check_string
    (janus_validate_json_object request params missing_code invalid_code).2 = true.
Proof.
  intros Hp.
  pose proof (validate_cause request params missing_code invalid_code) as Hin.
  set (cause := (janus_validate_json_object request params missing_code invalid_code).2)
    in *.
  clearbody cause. destruct Hin as [->|Hin]; [reflexivity|].
  destruct Hp as [-> | ->]; simpl in Hin.
  - destruct Hin as [<-|[]]. reflexivity.
  - destruct Hin as [<-|[<-|[]]]; reflexivity.
Qed.

(** X6. A request changes all it asks for or nothing. For every request
    the handler gives one of three answers: none at all, when the plugin
    is stopping or not initialised; an error object with code 411, 412 or
    413; or the success object. The error object carries the cause as its
    [error] string, except that an unknown request whose message is not
    valid UTF-8, as when the 512 bytes of [error_cause] end inside a
    character, is answered with [error_code] 411 alone. With no answer or
    an error neither the grouping flag nor the events mask has changed,
    also when only one of the two elements of a tweak was at fault. Queue,
    store, flags and format are never touched. *)
Theorem handle_request_all_or_nothing (edit_mask : option string -> Z -> Z)
    (request : json) (g : plugin) (mask : Z) :
  let resp := (janus_rabbitmqevh_handle_request edit_mask request g mask).1.1 in
  let g' := (janus_rabbitmqevh_handle_request edit_mask request g mask).1.2 in
  let mask' := (janus_rabbitmqevh_handle_request edit_mask request g mask).2 in
  (events g' = events g /\ store g' = store g /\ initialized g' = initialized g /\
   stopping g' = stopping g /\ json_format g' = json_format g) /\
  ((resp = None /\ stopping g || negb (initialized g) = true /\
    g' = g /\ mask' = mask) \/
   (exists code,
      (code = 411 \/ code = 412 \/ code = 413) /\
      ((exists cause,
          utf8_check_string cause = true /\
          resp = Some (JObject [("error_code"%string, JInteger code);
                                ("error"%string, JString cause)])) \/
       (code = 411 /\
        resp = Some (JObject [("error_code"%string, JInteger 411)]))) /\
      stopping g || negb (initialized g) = false /\
      g' = g /\ mask' = mask) \/
   (resp = Some (JObject [("result"%string, JInteger 200)]) /\
    stopping g || negb (initialized g) = false /\
    (g' = g \/ exists b, g' = set_group_events b g))).
Proof.
  cbv zeta. unfold janus_rabbitmqevh_handle_request.
  destruct (stopping g || negb (initialized g)).
  { split; [repeat split|]. left. repeat split. }
  pose proof (validate_codes request request_parameters
                JANUS_RABBITMQEVH_ERROR_MISSING_ELEMENT
                JANUS_RABBITMQEVH_ERROR_INVALID_ELEMENT) as Hc1.
  pose proof (validate_cause_is_utf8 request request_parameters
                JANUS_RABBITMQEVH_ERROR_MISSING_ELEMENT
                JANUS_RABBITMQEVH_ERROR_INVALID_ELEMENT (or_introl eq_refl)) as Hu1.
  destruct (janus_validate_json_object request request_parameters _ _) as [c1 e1].
  cbn [fst snd] in Hc1, Hu1.
  destruct (Z.eqb_spec c1 0) as [->|Hn1]; cbn [negb].
  2:{ split; [repeat split|]. right. left. exists c1. cbn [fst snd].
      unfold plugin_response, json_string. rewrite Hu1.
      destruct (Z.eqb_spec c1 0); [contradiction|].
      split; [destruct Hc1 as [?|[->| ->]]; [contradiction|by right; left|by right; right]|].
      split; [|done]. left. by exists e1. }
  destruct (strcaseeq _ _).
  2:{ clear Hu1. split; [repeat split|]. right. left.
      exists JANUS_RABBITMQEVH_ERROR_INVALID_REQUEST. cbn [fst snd].
      split; [by left|]. split; [|done].
      unfold plugin_response, json_string.
      change (JANUS_RABBITMQEVH_ERROR_INVALID_REQUEST =? 0) with false. cbv iota.
      destruct (utf8_check_string _) eqn:Hu; [left|by right].
      eexists. split; [exact Hu|reflexivity]. }
  pose proof (validate_codes request tweak_parameters
                JANUS_RABBITMQEVH_ERROR_MISSING_ELEMENT
                JANUS_RABBITMQEVH_ERROR_INVALID_ELEMENT) as Hc2.
  pose proof (validate_cause_is_utf8 request tweak_parameters
                JANUS_RABBITMQEVH_ERROR_MISSING_ELEMENT
                JANUS_RABBITMQEVH_ERROR_INVALID_ELEMENT (or_intror eq_refl)) as Hu2.
  destruct (janus_validate_json_object request tweak_parameters _ _) as [c2 e2].
  cbn [fst snd] in Hc2, Hu2.
  destruct (Z.eqb_spec c2 0) as [->|Hn2]; cbn [negb].
  2:{ split; [repeat split|]. right. left. exists c2. cbn [fst snd].
      unfold plugin_response, json_string. rewrite Hu2.
      destruct (Z.eqb_spec c2 0); [contradiction|].
      split; [destruct Hc2 as [?|[->| ->]]; [contradiction|by right; left|by right; right]|].
      split; [|done]. left. by exists e2. }
  destruct (json_object_get (Some request) "grouping") as [v|]; cbn [fst snd].
  - split; [repeat split|]. right. right. split; [reflexivity|]. split; [reflexivity|].
    right. by eexists.
  - split; [repeat split|]. right. right. split; [reflexivity|]. split; [reflexivity|]. by left.
Qed.

(** Both error forms occur. A short unknown request is answered with its
    name in the [error] string; one whose name puts a two-byte character
    across the end of the 511 bytes that fit is answered with the code
    alone. *)
Example unknown_request_answers :
  (janus_rabbitmqevh_handle_request (fun _ mask => mask)
     (JObject [("request"%string, JString "ping")])
     (init_plugin indented true three_events) 0).1.1
  = Some (JObject [("error_code"%string, JInteger 411);
                   ("error"%string, JString "Unknown request 'ping'")]) /\
  (janus_rabbitmqevh_handle_request (fun _ mask => mask)
     (JObject [("request"%string,
                JString (string_of_list_ascii (repeat "a"%char 493) ++
                         String (ascii_of_N 195) (String (ascii_of_N 169) "")))])
     (init_plugin indented true three_events) 0).1.1
  = Some (JObject [("error_code"%string, JInteger 411)]).
Proof. split; vm_compute; reflexivity. Qed.

(** X7. What a well-formed tweak does. The plugin is running and the
    request is an object whose [request] is the word tweak in any mix of
    upper and lower case, whose [events], if there, is a string and whose
    [grouping], if there, is a boolean. Then the answer is the success
    object, the grouping flag is what [grouping] says and stays as it is
    without it, and the events mask is edited with the string of [events]
    and stays as it is without it. *)
Theorem tweak_request_applies (edit_mask : option string -> Z -> Z)
    (kv : list (string * json)) (name : string) (g : plugin) (mask : Z) :
  stopping g || negb (initialized g) = false ->
  assoc_get "request" kv = Some (JString name) ->
  strcaseeq name "tweak" = true ->
  (assoc_get "events" kv = None \/ exists e, assoc_get "events" kv = Some (JString e)) ->
  (assoc_get "grouping" kv = None \/ assoc_get "grouping" kv = Some JTrue \/
   assoc_get "grouping" kv = Some JFalse) ->
  janus_rabbitmqevh_handle_request edit_mask (JObject kv) g mask =
    (Some (JObject [("result"%string, JInteger 200)]),
     match assoc_get "grouping" kv with
     | Some v => set_group_events (match v with JTrue => true | _ => false end) g
     | None => g
     end,
     match assoc_get "events" kv with
     | Some (JString e) => edit_mask (Some e) mask
     | _ => mask
     end).
Proof.
  intros Hrun Hreq Hname Hev Hgr.
  unfold janus_rabbitmqevh_handle_request. rewrite Hrun. simpl.
  rewrite Hreq. simpl. rewrite Hname.
  destruct Hev as [He|[e He]]; rewrite He;
    destruct Hgr as [Hg|[Hg|Hg]]; rewrite Hg; reflexivity.
Qed.

Lemma tweak_request_applies_witness :
  janus_rabbitmqevh_handle_request (fun _ mask => mask + 1)
    (JObject [("request"%string, JString "TwEaK"); ("grouping"%string, JFalse);
              ("events"%string, JString "all")])
    (init_plugin indented true three_events) 0 =
  (Some (JObject [("result"%string, JInteger 200)]),
   init_plugin indented false three_events, 1).
Proof.
  apply (tweak_request_applies (fun _ mask => mask + 1)
           [("request"%string, JString "TwEaK"); ("grouping"%string, JFalse);
            ("events"%string, JString "all")] "TwEaK").
  - reflexivity.
  - reflexivity.
  - reflexivity.
  - right. by eexists.
  - right. by right.
Defined.

(** ** The outcome of the handshake *)

(** X8. The handshake returns 0 exactly when every step it checks goes
    through, and -1 otherwise; nothing else comes back. Either way
    [rmq_conn] is the connection object made at the start. After a 0 the
    channel is 1, the exchange is the configured one and no fatal line was
    logged; after a -1 exactly one fatal line was logged and it is the
    last thing the function did. *)
Theorem connect_result (cfg : config) (r : amqp_answers) (s : session) :
  let ret := (janus_rabbitmqevh_connect cfg r s).1 in
  let s' := (janus_rabbitmqevh_connect cfg r s).2 in
  ret = (if handshake_ok cfg r then 0 else -1) /\
  rmq_conn s' = r_new_connection r /\
  (handshake_ok cfg r = true ->
     rmq_channel s' = 1 /\ rmq_exchange s' = exchange cfg /\
     List.filter is_fatal (calls s') = []) /\
  (handshake_ok cfg r = false ->
     exists what, last (calls s') = Some (CFatal what) /\
                  List.filter is_fatal (calls s') = [CFatal what]).
Proof.
  cbv zeta. unfold handshake_ok.
  connect_cases cfg r; repeat split; intros; try discriminate; try reflexivity;
    by eexists.
Qed.

Lemma connect_result_witness :
  exists what,
    last (calls (janus_rabbitmqevh_connect tls_config cacert_rejected no_session).2)
      = Some (CFatal what).
Proof.
  destruct (connect_result tls_config cacert_rejected no_session) as (_ & _ & _ & H).
  destruct (H eq_refl) as [what [Hlast _]]. by exists what.
Defined.

(** X9. Without [ssl_enable] the handshake makes no call on a TLS socket,
    whatever certificate, key and verification settings are configured;
    with it, it never makes a plain TCP socket. *)
Theorem connect_socket_kind (cfg : config) (r : amqp_answers) (s : session) :
  let made := calls (janus_rabbitmqevh_connect cfg r s).2 in
  (ssl_enable cfg = false -> List.filter is_tls_call made = []) /\
  (ssl_enable cfg = true -> ~ In CTcpSocketNew made).
Proof.
  cbv zeta. split; intros Hssl.
  - connect_cases cfg r; try discriminate; reflexivity.
  - connect_cases cfg r; try discriminate; simpl; intuition discriminate.
Qed.

Lemma connect_socket_kind_witness :
  List.filter is_tls_call
    (calls (janus_rabbitmqevh_connect
       {| ssl_enable := false; ssl_verify_peer := true; ssl_verify_hostname := true;
          ssl_cacert_file := Some "ca.pem"%string;
          ssl_cert_file := Some "client.pem"%string;
          ssl_key_file := Some "client.key"%string;
          rmqhost := "localhost"; rmqport := 5672;
          vhost := "/"; username := "guest"; password := "guest";
          heartbeat := 0; exchange := None; exchange_type := "fanout";
          route_key := "janus-events"; declare_outgoing_queue := true |}
       broker_fine no_session).2) = [].
Proof.
  apply connect_socket_kind. reflexivity.
Defined.

Lemma connect_fail_fast_witness :
  (janus_rabbitmqevh_connect tls_config
     {| r_new_connection := Some 9%positive; r_ssl_socket_new := true;
        r_set_cacert := AMQP_STATUS_OK; r_set_key := AMQP_STATUS_OK;
        r_tcp_socket_new := true; r_socket_open := AMQP_STATUS_OK;
        r_login := 2; r_channel_open := AMQP_RESPONSE_NORMAL;
        r_exchange_declare := AMQP_RESPONSE_NORMAL;
        r_queue_declare := AMQP_RESPONSE_NORMAL |} no_session).1 = -1.
Proof.
  destruct (connect_fail_fast tls_config
     {| r_new_connection := Some 9%positive; r_ssl_socket_new := true;
        r_set_cacert := AMQP_STATUS_OK; r_set_key := AMQP_STATUS_OK;
        r_tcp_socket_new := true; r_socket_open := AMQP_STATUS_OK;
        r_login := 2; r_channel_open := AMQP_RESPONSE_NORMAL;
        r_exchange_declare := AMQP_RESPONSE_NORMAL;
        r_queue_declare := AMQP_RESPONSE_NORMAL |} no_session)
    as (_ & _ & _ & _ & H & _).
  apply H. discriminate.
Defined.

(** ** The heartbeat thread from turn to turn *)

Lemma hrtbt_loop_passing (cfg : config) (pre : list hb_reads) :
  forall s, Forall (fun rd => passes_test rd = true) pre ->
  (hrtbt_loop cfg pre s).2 = false.
Proof.
  induction pre as [|rd pre IH]; intros s Hpre; simpl; [reflexivity|].
  apply Forall_cons in Hpre as [Hrd Hpre]. unfold passes_test in Hrd. rewrite Hrd.
  destruct (hrtbt_body cfg rd s) as [s1 ls].
  specialize (IH s1 Hpre). by destruct (hrtbt_loop cfg pre s1) as [[s2 ls'] gone].
Qed.

(** X10. The heartbeat thread leaves at the first turn on which it finds
    [initialized] clear or [stopping] set at the loop test: what it has
    done by then is all it ever does, without a further poll, teardown,
    reconnect or sleep, whatever the later turns would have read. *)
Theorem hrtbt_leaves_at_failed_test (cfg : config) (pre post : list hb_reads)
    (rd : hb_reads) (s : session) :
  Forall (fun rd' => passes_test rd' = true) pre ->
  passes_test rd = false ->
  hrtbt_loop cfg (pre ++ rd :: post) s = ((hrtbt_loop cfg pre s).1, true).
Proof.
  revert s. induction pre as [|rd' pre IH]; intros s Hpre Hrd; simpl.
  - unfold passes_test in Hrd. by rewrite Hrd.
  - apply Forall_cons in Hpre as [Hrd' Hpre]. unfold passes_test in Hrd'. rewrite Hrd'.
    destruct (hrtbt_body cfg rd' s) as [s1 ls].
    rewrite (IH s1 Hpre Hrd).
    by destruct (hrtbt_loop cfg pre s1) as [[s2 ls'] gone].
Qed.

(** X11. As long as every poll succeeds, times out or reports the TLS
    status, the thread leaves the session alone: over any number of such
    turns it destroys no connection, runs no handshake and does nothing
    but poll under the lock and sleep the same wait, so [rmq_conn], channel
    and exchange are the ones it started with. *)
Theorem hrtbt_steady_state (cfg : config) (rds : list hb_reads) (s : session) :
  Forall (fun rd => passes_test rd = true) rds ->
  Forall (fun rd => hard_error (rd_res rd) = false) rds ->
  hrtbt_loop cfg rds s =
    (s,
     concat (map (fun rd => poll_actions (rd_res rd) ++
                            [HSleep (to_gulong (waiting_usec (heartbeat cfg)))]) rds),
     false).
Proof.
  intros Hpass Hsoft. induction rds as [|rd rds IH]; simpl; [reflexivity|].
  apply Forall_cons in Hpass as [Hrd Hpass]. apply Forall_cons in Hsoft as [Hs Hsoft].
  unfold passes_test in Hrd. rewrite Hrd, hrtbt_body_steady by assumption.
  by rewrite (IH Hpass Hsoft).
Qed.

Lemma hb_lock_scan_app (h : bool) (l1 l2 : list hb_label) :
  hb_lock_scan h (l1 ++ l2) =
    match hb_lock_scan h l1 with
    | Some h' => hb_lock_scan h' l2
    | None => None
    end.
Proof.
  revert h. induction l1 as [|l l1 IH]; intros h; simpl; [reflexivity|].
  destruct l, h; simpl; try reflexivity; apply IH.
Qed.

Lemma hrtbt_body_lock (cfg : config) (rd : hb_reads) (s : session) :
  hb_lock_scan false (hrtbt_body cfg rd s).2 = Some false.
Proof.
  unfold hrtbt_body.
  destruct (negb (rd_res rd =? AMQP_STATUS_OK)); [|reflexivity].
  destruct (_ || _); [reflexivity|].
  destruct (negb (rd_stopping_again rd)).
  - destruct (janus_rabbitmqevh_connect cfg (rd_amqp rd) s) as [result s1]. simpl.
    by destruct (rmq_conn s).
  - simpl. by destruct (rmq_conn s).
Qed.

(** X12. The heartbeat thread holds the mutex for releasing buffers and
    polling and for nothing else: on every turn it takes the lock once and
    gives it back before it logs, destroys the connection, runs the
    handshake or sleeps, so that it never sleeps or reconnects under the
    lock. *)
Theorem hrtbt_lock_only_around_poll (cfg : config) (rds : list hb_reads) (s : session) :
  hb_lock_scan false (hrtbt_loop cfg rds s).1.2 = Some false.
Proof.
  revert s. induction rds as [|rd rds IH]; intros s; simpl; [reflexivity|].
  destruct (_ && _); [|reflexivity].
  pose proof (hrtbt_body_lock cfg rd s) as Hb.
  destruct (hrtbt_body cfg rd s) as [s1 ls]. simpl in Hb.
  specialize (IH s1). destruct (hrtbt_loop cfg rds s1) as [[s2 ls'] gone]. simpl in *.
  by rewrite hb_lock_scan_app, Hb.
Qed.

(** X13. A hard error met while [stopping] is already set: the thread
    destroys the connection, does not reconnect and does not sleep, and
    [rmq_conn] still points to the connection it destroyed. Destroy, which
    runs after the thread is joined, hands that same connection to
    [amqp_destroy_connection] once more. *)
Theorem hrtbt_teardown_while_stopping (cfg : config) (rd : hb_reads) (s : session)
    (c : positive) :
  hard_error (rd_res rd) = true -> rd_stopping_again rd = true ->
  rmq_conn s = Some c ->
  let out := hrtbt_body cfg rd s in
  out.1 = s /\
  destroyed out.2 = [c] /\ connects out.2 = [] /\ sleeps out.2 = [] /\
  destroyed (out.2 ++ destroy_connection out.1) = [c; c].
Proof.
  intros Hhard Hstop Hc out. subst out.
  rewrite hrtbt_body_hard_stopping by assumption. simpl.
  unfold teardown_actions, destroy_connection. rewrite Hc. done.
Qed.

Lemma hrtbt_leaves_at_failed_test_witness :
  hrtbt_loop tls_config
    ([turn AMQP_STATUS_TIMEOUT broker_fine] ++
     {| rd_initialized := true; rd_stopping := true; rd_res := -7;
        rd_stopping_again := true; rd_amqp := broker_fine |} ::
     [turn (-7) broker_fine]) session_up
  = ((hrtbt_loop tls_config [turn AMQP_STATUS_TIMEOUT broker_fine] session_up).1, true).
Proof.
  apply hrtbt_leaves_at_failed_test.
  - repeat constructor.
  - reflexivity.
Defined.

Lemma hrtbt_steady_state_witness :
  (hrtbt_loop tls_config
     [turn AMQP_STATUS_OK broker_fine; turn AMQP_STATUS_TIMEOUT broker_fine;
      turn AMQP_STATUS_SSL_ERROR broker_fine] session_up).1.1 = session_up.
Proof.
  rewrite (hrtbt_steady_state tls_config
     [turn AMQP_STATUS_OK broker_fine; turn AMQP_STATUS_TIMEOUT broker_fine;
      turn AMQP_STATUS_SSL_ERROR broker_fine] session_up).
  - reflexivity.
  - repeat constructor.
  - repeat constructor.
Defined.

Lemma hrtbt_teardown_while_stopping_witness :
  destroyed
    ((hrtbt_body tls_config
        {| rd_initialized := true; rd_stopping := false; rd_res := -7;
           rd_stopping_again := true; rd_amqp := broker_fine |} session_up).2 ++
     destroy_connection
       (hrtbt_body tls_config
          {| rd_initialized := true; rd_stopping := false; rd_res := -7;
             rd_stopping_again := true; rd_amqp := broker_fine |} session_up).1)
  = [5%positive; 5%positive].
Proof.
  apply (hrtbt_teardown_while_stopping tls_config
           {| rd_initialized := true; rd_stopping := false; rd_res := -7;
              rd_stopping_again := true; rd_amqp := broker_fine |} session_up 5);
    reflexivity.
Defined.

(** ** Initialisation *)

Lemma connect_ret (cfg : config) (r : amqp_answers) (s : session) :
  (janus_rabbitmqevh_connect cfg r s).1 = (if handshake_ok cfg r then 0 else -1) /\
  (handshake_ok cfg r = true -> rmq_channel (janus_rabbitmqevh_connect cfg r s).2 = 1).
Proof.
  unfold handshake_ok.
  connect_cases cfg r; split; intros; try discriminate; reflexivity.
Qed.

(** X20. [janus_rabbitmqevh_init] returns 0 or -1, and 0 exactly when the
    plugin is not stopping, a configuration path is given, the item
    [enabled] is true, there is a [route_key], the handshake goes through,
    the handler thread starts and, with a heartbeat above 0, the heartbeat
    thread starts too. On success the globals are those the executions
    above start from: [initialized] set, an empty queue, the handler thread
    at the head of its loop; the heartbeat thread runs exactly when the
    heartbeat is above 0, and the session is on channel 1. *)
Theorem init_succeeds_iff (h : init_host) (path : option string) (g : plugin)
    (k : carried) (s : session) :
  let out := janus_rabbitmqevh_init h path g k s in
  (i_ret out = 0 \/ i_ret out = -1) /\
  (i_ret out = 0 <->
     stopping g = false /\ path <> None /\
     (exists v, cfg_item h "enabled" = Some v /\ janus_is_true h v = true) /\
     exists cfg, init_config h k = Some cfg /\
       handshake_ok cfg (broker h) = true /\
       handler_thread_starts h = true /\
       (0 < heartbeat cfg -> heartbeat_thread_starts h = true)) /\
  (i_ret out = 0 ->
     i_plugin out = init_plugin (json_format (i_plugin out))
                      (group_events (i_plugin out)) (store g) /\
     i_handler out = Some (thr (hdlr_start (i_plugin out))) /\
     (exists cfg, i_cfg out = Some cfg /\
                  (i_heartbeat out = true <-> 0 < heartbeat cfg)) /\
     rmq_channel (i_session out) = 1).
Proof.
  cbv zeta. unfold janus_rabbitmqevh_init.
  destruct (stopping g) eqn:Hstop.
  { simpl. split; [by right|]. split; [|discriminate].
    split; [discriminate|]. by intros (? & _). }
  destruct path as [p|].
  2:{ simpl. split; [by right|]. split; [|discriminate].
      split; [discriminate|]. by intros (_ & ? & _). }
  destruct (cfg_item h "enabled") as [v|] eqn:Hen.
  2:{ simpl. split; [by right|]. split; [|discriminate].
      split; [discriminate|]. by intros (_ & _ & (? & ? & _) & _). }
  destruct (janus_is_true h v) eqn:Hv.
  2:{ simpl. split; [by right|]. split; [|discriminate].
      split; [discriminate|]. intros (_ & _ & (v' & Hv' & Ht) & _). congruence. }
  destruct (init_config h k) as [cfg|] eqn:Hcfg.
  2:{ simpl. split; [by right|]. split; [|discriminate].
      split; [discriminate|]. by intros (_ & _ & _ & (? & ? & _)). }
  destruct (connect_ret cfg (broker h) s) as [Hret Hch].
  destruct (janus_rabbitmqevh_connect cfg (broker h) s) as [result s1].
  simpl in Hret, Hch. subst result.
  destruct (handshake_ok cfg (broker h)) eqn:Hok; simpl.
  2:{ split; [by right|]. split; [|discriminate].
      split; [discriminate|]. intros (_ & _ & _ & (cfg' & Hc' & ? & _)). congruence. }
  destruct (handler_thread_starts h) eqn:Hth; simpl.
  2:{ split; [by right|]. split; [|discriminate].
      split; [discriminate|]. by intros (_ & _ & _ & (cfg' & _ & _ & ? & _)). }
  destruct (Z.ltb_spec 0 (heartbeat cfg)) as [Hhb|Hhb].
  - destruct (heartbeat_thread_starts h) eqn:Hht; simpl.
    + split; [by left|]. split.
      * split; [intros _|done]. split; [done|]. split; [done|].
        split; [by exists v|]. by exists cfg.
      * intros _. split; [done|]. split; [done|]. split; [|by apply Hch].
        exists cfg. split; [done|]. split; [done|]. by auto.
    + split; [by right|]. split; [|discriminate].
      split; [discriminate|].
      intros (_ & _ & _ & (cfg' & Hc' & _ & _ & Hx)).
      assert (cfg' = cfg) as -> by congruence. specialize (Hx Hhb). congruence.
  - split; [by left|]. split.
    + split; [intros _|done]. split; [done|]. split; [done|].
      split; [by exists v|]. exists cfg. repeat split; try done. lia.
    + intros _. split; [done|]. split; [done|]. split; [|by apply Hch].
      exists cfg. split; [done|]. split; [discriminate|lia].
Qed.

Lemma failed_connect_keeps_flag (h : init_host) (path : option string) (g : plugin)
    (k : carried) (s : session) :
  i_ret (janus_rabbitmqevh_init h path g k s) = -1 ->
  initialized g = false ->
  initialized (i_plugin (janus_rabbitmqevh_init h path g k s)) = false.
Proof.
  unfold janus_rabbitmqevh_init. intros Hret Hinit.
  destruct (stopping g); [done|]. destruct path; [|done].
  destruct (match cfg_item h "enabled" with Some v => _ | None => _ end); [|done].
  destruct (init_config h k) as [cfg|]; [|done].
  destruct (janus_rabbitmqevh_connect cfg (broker h) s) as [result s1].
  destruct (result <? 0); [done|].
  destruct (handler_thread_starts h); [|done].
  destruct (0 <? heartbeat cfg); [|done].
  by destruct (heartbeat_thread_starts h).
Qed.

(** X21. After a failed init of a plugin that was not initialised the
    plugin is inert: [initialized] is clear on every error path, also
    those that had set it before a thread failed to start; an incoming
    event is neither referenced nor queued, and a request gets no
    response. *)
Theorem failed_init_is_inert (h : init_host) (path : option string) (g : plugin)
    (k : carried) (s : session) :
  let out := janus_rabbitmqevh_init h path g k s in
  i_ret out = -1 ->
  initialized g = false ->
  initialized (i_plugin out) = false /\
  (forall e, janus_rabbitmqevh_incoming_event e (i_plugin out) = i_plugin out) /\
  (forall edit_mask request mask,
     janus_rabbitmqevh_handle_request edit_mask request (i_plugin out) mask
     = (None, i_plugin out, mask)).
Proof.
  cbv zeta. intros Hret Hinit.
  pose proof (failed_connect_keeps_flag h path g k s Hret Hinit) as Hoff.
  split; [exact Hoff|]. split.
  - intros e. unfold janus_rabbitmqevh_incoming_event. rewrite Hoff.
    by rewrite orb_true_r.
  - intros edit_mask request mask. unfold janus_rabbitmqevh_handle_request.
    rewrite Hoff. by rewrite orb_true_r.
Qed.

Lemma failed_init_is_inert_witness :
  let h := host_with items_fine broker_fine true false in
  let out := janus_rabbitmqevh_init h (Some "/etc/janus"%string)
               (before_init three_events) initial_statics no_session in
  i_ret out = -1 /\ i_handler out <> None /\
  forall e, janus_rabbitmqevh_incoming_event e (i_plugin out) = i_plugin out.
Proof.
  cbv zeta. split; [by vm_compute|]. split; [by vm_compute|].
  apply (failed_init_is_inert (host_with items_fine broker_fine true false)
           (Some "/etc/janus"%string) (before_init three_events) initial_statics
           no_session); by vm_compute.
Defined.

Lemma inert_plugin_stays (g : plugin) (t : hdlr) (tr : list label) (xs : list action) :
  initialized g = false -> events g = [] -> h_pc t = L569 ->
  exec {| glob := g; thr := t; trace := tr |} xs = {| glob := g; thr := t; trace := tr |}.
Proof.
  intros Hi Hq Hpc. induction xs as [|x xs IH]; [reflexivity|].
  simpl. replace (act {| glob := g; thr := t; trace := tr |} x)
    with {| glob := g; thr := t; trace := tr |}; [exact IH|].
  destruct x as [a|p|r| |]; simpl.
  - unfold hdlr_step. simpl. rewrite Hpc. unfold hdlr_pop. simpl. by rewrite Hq.
  - unfold with_glob, janus_rabbitmqevh_incoming_event. simpl.
    by rewrite Hi, orb_true_r.
  - unfold with_glob, tweak, janus_rabbitmqevh_handle_request. simpl.
    by rewrite Hi, orb_true_r.
  - unfold with_glob, destroy_signal. simpl. by rewrite Hi.
  - rewrite Hpc. by rewrite decide_False.
Qed.

(** X25. The handler thread that init leaves behind when the heartbeat
    thread fails to start. If it makes its first test after init has
    cleared [initialized] it goes straight out of its loop, touching
    nothing. If it had made the test before, it sits in the blocking pop
    on the empty new queue and stays there whatever producers, the Admin
    API and destroy do: events are turned away, and destroy returns at its
    first line without pushing the token. *)
Theorem handler_left_behind (h : init_host) (path : option string) (g : plugin)
    (k : carried) (s : session) (t : hdlr) :
  let out := janus_rabbitmqevh_init h path g k s in
  i_ret out = -1 -> i_handler out = Some t ->
  h_pc t = L567 /\
  (forall a, hdlr_step a {| glob := i_plugin out; thr := t; trace := [] |}
             = {| glob := i_plugin out; thr := goto L630 t; trace := [] |}) /\
  (forall xs, exec {| glob := i_plugin out; thr := goto L569 t; trace := [] |} xs
              = {| glob := i_plugin out; thr := goto L569 t; trace := [] |}).
Proof.
  cbv zeta. intros Hret Ht.
  assert (H : initialized (i_plugin (janus_rabbitmqevh_init h path g k s)) = false /\
              events (i_plugin (janus_rabbitmqevh_init h path g k s)) = [] /\
              h_pc t = L567).
  { revert Hret Ht. unfold janus_rabbitmqevh_init.
    destruct (stopping g); [done|]. destruct path; [|done].
    destruct (match cfg_item h "enabled" with Some v => _ | None => _ end); [|done].
    destruct (init_config h k) as [cfg|]; [|done].
    destruct (janus_rabbitmqevh_connect cfg (broker h) s) as [result s1].
    destruct (result <? 0); [done|].
    destruct (handler_thread_starts h); [|done].
    destruct (0 <? heartbeat cfg); [|done].
    destruct (heartbeat_thread_starts h); [done|].
    simpl. by intros _ [= <-]. }
  destruct H as (Hi & Hq & Hpc). split; [exact Hpc|]. split.
  - intros a. unfold hdlr_step. simpl. rewrite Hpc. unfold hdlr_test. simpl.
    by rewrite Hi.
  - intros xs. by apply inert_plugin_stays.
Qed.

Lemma handler_left_behind_witness :
  let out := janus_rabbitmqevh_init (host_with items_fine broker_fine true false)
               (Some "/etc/janus"%string) (before_init three_events)
               initial_statics no_session in
  let t := thr (hdlr_start (set_initialized_and_queue (before_init three_events))) in
  exec {| glob := i_plugin out; thr := goto L569 t; trace := [] |}
    [AIncoming (Ptr 1); ADestroySignal; AHdlr all_well; ADestroyFinish]
  = {| glob := i_plugin out; thr := goto L569 t; trace := [] |}.
Proof.
  cbv zeta.
  destruct (handler_left_behind (host_with items_fine broker_fine true false)
              (Some "/etc/janus"%string) (before_init three_events)
              initial_statics no_session
              (thr (hdlr_start (set_initialized_and_queue (before_init three_events)))))
    as (_ & _ & H); [reflexivity|reflexivity|].
  apply H.
Defined.

(** X22. What init refuses before it gets to the broker. While stopping,
    without a path or with the handler not enabled, nothing at all is
    changed. Without a [route_key] no connection is attempted and no thread
    is started; flag, queue and store are as before, and so are exchange
    and queue declaration flag, which are read only after the
    [route_key]. *)
Theorem init_refused_before_connect (h : init_host) (path : option string)
    (g : plugin) (k : carried) (s : session) :
  let out := janus_rabbitmqevh_init h path g k s in
  let enabled :=
    match cfg_item h "enabled" with
    | Some v => janus_is_true h v
    | None => false
    end in
  (stopping g = true \/ path = None \/ enabled = false ->
     out = {| i_ret := -1; i_plugin := g; i_statics := k; i_cfg := None;
              i_session := s; i_handler := None; i_heartbeat := false |}) /\
  (cfg_item h "route_key" = None ->
     i_ret out = -1 /\ i_session out = s /\ i_cfg out = None /\
     i_handler out = None /\ i_heartbeat out = false /\
     initialized (i_plugin out) = initialized g /\
     events (i_plugin out) = events g /\
     store (i_plugin out) = store g /\
     k_exchange (i_statics out) = k_exchange k /\
     k_declare_outgoing_queue (i_statics out) = k_declare_outgoing_queue k).
Proof.
  cbv zeta. unfold janus_rabbitmqevh_init, init_config. split.
  - intros [H|[H|H]].
    + by rewrite H.
    + rewrite H. by destruct (stopping g).
    + rewrite H. destruct (stopping g); [done|]. by destruct path.
  - intros Hrk. rewrite Hrk.
    destruct (stopping g); [done|]. destruct path; [|done].
    by destruct (match cfg_item h "enabled" with Some v => _ | None => _ end).
Qed.

Lemma init_refused_before_connect_witness :
  let h := host_with items_poor broker_fine true true in
  let out := janus_rabbitmqevh_init h (Some "/etc/janus"%string)
               (before_init three_events) initial_statics session_up in
  i_ret out = -1 /\ i_session out = session_up /\ i_handler out = None.
Proof.
  cbv zeta.
  destruct (init_refused_before_connect (host_with items_poor broker_fine true true)
              (Some "/etc/janus"%string) (before_init three_events) initial_statics
              session_up) as [_ H].
  destruct H as (H1 & H2 & _ & H4 & _); [by vm_compute|]. done.
Defined.

(** X23. The fall-backs of the configuration. An absent item gives
    localhost, /, guest, guest and fanout for host, virtual host, user
    name, password and exchange type; a port that is no 16-bit number gives
    5672 and such a heartbeat gives 0 (heartbeat off), while an absent port
    or heartbeat, exchange or queue declaration item leaves the static as
    it was. Unless [ssl_enable] is true every TLS setting stays as it was:
    certificate and verification items are not even read. *)
Theorem init_config_fallbacks (h : init_host) (k : carried) (cfg : config) :
  init_config h k = Some cfg ->
  (cfg_item h "host" = None -> rmqhost cfg = "localhost"%string) /\
  (cfg_item h "vhost" = None -> vhost cfg = "/"%string) /\
  (cfg_item h "username" = None -> username cfg = "guest"%string) /\
  (cfg_item h "password" = None -> password cfg = "guest"%string) /\
  (cfg_item h "exchange_type" = None -> exchange_type cfg = "fanout"%string) /\
  (forall v, cfg_item h "port" = Some v -> janus_string_to_uint16 h v = None ->
             rmqport cfg = 5672) /\
  (forall v, cfg_item h "heartbeat" = Some v -> janus_string_to_uint16 h v = None ->
             heartbeat cfg = 0) /\
  (cfg_item h "port" = None -> rmqport cfg = k_rmqport k) /\
  (cfg_item h "heartbeat" = None -> heartbeat cfg = k_heartbeat k) /\
  (cfg_item h "exchange" = None -> exchange cfg = k_exchange k) /\
  (cfg_item h "declare_outgoing_queue" = None ->
     declare_outgoing_queue cfg = k_declare_outgoing_queue k) /\
  ((cfg_item h "ssl_enable" = None \/
    exists v, cfg_item h "ssl_enable" = Some v /\ janus_is_true h v = false) ->
     ssl_enable cfg = k_ssl_enable k /\
     ssl_verify_peer cfg = k_ssl_verify_peer k /\
     ssl_verify_hostname cfg = k_ssl_verify_hostname k /\
     ssl_cacert_file cfg = k_ssl_cacert_file k /\
     ssl_cert_file cfg = k_ssl_cert_file k /\
     ssl_key_file cfg = k_ssl_key_file k).
Proof.
  unfold init_config. destruct (cfg_item h "route_key") as [rk|]; [|done].
  intros [= <-]. cbn -[cfg_item].
  repeat match goal with |- _ /\ _ => split end.
  - by intros ->.
  - by intros ->.
  - by intros ->.
  - by intros ->.
  - by intros ->.
  - intros v -> ->. done.
  - intros v -> ->. done.
  - by intros ->.
  - by intros ->.
  - by intros ->.
  - by intros ->.
  - intros [->|(v & -> & ->)]; done.
Qed.

Lemma init_config_fallbacks_witness :
  exists cfg,
    init_config (host_with (("route_key", "janus-events")%string :: items_poor)
                   broker_fine true true) initial_statics = Some cfg /\
    rmqhost cfg = "localhost"%string /\ rmqport cfg = 5672 /\ heartbeat cfg = 0 /\
    ssl_enable cfg = false /\ ssl_cacert_file cfg = None.
Proof.
  eexists. split; [by vm_compute|].
  destruct (init_config_fallbacks
              (host_with (("route_key", "janus-events")%string :: items_poor)
                 broker_fine true true) initial_statics _ eq_refl)
    as (H1 & _ & _ & _ & _ & H6 & H7 & _ & _ & _ & _ & H12).
  split; [by apply H1|].
  split; [by apply (H6 "http"%string)|].
  split; [by apply (H7 "soon"%string)|].
  destruct H12 as (H12 & _ & _ & H15 & _); [by left|].
  split; [exact H12|exact H15].
Defined.

Lemma strcaseeq_length (a b : string) :
  strcaseeq a b = true -> String.length a = String.length b.
Proof.
  revert b. induction a as [|x a IH]; intros [|y b]; simpl; try discriminate.
  - reflexivity.
  - intros [_ H]%andb_true_iff. by rewrite (IH b H).
Qed.

Lemma init_keeps_format_unless_json (h : init_host) (path : option string)
    (g : plugin) (k : carried) (s : session) :
  stopping g = false -> path <> None ->
  match cfg_item h "enabled" with Some v => janus_is_true h v | None => false end = true ->
  json_format (i_plugin (janus_rabbitmqevh_init h path g k s)) =
    match cfg_item h "json" with
    | Some v => json_format_of v
    | None => json_format g
    end.
Proof.
  intros Hstop Hpath Hen. unfold janus_rabbitmqevh_init. rewrite Hstop, Hen.
  destruct path as [p|]; [|done].
  destruct (init_config h k) as [cfg|]; [|done].
  destruct (janus_rabbitmqevh_connect cfg (broker h) s) as [result s1].
  destruct (result <? 0); [done|].
  destruct (handler_thread_starts h); [|done].
  destruct (0 <? heartbeat cfg); [|done].
  by destruct (heartbeat_thread_starts h).
Qed.

(** X24. What init does to the serialisation flags. A call that gets past
    the enabled check with a [json] item sets them to plain (256) or
    compact (288) when the item is that word in any mix of upper and lower
    case, and to indented by three (259) for any other word, always with
    JSON_PRESERVE_ORDER set. Without the item, and in a call refused
    before that, the flags stay what they were: the indented form is the
    static initialiser, not something init falls back to. *)
Theorem json_format_modes (h : init_host) (path : option string) (g : plugin)
    (k : carried) (s : session) :
  let out := janus_rabbitmqevh_init h path g k s in
  let enabled :=
    match cfg_item h "enabled" with
    | Some v => janus_is_true h v
    | None => false
    end in
  let fmt := json_format (i_plugin out) in
  (stopping g = true \/ path = None \/ enabled = false -> fmt = json_format g) /\
  (stopping g = false -> path <> None -> enabled = true ->
   match cfg_item h "json" with
   | None => fmt = json_format g
   | Some v =>
       fmt = (if strcaseeq v "plain" then 256
              else if strcaseeq v "compact" then 288 else 259) /\
       Z.land fmt JSON_PRESERVE_ORDER = JSON_PRESERVE_ORDER
   end).
Proof.
  cbv zeta. split.
  - unfold janus_rabbitmqevh_init. intros [H|[H|H]].
    + by rewrite H.
    + rewrite H. by destruct (stopping g).
    + rewrite H. destruct (stopping g); [done|]. by destruct path.
  - intros Hstop Hpath Hen.
    rewrite (init_keeps_format_unless_json h path g k s Hstop Hpath Hen).
    destruct (cfg_item h "json") as [v|]; [|reflexivity].
    split; [|apply json_format_preserves_order].
    unfold json_format_of.
    destruct (strcaseeq v "indented") eqn:Hi.
    + apply strcaseeq_length in Hi.
      destruct (strcaseeq v "plain") eqn:Hp;
        [apply strcaseeq_length in Hp; rewrite Hi in Hp; discriminate|].
      destruct (strcaseeq v "compact") eqn:Hc;
        [apply strcaseeq_length in Hc; rewrite Hi in Hc; discriminate|].
      reflexivity.
    + destruct (strcaseeq v "plain"); [reflexivity|].
      by destruct (strcaseeq v "compact").
Qed.

Lemma json_format_modes_witness :
  json_format (i_plugin (janus_rabbitmqevh_init
     (host_with items_fine broker_fine true true) (Some "/etc/janus"%string)
     (before_init three_events) initial_statics no_session)) = 288 /\
  json_format (i_plugin (janus_rabbitmqevh_init
     (host_with [("enabled", "true"); ("route_key", "janus-events")]%string
        broker_fine true true) (Some "/etc/janus"%string)
     (init_plugin 288 true three_events) initial_statics no_session)) = 288.
Proof.
  split.
  - destruct (json_format_modes (host_with items_fine broker_fine true true)
                (Some "/etc/janus"%string) (before_init three_events)
                initial_statics no_session) as [_ H].
    destruct H as [H _]; [reflexivity|discriminate|reflexivity|exact H].
  - destruct (json_format_modes
                (host_with [("enabled", "true"); ("route_key", "janus-events")]%string
                   broker_fine true true) (Some "/etc/janus"%string)
                (init_plugin 288 true three_events) initial_statics no_session)
      as [_ H].
    apply H; [reflexivity|discriminate|reflexivity].
Defined.

(** ** The grain of single reads and writes *)

(** The send block in one piece is the read of [stopping] followed by what
    it leads to. *)
Lemma hdlr_send_split (a : answers) (s : sys) :
  hdlr_send a s = if stopping (glob s) then hdlr_drop s else hdlr_emit a s.
Proof.
  unfold hdlr_send, hdlr_drop, hdlr_emit. by destruct (stopping (glob s)).
Qed.

Lemma hdlr_emit_same (a : answers) (s : sys) :
  h_pc (thr s) = L601 -> same_but_trace (hdlr_emit a s) (hdlr_step a s).
Proof.
  intros Hpc. unfold hdlr_step. rewrite Hpc. unfold hdlr_emit, hdlr_send, same_but_trace.
  destruct (stopping (glob s)); by destruct (a_dumps a).
Qed.

(** A request in one piece is the test followed by the rest. *)
Lemma tweak_split (request : json) (g : plugin) :
  tweak request g =
    if stopping g || negb (initialized g) then g else apply_request request g.
Proof.
  unfold tweak, janus_rabbitmqevh_handle_request, apply_request, request_grouping.
  destruct (stopping g || negb (initialized g)); [reflexivity|].
  destruct (janus_validate_json_object request request_parameters _ _) as [c1 e1].
  destruct (negb (c1 =? 0)); [reflexivity|].
  destruct (strcaseeq _ _); [|reflexivity].
  destruct (janus_validate_json_object request tweak_parameters _ _) as [c2 e2].
  destruct (negb (c2 =? 0)); [reflexivity|].
  by destruct (json_object_get (Some request) "grouping").
Qed.

(** What a step of the thread is at this grain: the read of line 601
    finding [stopping] clear, which changes nothing but what the thread
    knows; the send that follows such a read; or a step of the thread as
    before. *)
Lemma fine_hdlr_cases (a : answers) (f : fine) :
  f_dpc (fine_hdlr a f) = f_dpc f /\
  f_entered (fine_hdlr a f) = f_entered f /\
  f_referenced (fine_hdlr a f) = f_referenced f /\
  f_pending (fine_hdlr a f) = f_pending f /\
  ((h_pc (thr (f_sys f)) = L601 /\ f_passed f = false /\
    stopping (glob (f_sys f)) = false /\
    f_sys (fine_hdlr a f) = f_sys f /\ f_passed (fine_hdlr a f) = true) \/
   (h_pc (thr (f_sys f)) = L601 /\ f_passed f = true /\
    f_sys (fine_hdlr a f) = hdlr_emit a (f_sys f) /\
    f_passed (fine_hdlr a f) = false) \/
   ((h_pc (thr (f_sys f)) = L601 -> f_passed f = false /\
                                    stopping (glob (f_sys f)) = true) /\
    f_sys (fine_hdlr a f) = hdlr_step a (f_sys f) /\
    f_passed (fine_hdlr a f) = f_passed f)).
Proof.
  unfold fine_hdlr. destruct (h_pc (thr (f_sys f))) eqn:Hpc;
    try (repeat split; right; right; by repeat split).
  destruct (f_passed f) eqn:Hp.
  - repeat split. right. left. by repeat split.
  - destruct (stopping (glob (f_sys f))) eqn:Hs.
    + repeat split. right. right. split; [done|]. split; [|done].
      simpl. unfold hdlr_step. by rewrite Hpc, hdlr_send_split, Hs.
    + repeat split. left. by repeat split.
Qed.

(** ** What is still sent once [stopping] is set *)

Lemma dumped_hdlr_emit (a : answers) (s : sys) :
  dumped (trace (hdlr_emit a s)) = dumped (trace s) ++ [h_output (thr s)].
Proof.
  unfold hdlr_emit. destruct (a_dumps a); simpl; rewrite dumped_app; simpl;
    [by destruct (_ =? _)|done].
Qed.

Lemma published_hdlr_emit (a : answers) (s : sys) :
  published (trace (hdlr_emit a s)) =
    published (trace s) ++
    match a_dumps a with Some text => [text] | None => [] end.
Proof.
  unfold hdlr_emit. destruct (a_dumps a); simpl; rewrite published_app; simpl;
    [by destruct (_ =? _)|done].
Qed.

(** From a state in which [stopping] is set, or the thread has left, and
    the thread is not between the read of line 601 and the send: nothing
    is sent by whatever comes. *)
Lemma fine_act_quiet (f : fine) (x : fine_action) :
  stopping (glob (f_sys f)) = true \/ h_pc (thr (f_sys f)) = L630 ->
  f_passed f = false ->
  (stopping (glob (f_sys (fine_act f x))) = true \/
   h_pc (thr (f_sys (fine_act f x))) = L630) /\
  f_passed (fine_act f x) = false /\
  dumped (trace (f_sys (fine_act f x))) = dumped (trace (f_sys f)) /\
  published (trace (f_sys (fine_act f x))) = published (trace (f_sys f)).
Proof.
  intros Hq Hc. destruct x as [a|p|i|i|r|i|]; simpl.
  - destruct (fine_hdlr_cases a f) as (_ & _ & _ & _ & Hcases).
    destruct Hcases as [(Hpc & Hp & Hs & _)|[(Hpc & Hp & _)|(Hw & Hsys & Hp)]].
    + destruct Hq as [Hq|Hq]; congruence.
    + congruence.
    + rewrite Hsys, Hp. destruct (hdlr_step_quiet a (f_sys f) Hq) as (Hq' & Hd & Hpub).
      by repeat split.
  - destruct (_ || _); by repeat split.
  - destruct (f_entered f !! i); by repeat split.
  - destruct (f_referenced f !! i); [|by repeat split].
    destruct (decide _); by repeat split.
  - destruct (_ || _); by repeat split.
  - destruct (f_pending f !! i) as [r|]; [|by repeat split]. simpl.
    unfold apply_request. destruct (request_grouping r); by repeat split.
  - destruct (f_dpc f); try by repeat split.
    + destruct (initialized _); [|by repeat split]. split; [by left|]. by repeat split.
    + destruct (decide _) as [Hpc|]; [|by repeat split]. split; [by right|].
      by repeat split.
Qed.

Lemma fine_exec_quiet (xs : list fine_action) :
  forall f,
  stopping (glob (f_sys f)) = true \/ h_pc (thr (f_sys f)) = L630 ->
  f_passed f = false ->
  dumped (trace (f_sys (fine_exec f xs))) = dumped (trace (f_sys f)) /\
  published (trace (f_sys (fine_exec f xs))) = published (trace (f_sys f)).
Proof.
  induction xs as [|x xs IH]; intros f Hq Hp; simpl; [done|].
  destruct (fine_act_quiet f x Hq Hp) as (Hq' & Hp' & Hd & Hpub).
  destruct (IH _ Hq' Hp') as [Hd' Hpub']. by rewrite Hd', Hpub', Hd, Hpub.
Qed.

(** While the thread stands between the read and the send, with
    [stopping] set in the meantime, a step of anyone either leaves it
    there, nothing sent, or is the send. *)
Lemma fine_act_committed (f : fine) (x : fine_action) :
  stopping (glob (f_sys f)) = true ->
  f_passed f = true -> h_pc (thr (f_sys f)) = L601 ->
  (stopping (glob (f_sys (fine_act f x))) = true /\
   f_passed (fine_act f x) = true /\
   thr (f_sys (fine_act f x)) = thr (f_sys f) /\
   trace (f_sys (fine_act f x)) = trace (f_sys f)) \/
  (exists a, x = FHdlr a /\
     stopping (glob (f_sys (fine_act f x))) = true /\
     f_passed (fine_act f x) = false /\
     dumped (trace (f_sys (fine_act f x)))
       = dumped (trace (f_sys f)) ++ [h_output (thr (f_sys f))] /\
     published (trace (f_sys (fine_act f x)))
       = published (trace (f_sys f)) ++
         match a_dumps a with Some text => [text] | None => [] end).
Proof.
  intros Hs Hp Hpc. destruct x as [a|p|i|i|r|i|]; simpl.
  - right. exists a. split; [reflexivity|]. unfold fine_hdlr. rewrite Hpc, Hp. simpl.
    split; [|split; [reflexivity|split; [apply dumped_hdlr_emit|apply published_hdlr_emit]]].
    unfold hdlr_emit. by destruct (a_dumps a).
  - left. destruct (_ || _); by repeat split.
  - left. destruct (f_entered f !! i); by repeat split.
  - left. destruct (f_referenced f !! i); [|by repeat split].
    destruct (decide _); by repeat split.
  - left. destruct (_ || _); by repeat split.
  - left. destruct (f_pending f !! i) as [r|]; [|by repeat split]. simpl.
    unfold apply_request. by destruct (request_grouping r).
  - left. destruct (f_dpc f); try by repeat split.
    + destruct (initialized _); by repeat split.
    + destruct (decide _) as [Hpc'|]; [congruence|by repeat split].
Qed.

(** X1. Once [stopping] is set the plugin sends at most one more batch:
    the one the thread holds if it had already read [stopping] at line 601
    and found it clear, and is now between that read and [json_dumps].
    That batch is serialised once and published at most once. In any other
    state nothing is serialised and nothing is published any more,
    whatever the thread, producers, requests and destroy do, calls in
    flight included: what the queue and the batch in the making hold is
    released unsent. *)
Theorem at_most_one_batch_once_stopping (f : fine) (xs : list fine_action) :
  stopping (glob (f_sys f)) = true ->
  (f_passed f = true -> h_pc (thr (f_sys f)) = L601) ->
  let f' := fine_exec f xs in
  (f_passed f = false ->
     dumped (trace (f_sys f')) = dumped (trace (f_sys f)) /\
     published (trace (f_sys f')) = published (trace (f_sys f))) /\
  (f_passed f = true ->
     (dumped (trace (f_sys f')) = dumped (trace (f_sys f)) /\
      published (trace (f_sys f')) = published (trace (f_sys f))) \/
     (dumped (trace (f_sys f'))
        = dumped (trace (f_sys f)) ++ [h_output (thr (f_sys f))] /\
      exists bodies,
        published (trace (f_sys f')) = published (trace (f_sys f)) ++ bodies /\
        (length bodies <= 1)%nat)).
Proof.
  intros Hs Hwf. cbv zeta. split.
  - intros Hp. apply fine_exec_quiet; [by left|exact Hp].
  - intros Hp. specialize (Hwf Hp). revert f Hs Hp Hwf.
    induction xs as [|x xs IH]; intros f Hs Hp Hpc; simpl; [by left|].
    destruct (fine_act_committed f x Hs Hp Hpc)
      as [(Hs' & Hp' & Ht & Htr)|(a & -> & Hs' & Hp' & Hd & Hpub)].
    + destruct (IH (fine_act f x) Hs' Hp') as [[H1 H2]|(H1 & bodies & H2 & H3)].
      * by rewrite Ht.
      * left. by rewrite H1, H2, Htr.
      * right. rewrite H1, Htr, Ht. split; [reflexivity|].
        exists bodies. by rewrite H2, Htr.
    + right.
      destruct (fine_exec_quiet xs (fine_act f (FHdlr a))) as [H1 H2];
        [by left|exact Hp'|].
      rewrite H1, H2, Hd, Hpub. split; [reflexivity|].
      eexists. split; [reflexivity|]. destruct (a_dumps a); simpl; lia.
Qed.

(** In an execution from the start the thread knows [stopping] to have
    been clear only while it stands at the send block. *)
Lemma passed_at_send_block (g : plugin) (xs : list fine_action) :
  f_passed (fine_exec (fine_start g) xs) = true ->
  h_pc (thr (f_sys (fine_exec (fine_start g) xs))) = L601.
Proof.
  assert (H : forall xs f,
            (f_passed f = true -> h_pc (thr (f_sys f)) = L601) ->
            f_passed (fine_exec f xs) = true ->
            h_pc (thr (f_sys (fine_exec f xs))) = L601).
  { clear. induction xs as [|x xs IH]; intros f Hf; simpl; [exact Hf|].
    apply IH. destruct x as [a|p|i|i|r|i|]; simpl.
    - destruct (fine_hdlr_cases a f) as (_ & _ & _ & _ & Hcases).
      destruct Hcases as [(Hpc & _ & _ & -> & _)|[(_ & _ & _ & ->)|(Hw & _ & ->)]].
      + by intros _.
      + discriminate.
      + intros Hp. specialize (Hf Hp). destruct (Hw Hf). congruence.
    - by destruct (_ || _).
    - by destruct (f_entered f !! i).
    - destruct (f_referenced f !! i); [|exact Hf]. simpl. by destruct (decide _).
    - by destruct (_ || _).
    - by destruct (f_pending f !! i).
    - destruct (f_dpc f); try exact Hf.
      + by destruct (initialized _).
      + destruct (decide _) as [Hpc|]; [|exact Hf]. simpl. intros Hp.
        specialize (Hf Hp). congruence. }
  apply H. discriminate.
Qed.

(** ** Accounting for references, calls in flight included *)

Lemma holds_cnt (h h' : list jptr) (m0 m : jstore) :
  (forall a, cnt a h = cnt a h') -> holds h m0 m -> holds h' m0 m.
Proof.
  intros Hc [Hexit Hheap]. split; [exact Hexit|]. intros a. by rewrite Hheap, Hc.
Qed.

Lemma cnt_delete (a : positive) (l : list jptr) (i : nat) (p : jptr) :
  l !! i = Some p -> cnt a l = (cnt a (delete i l) + cnt a [p])%nat.
Proof.
  intros Hi. rewrite <- (take_drop_middle l i p Hi) at 1.
  rewrite delete_take_drop, !cnt_app.
  change (p :: drop (S i) l) with ([p] ++ drop (S i) l). rewrite cnt_app. lia.
Qed.

Lemma hdlr_step_owed (n : nat) (m0 : jstore) (a : answers) (s : sys)
    (extra : list jptr) :
  track_inv s -> roomy n m0 ->
  holds (held s ++ extra) m0 (store (glob s)) ->
  (length (held s ++ extra) <= n)%nat ->
  holds (held (hdlr_step a s) ++ extra) m0 (store (glob (hdlr_step a s))) /\
  (length (held (hdlr_step a s) ++ extra) <= length (held s ++ extra))%nat.
Proof.
  intros Hinv Hroom Hh Hlen.
  destruct (hdlr_step_held a s Hinv) as [Hother Hsend].
  destruct (decide (h_pc (thr s) = L601)) as [Hpc|Hpc].
  - destruct (Hsend Hpc) as [Hheld Hstore]. rewrite Hstore.
    rewrite Hheld, <- app_assoc in Hh, Hlen. rewrite Hheld.
    split; [|rewrite <- app_assoc, (length_app (batch_of _)); lia].
    destruct Hinv as (_ & Hb & _).
    destruct (h_output (thr s)) as [|p|l]; simpl in *.
    + exact Hh.
    + apply Forall_cons in Hb as [Hp _]. destruct p as [| |e]; try discriminate.
      by apply (holds_decref n).
    + by apply (holds_release n).
  - destruct (Hother Hpc) as [-> ->]. by split.
Qed.

Lemma track_inv_same (s1 s2 : sys) :
  same_but_trace s1 s2 -> track_inv s2 -> track_inv s1.
Proof. intros [Hg Ht]. unfold track_inv. by rewrite Hg, Ht. Qed.

Lemma held_same (s1 s2 : sys) : same_but_trace s1 s2 -> held s1 = held s2.
Proof. intros [Hg Ht]. unfold held. by rewrite Hg, Ht. Qed.

Lemma fine_act_track (f : fine) (x : fine_action) :
  track_inv (f_sys f) -> fine_calm f x -> track_inv (f_sys (fine_act f x)).
Proof.
  intros Hinv Hcalm. destruct x as [a|p|i|i|r|i|]; simpl.
  - destruct (fine_hdlr_cases a f) as (_ & _ & _ & _ & Hcases).
    destruct Hcases as [(_ & _ & _ & -> & _)|[(Hpc & _ & -> & _)|(_ & -> & _)]].
    + exact Hinv.
    + apply (track_inv_same _ _ (hdlr_emit_same a (f_sys f) Hpc)).
      by apply hdlr_step_track.
    + by apply hdlr_step_track.
  - by destruct (_ || _).
  - by destruct (f_entered f !! i).
  - destruct (f_referenced f !! i) as [p|]; [|exact Hinv]. simpl.
    destruct (decide _); [exact Hinv|].
    destruct Hinv as (Hq & Hb & Hpc). unfold track_inv, with_glob. simpl.
    split; [|by split]. by apply push_keeps_no_null.
  - by destruct (_ || _).
  - simpl in Hcalm. destruct (f_pending f !! i) as [r|]; [|exact Hinv]. simpl.
    unfold apply_request. destruct (request_grouping r) as [b|]; [|exact Hinv].
    destruct Hinv as (Hq & Hb & Hpc). unfold track_inv, with_glob. simpl.
    split; [exact Hq|]. split; [exact Hb|].
    unfold mid_batch in Hcalm.
    destruct (h_pc (thr (f_sys f))); try done.
    + destruct Hpc as [He [Ho|[[l Ho] Hg]]]; [by split; [|left]|].
      split; [exact He|]. right. split; [by exists l|].
      rewrite Ho in Hcalm. destruct b; [reflexivity|]. by destruct Hcalm.
    + destruct Hpc as [Ho Hg]. split; [exact Ho|].
      destruct b; [reflexivity|]. by destruct Hcalm.
  - destruct (f_dpc f); try exact Hinv.
    + by destruct (initialized _).
    + destruct Hinv as (Hq & Hb & Hpc). unfold track_inv, with_glob. simpl.
      split; [|by split].
      exact (push_keeps_no_null (events (glob (f_sys f))) exit_event Hq).
    + destruct (decide _) as [Hpc630|]; [|exact Hinv].
      destruct Hinv as (Hq & Hb & Hpc). unfold track_inv, with_glob. simpl.
      rewrite Hpc630. split; [|by split]. apply not_elem_of_nil.
Qed.

(** A step of anyone before destroy has torn the queue down keeps the
    account, with at most one reference more. *)
Lemma fine_act_acct (n : nat) (m0 : jstore) (k : nat) (f : fine) (x : fine_action) :
  roomy n m0 -> (k < n)%nat ->
  acct m0 k f -> fine_calm f x -> fine_foreign x ->
  f_dpc (fine_act f x) <> D464 ->
  acct m0 (S k) (fine_act f x).
Proof.
  intros Hroom Hk (Hinv & Hh & Hlen & He & Hr) Hcalm Hfor Hdpc.
  split; [by apply fine_act_track|].
  destruct x as [a|p|i|i|r|i|]; simpl in *.
  - destruct (fine_hdlr_cases a f) as (_ & Hen & Href & _ & Hcases).
    unfold owed. rewrite Hen, Href.
    destruct Hcases as [(_ & _ & _ & -> & _)|[(Hpc & _ & -> & _)|(_ & -> & _)]].
    + split; [exact Hh|]. split; [unfold owed in Hlen; lia|by split].
    + pose proof (hdlr_emit_same a (f_sys f) Hpc) as Hsame.
      rewrite (held_same _ _ Hsame). destruct Hsame as [-> _].
      destruct (hdlr_step_owed n m0 a (f_sys f) (f_referenced f)) as [H1 H2];
        try assumption; [unfold owed in Hlen; lia|].
      split; [exact H1|]. split; [unfold owed in Hlen; lia|by split].
    + destruct (hdlr_step_owed n m0 a (f_sys f) (f_referenced f)) as [H1 H2];
        try assumption; [unfold owed in Hlen; lia|].
      split; [exact H1|]. split; [unfold owed in Hlen; lia|by split].
  - destruct (_ || _); [split; [exact Hh|]; split; [lia|by split]|].
    unfold owed in *. simpl. split; [exact Hh|]. split; [lia|]. split; [|exact Hr].
    apply not_elem_of_app. split; [exact He|]. apply not_elem_of_cons; split; [congruence|apply not_elem_of_nil].
  - destruct (f_entered f !! i) as [p|] eqn:Hi;
      [|split; [exact Hh|]; split; [lia|by split]].
    assert (Hp : p <> exit_event).
    { intros ->. apply He. by apply list_elem_of_lookup_2 in Hi. }
    unfold owed in *. simpl. change (held (with_glob _ (f_sys f))) with (held (f_sys f)).
    rewrite app_assoc. split; [|split; [rewrite length_app; simpl; lia|split]].
    + destruct p as [| |e]; [|done|].
      * simpl. apply (holds_cnt (held (f_sys f) ++ f_referenced f)); [|exact Hh].
        intros a. rewrite (cnt_app a (held (f_sys f) ++ f_referenced f) [NULL]).
        replace (cnt a [NULL]) with 0%nat
          by (symmetry; by apply (cnt_cons_other a NULL [])).
        lia.
      * apply (holds_incref n); [assumption|exact Hh|lia].
    + intros Hin. apply He. by apply list_elem_of_delete_inv in Hin.
    + apply not_elem_of_app. split; [exact Hr|]. apply not_elem_of_cons; split; [congruence|apply not_elem_of_nil].
  - destruct (f_referenced f !! i) as [p|] eqn:Hi;
      [|split; [exact Hh|]; split; [lia|by split]].
    simpl in Hdpc. destruct (decide (f_dpc f = D464)) as [|_]; [contradiction|].
    assert (Hp : p <> exit_event).
    { intros ->. apply Hr. by apply list_elem_of_lookup_2 in Hi. }
    assert (Hc : forall a,
              cnt a (owed f) =
              cnt a (held (with_glob (set_events
                            (g_async_queue_push (events (glob (f_sys f))) p)) (f_sys f))
                     ++ delete i (f_referenced f))).
    { intros a. unfold owed, held, with_glob. simpl.
      rewrite !cnt_app, !cnt_filter_is_event, (cnt_delete a _ i p Hi).
      destruct p as [| |e]; [|done|]; simpl.
      - replace (cnt a [NULL]) with 0%nat
          by (symmetry; by apply (cnt_cons_other a NULL [])). lia.
      - rewrite cnt_app. lia. }
    unfold owed in *. simpl.
    split; [by apply (holds_cnt _ _ _ _ Hc)|]. split; [|split; [exact He|]].
    + unfold held, with_glob in *. simpl.
      rewrite !length_app in *.
      pose proof (length_delete (f_referenced f) i (mk_is_Some _ _ Hi)).
      assert (length (List.filter is_event
                        (g_async_queue_push (events (glob (f_sys f))) p))
              <= S (length (List.filter is_event (events (glob (f_sys f))))))%nat.
      { destruct p; simpl; rewrite ?List.filter_app, ?length_app; simpl; lia. }
      lia.
    + intros Hin. apply Hr. by apply list_elem_of_delete_inv in Hin.
  - unfold owed in *. destruct (_ || _); simpl; (split; [exact Hh|]; split; [lia|by split]).
  - destruct (f_pending f !! i) as [r|]; [|split; [exact Hh|]; split; [lia|by split]].
    unfold owed, held, with_glob, apply_request in *. simpl.
    destruct (request_grouping r); simpl; (split; [exact Hh|]; split; [lia|by split]).
  - unfold owed, held, with_glob in *. destruct (f_dpc f) eqn:Hd.
    + destruct (initialized _); simpl; (split; [exact Hh|]; split; [lia|by split]).
    + simpl. rewrite List.filter_app. simpl. rewrite app_nil_r.
      split; [exact Hh|]. split; [lia|by split].
    + destruct (decide _); [done|]. split; [exact Hh|]. split; [lia|by split].
    + done.
Qed.

Lemma fine_act_torn (f : fine) (x : fine_action) :
  f_dpc f = D464 -> f_dpc (fine_act f x) = D464.
Proof.
  intros Hd. destruct x as [a|p|i|i|r|i|]; simpl.
  - destruct (fine_hdlr_cases a f) as (-> & _). exact Hd.
  - by destruct (_ || _).
  - by destruct (f_entered f !! i).
  - by destruct (f_referenced f !! i).
  - by destruct (_ || _).
  - by destruct (f_pending f !! i).
  - by rewrite Hd.
Qed.

Lemma fine_exec_torn (xs : list fine_action) (f : fine) :
  f_dpc f = D464 -> f_dpc (fine_exec f xs) = D464.
Proof.
  revert f. induction xs as [|x xs IH]; intros f Hd; simpl; [exact Hd|].
  apply IH. by apply fine_act_torn.
Qed.

Lemma fine_exec_acct (n : nat) (m0 : jstore) (xs : list fine_action) :
  forall (f : fine) (k : nat),
  roomy n m0 -> (k + length xs <= n)%nat ->
  acct m0 k f -> fine_calm_all f xs -> Forall fine_foreign xs ->
  f_dpc (fine_exec f xs) <> D464 ->
  acct m0 (k + length xs) (fine_exec f xs).
Proof.
  induction xs as [|x xs IH]; intros f k Hroom Hn Hacct Hcalm Hfor Hdpc; simpl.
  - by rewrite Nat.add_0_r.
  - destruct Hcalm as [Hc Hcalm]. apply Forall_cons in Hfor as [Hx Hfor].
    simpl in Hn, Hdpc.
    replace (k + S (length xs))%nat with (S k + length xs)%nat by lia.
    apply IH; try assumption; [lia|].
    apply (fine_act_acct n); try assumption; [lia|].
    intros Hd. apply Hdpc. by apply fine_exec_torn.
Qed.

Lemma acct_start (g : plugin) : events g = [] -> acct (store g) 0 (fine_start g).
Proof.
  intros Hq. unfold acct, owed, held. simpl. rewrite Hq. simpl.
  split; [apply track_inv_start; rewrite Hq; apply not_elem_of_nil|].
  split; [|split; [lia|split; apply not_elem_of_nil]].
  split; [reflexivity|].
  intros a. destruct (heap (store g) !! a) as [[rc v]|]; simpl; [|reflexivity].
  by rewrite Z.add_0_r.
Qed.

(** X5. The plugin takes one reference per event a producer hands in and
    gives back one per event it lets go, and that is all it does to the
    store. Start the thread on an empty queue over a store whose values
    are referenced and far from Jansson's immortal count, and let the
    thread, producers, requests and destroy take their steps in any order,
    each call interleaved with the others at its reads and writes, as long
    as no request switches grouping off under a batch that is being
    collected. Then at every point up to the teardown of the queue each
    value has its original count plus the number of times it is queued, in
    the thread's hands, or referenced by a producer that has yet to push
    it: no value has been freed or changed, and when the plugin owes
    nothing the store is the original one. *)
Theorem references_are_accounted_for (g : plugin) (xs : list fine_action) :
  events g = [] -> roomy (length xs) (store g) ->
  fine_calm_all (fine_start g) xs -> Forall fine_foreign xs ->
  let f := fine_exec (fine_start g) xs in
  f_dpc f <> D464 ->
  holds (owed f) (store g) (store (glob (f_sys f))) /\
  (forall a c, heap (store g) !! a = Some c ->
     exists c', heap (store (glob (f_sys f))) !! a = Some c' /\
                jvalue c' = jvalue c /\
                refcount c' = refcount c + Z.of_nat (cnt a (owed f))) /\
  (owed f = [] -> store (glob (f_sys f)) = store g).
Proof.
  intros Hq Hroom Hcalm Hfor f Hdpc.
  destruct (fine_exec_acct (length xs) (store g) xs (fine_start g) 0%nat)
    as (_ & Hh & _); try assumption; [lia|by apply acct_start|].
  fold f in Hh. split; [exact Hh|]. split.
  - intros a c Hc. destruct Hh as [_ Hheap]. rewrite Hheap, Hc. simpl. by eexists.
  - intros Hnone. rewrite Hnone in Hh. by apply holds_nothing.
Qed.

(** ** Destroy, calls in flight included *)

(** Once destroy is back and no producer is in flight, nothing moves any
    more: events and requests are turned away at their tests, the thread
    has left, and a request that was past its test can still set the
    grouping flag and nothing else. *)
Lemma fine_act_after_teardown (f : fine) (x : fine_action) :
  f_dpc f = D464 -> h_pc (thr (f_sys f)) = L630 ->
  initialized (glob (f_sys f)) = false ->
  f_entered f = [] -> f_referenced f = [] ->
  let f' := fine_act f x in
  f_dpc f' = D464 /\ h_pc (thr (f_sys f')) = L630 /\
  initialized (glob (f_sys f')) = false /\
  f_entered f' = [] /\ f_referenced f' = [] /\
  stopping (glob (f_sys f')) = stopping (glob (f_sys f)) /\
  events (glob (f_sys f')) = events (glob (f_sys f)) /\
  store (glob (f_sys f')) = store (glob (f_sys f)) /\
  trace (f_sys f') = trace (f_sys f).
Proof.
  intros Hd Hpc Hi He Hr. destruct x as [a|p|i|i|r|i|]; simpl.
  - unfold fine_hdlr. rewrite Hpc. simpl. unfold hdlr_step. rewrite Hpc. by repeat split.
  - rewrite Hi, orb_true_r. by repeat split.
  - rewrite He. by repeat split.
  - rewrite Hr. by repeat split.
  - rewrite Hi, orb_true_r. by repeat split.
  - destruct (f_pending f !! i) as [r|]; [|by repeat split]. simpl.
    unfold apply_request. destruct (request_grouping r); by repeat split.
  - rewrite Hd. by repeat split.
Qed.

Lemma fine_exec_after_teardown (xs : list fine_action) :
  forall f,
  f_dpc f = D464 -> h_pc (thr (f_sys f)) = L630 ->
  initialized (glob (f_sys f)) = false ->
  f_entered f = [] -> f_referenced f = [] ->
  let f' := fine_exec f xs in
  f_dpc f' = D464 /\
  initialized (glob (f_sys f')) = false /\
  stopping (glob (f_sys f')) = stopping (glob (f_sys f)) /\
  events (glob (f_sys f')) = events (glob (f_sys f)) /\
  store (glob (f_sys f')) = store (glob (f_sys f)) /\
  trace (f_sys f') = trace (f_sys f).
Proof.
  induction xs as [|x xs IH]; intros f Hd Hpc Hi He Hr; simpl; [done|].
  destruct (fine_act_after_teardown f x Hd Hpc Hi He Hr)
    as (Hd' & Hpc' & Hi' & He' & Hr' & Hs & Hq & Hst & Htr).
  destruct (IH _ Hd' Hpc' Hi' He' Hr') as (H1 & H2 & H3 & H4 & H5 & H6).
  by rewrite H3, H4, H5, H6.
Qed.

(** X19. Destroy gives back every reference the plugin holds, provided no
    producer is between its test and its push when the queue is torn
    down. Start the thread on an empty queue and let the thread,
    producers, requests and destroy take their steps in any order, each
    call interleaved with the others at its reads and writes (no request
    switching grouping off under a batch in the making), up to the point
    where destroy's join has returned. If no producer is in flight then,
    the teardown leaves both flags clear, the queue gone and the store the
    one the plugin started with, whether the events were queued before or
    behind the token; and whatever is called afterwards changes none of
    this and sends nothing. *)
Theorem destroy_releases_everything (g : plugin) (xs ys : list fine_action) :
  events g = [] -> roomy (length xs) (store g) ->
  fine_calm_all (fine_start g) xs -> Forall fine_foreign xs ->
  let f := fine_exec (fine_start g) xs in
  f_dpc f = D438 -> h_pc (thr (f_sys f)) = L630 ->
  f_entered f = [] -> f_referenced f = [] ->
  let f' := fine_exec f (FDestroy :: ys) in
  f_dpc f' = D464 /\
  initialized (glob (f_sys f')) = false /\ stopping (glob (f_sys f')) = false /\
  events (glob (f_sys f')) = [] /\
  store (glob (f_sys f')) = store g /\
  trace (f_sys f') = trace (f_sys f).
Proof.
  intros Hq Hroom Hcalm Hfor f Hd Hpc He Hr. cbv zeta.
  destruct (fine_exec_acct (length xs) (store g) xs (fine_start g) 0%nat)
    as (_ & Hh & Hlen & _); try assumption;
    [lia|by apply acct_start|fold f; by rewrite Hd|].
  fold f in Hh, Hlen. simpl in Hlen.
  unfold owed, held, in_hand in Hh, Hlen. rewrite Hpc, Hr, app_nil_r in Hh, Hlen.
  simpl in Hh, Hlen.
  assert (Hst : g_async_queue_unref (events (glob (f_sys f))) (store (glob (f_sys f)))
                = store g).
  { apply holds_nothing. by apply (holds_queue_unref (length xs)). }
  change (fine_exec f (FDestroy :: ys)) with (fine_exec (fine_act f FDestroy) ys).
  assert (Hf1 : fine_act f FDestroy =
            {| f_sys := with_glob teardown (f_sys f); f_passed := f_passed f;
               f_dpc := D464; f_entered := f_entered f;
               f_referenced := f_referenced f; f_pending := f_pending f |}).
  { simpl. rewrite Hd. by rewrite decide_True. }
  rewrite Hf1.
  destruct (fine_exec_after_teardown ys
              {| f_sys := with_glob teardown (f_sys f); f_passed := f_passed f;
                 f_dpc := D464; f_entered := f_entered f;
                 f_referenced := f_referenced f; f_pending := f_pending f |})
    as (H1 & H2 & H3 & H4 & H5 & H6); try done.
  rewrite H3, H4, H5, H6. simpl. by rewrite Hst.
Qed.

(** ** A producer that comes too late *)

Lemma json_incref_keeps (p : jptr) (m : jstore) (e : positive) (c : json_t) :
  heap m !! e = Some c ->
  exists c', heap (json_incref p m) !! e = Some c' /\ refcount c <= refcount c'.
Proof.
  intros Hc. destruct p as [| |a]; simpl.
  - exists c. split; [exact Hc|lia].
  - destruct (_ =? _); exists c; (split; [exact Hc|lia]).
  - destruct (heap m !! a) as [ca|] eqn:Ha; [|exists c; split; [exact Hc|lia]].
    destruct (refcount ca =? SIZE_MAX); [exists c; split; [exact Hc|lia]|].
    simpl. destruct (decide (a = e)) as [->|Hne].
    + rewrite lookup_insert_eq. eexists. split; [reflexivity|]. simpl.
      rewrite Hc in Ha. injection Ha as <-. lia.
    + rewrite lookup_insert_ne by done. exists c. split; [exact Hc|lia].
Qed.

(** Once destroy is back nobody releases a reference any more. *)
Lemma fine_act_late (f : fine) (x : fine_action) (e : positive) (c : json_t) :
  f_dpc f = D464 -> h_pc (thr (f_sys f)) = L630 ->
  heap (store (glob (f_sys f))) !! e = Some c ->
  f_dpc (fine_act f x) = D464 /\ h_pc (thr (f_sys (fine_act f x))) = L630 /\
  exists c', heap (store (glob (f_sys (fine_act f x)))) !! e = Some c' /\
             refcount c <= refcount c'.
Proof.
  intros Hd Hpc Hc.
  assert (Hsame : exists c', heap (store (glob (f_sys f))) !! e = Some c' /\
                             refcount c <= refcount c').
  { exists c. split; [exact Hc|lia]. }
  destruct x as [a|p|i|i|r|i|]; simpl.
  - unfold fine_hdlr. rewrite Hpc. simpl. unfold hdlr_step. by rewrite Hpc.
  - by destruct (_ || _).
  - destruct (f_entered f !! i) as [p|]; [|done]. simpl.
    split; [exact Hd|]. split; [exact Hpc|]. by apply json_incref_keeps.
  - destruct (f_referenced f !! i) as [p|]; [|done]. simpl.
    by rewrite decide_True.
  - by destruct (_ || _).
  - destruct (f_pending f !! i) as [r|]; [|done]. simpl.
    unfold apply_request. by destruct (request_grouping r).
  - by rewrite Hd.
Qed.

Lemma fine_exec_late (xs : list fine_action) (e : positive) :
  forall (f : fine) (c : json_t),
  f_dpc f = D464 -> h_pc (thr (f_sys f)) = L630 ->
  heap (store (glob (f_sys f))) !! e = Some c ->
  exists c', heap (store (glob (f_sys (fine_exec f xs)))) !! e = Some c' /\
             refcount c <= refcount c'.
Proof.
  induction xs as [|x xs IH]; intros f c Hd Hpc Hc; simpl.
  - exists c. split; [exact Hc|lia].
  - destruct (fine_act_late f x e c Hd Hpc Hc) as (Hd' & Hpc' & c1 & Hc1 & Hle).
    destruct (IH _ c1 Hd' Hpc' Hc1) as (c2 & Hc2 & Hle2).
    exists c2. split; [exact Hc2|lia].
Qed.

(** X26. A producer that made the test of line 496 before destroy raised
    [stopping] and takes its reference only after destroy has torn the
    queue down leaves that reference behind: the count of its event is one
    up, and whatever the plugin is asked afterwards, short of a new init,
    nothing brings it down again, for the thread and the queue that would
    release it are gone. *)
Theorem late_reference_stays (f : fine) (i : nat) (e : positive) (c : json_t)
    (ys : list fine_action) :
  f_dpc f = D464 -> h_pc (thr (f_sys f)) = L630 ->
  f_entered f !! i = Some (Ptr e) ->
  heap (store (glob (f_sys f))) !! e = Some c -> refcount c <> SIZE_MAX ->
  exists c',
    heap (store (glob (f_sys (fine_exec f (FIncref i :: ys))))) !! e = Some c' /\
    refcount c + 1 <= refcount c'.
Proof.
  intros Hd Hpc Hi Hc Hmax.
  change (fine_exec f (FIncref i :: ys)) with (fine_exec (fine_act f (FIncref i)) ys).
  destruct (fine_exec_late ys e (fine_act f (FIncref i))
              {| refcount := refcount c + 1; jvalue := jvalue c |})
    as (c' & Hc' & Hle).
  - simpl. by rewrite Hi.
  - simpl. by rewrite Hi.
  - simpl. rewrite Hi. simpl. rewrite Hc.
    destruct (Z.eqb_spec (refcount c) SIZE_MAX); [contradiction|].
    simpl. by rewrite lookup_insert_eq.
  - exists c'. split; [exact Hc'|]. simpl in Hle. exact Hle.
Qed.

(** ** The calls in one piece are among these executions *)

(** Run without anyone coming in between, the steps of a call are the call
    as the executions of the first part have it. *)
Lemma calls_in_one_piece (f : fine) :
  (forall p, f_entered f = [] -> f_referenced f = [] -> f_dpc f <> D464 ->
     f_sys (fine_exec f [FEnter p; FIncref 0; FPush 0]) = act (f_sys f) (AIncoming p)) /\
  (forall r, f_pending f = [] ->
     f_sys (fine_exec f [FReqEnter r; FReqApply 0]) = act (f_sys f) (ARequest r)) /\
  (forall a, f_passed f = false ->
     f_sys (fine_exec f
              (if bool_decide (h_pc (thr (f_sys f)) = L601) &&
                  negb (stopping (glob (f_sys f)))
               then [FHdlr a; FHdlr a] else [FHdlr a]))
     = act (f_sys f) (AHdlr a)) /\
  (f_dpc f = D432 ->
     f_sys (fine_exec f [FDestroy; FDestroy]) = act (f_sys f) ADestroySignal) /\
  (f_dpc f = D438 -> initialized (glob (f_sys f)) = true ->
     f_sys (fine_act f FDestroy) = act (f_sys f) ADestroyFinish).
Proof.
  destruct f as [[g t tr] passed d entered referenced pending].
  cbn [f_sys f_passed f_dpc f_entered f_referenced f_pending].
  split; [|split; [|split; [|split]]].
  - intros p -> -> Hd. simpl. unfold with_glob, janus_rabbitmqevh_incoming_event.
    simpl. destruct (_ || _) eqn:Hrun; simpl; [done|].
    by destruct (decide (d = D464)).
  - intros r ->. unfold act, with_glob. rewrite tweak_split. simpl. unfold with_glob. simpl.
    by destruct (_ || _).
  - intros a ->. unfold act. cbn [thr glob h_pc].
    destruct (h_pc t) eqn:Hpc; cbn [bool_decide decide_rel andb];
      try (simpl; unfold fine_hdlr, hdlr_step; simpl; by rewrite Hpc).
    unfold hdlr_step. cbn [thr h_pc]. rewrite Hpc, hdlr_send_split. cbn [glob].
    rewrite bool_decide_eq_true_2 by reflexivity.
    destruct (stopping g) eqn:Hs; simpl; unfold fine_hdlr; simpl;
      rewrite ?Hpc, ?Hs; simpl; rewrite ?Hpc, ?Hs; reflexivity.
  - intros ->. simpl. unfold with_glob, destroy_signal. simpl.
    destruct (initialized g) eqn:Hi; simpl; rewrite ?Hi; reflexivity.
  - intros -> Hi. simpl in *. destruct (decide _); [|done]. simpl.
    unfold with_glob, destroy_finish, teardown. simpl. by rewrite Hi.
Qed.

(** ** Grouping switched off under a batch *)

(** X18. Grouping switched off while an array is being filled: at line
    585 the event in hand overwrites [output]. That event alone is
    serialised and released; the array and the events appended to it are
    neither sent nor released, and the thread holds nothing any more when
    it is back at the head of its loop. *)
Theorem grouping_off_mid_batch_loses_array (a : answers) (s : sys) (l : list jptr) :
  h_pc (thr s) = L575 -> h_output (thr s) = OArray l ->
  group_events (glob s) = false ->
  let s2 := hdlr_run 2 a s in
  in_hand (thr s) = l ++ [h_event (thr s)] /\ in_hand (thr s2) = [] /\
  h_pc (thr s2) = L567 /\ h_output (thr s2) = ONull /\
  events (glob s2) = events (glob s) /\
  store (glob s2) = json_decref (h_event (thr s)) (store (glob s)) /\
  dumped (trace s2) =
    dumped (trace s) ++
    (if stopping (glob s) then [] else [OEvent (h_event (thr s))]).
Proof.
  intros Hpc Hout Hg.
  change (hdlr_run 2 a s) with (hdlr_step a (hdlr_step a s)).
  assert (H1 : hdlr_step a s =
    {| glob := glob s;
       thr := {| h_pc := L601; h_event := h_event (thr s);
                 h_output := OEvent (h_event (thr s));
                 h_count := h_count (thr s); h_max := h_max (thr s) |};
       trace := trace s ++ handled_after (a_now a) (h_event (thr s)) (store (glob s)) |}).
  { unfold hdlr_step. rewrite Hpc. unfold hdlr_collect. by rewrite Hg. }
  split; [unfold in_hand; by rewrite Hpc, Hout|].
  rewrite H1. unfold hdlr_step. cbn [thr h_pc]. unfold hdlr_send.
  cbn [glob thr trace h_output h_event h_count h_max json_decref_output].
  destruct (stopping (glob s)); cbn [negb].
  - cbn [glob thr trace h_pc h_output set_store events store in_hand].
    repeat split; try reflexivity.
    by rewrite !dumped_app, dumped_handled_after, !app_nil_r.
  - destruct (a_dumps a);
      cbn [glob thr trace h_pc h_output set_store events store in_hand].
    + repeat split; try reflexivity.
      rewrite !dumped_app, dumped_handled_after, !app_nil_r.
      by destruct (a_publish a =? AMQP_STATUS_OK).
    + repeat split; try reflexivity.
      by rewrite !dumped_app, dumped_handled_after, !app_nil_r.
Qed.

Lemma grouping_off_mid_batch_loses_array_witness :
  let s := grouping_off_mid_batch in
  h_output (thr s) = OArray [Ptr 1%positive] /\
  dumped (trace (hdlr_run 2 all_well s)) = [OEvent (Ptr 2%positive)] /\
  refcount <$> heap (store (glob (hdlr_run 2 all_well s))) !! 1%positive = Some 2 /\
  held (hdlr_run 2 all_well s) = [].
Proof.
  cbv zeta. split; [reflexivity|].
  destruct (grouping_off_mid_batch_loses_array all_well grouping_off_mid_batch
              [Ptr 1%positive]) as (_ & _ & _ & _ & _ & Hst & Hd);
    [reflexivity|reflexivity|reflexivity|].
  split; [exact Hd|]. split; [|reflexivity].
  rewrite Hst. reflexivity.
Defined.

(** ** Examples for the properties above *)

Lemma init_succeeds_iff_witness :
  let out := janus_rabbitmqevh_init (host_with items_fine broker_fine true true)
               (Some "/etc/janus"%string) (before_init three_events)
               initial_statics no_session in
  i_ret out = 0 /\
  i_plugin out = init_plugin (Z.lor JSON_COMPACT JSON_PRESERVE_ORDER) true three_events /\
  i_heartbeat out = true.
Proof.
  cbv zeta.
  destruct (init_succeeds_iff (host_with items_fine broker_fine true true)
              (Some "/etc/janus"%string) (before_init three_events)
              initial_statics no_session) as (_ & [_ H] & _).
  split; [|split; reflexivity].
  apply H. split; [reflexivity|]. split; [discriminate|].
  split; [exists "true"%string; split; vm_compute; reflexivity|].
  eexists. split; [reflexivity|]. split; [reflexivity|]. split; [reflexivity|].
  intros _. reflexivity.
Defined.

Lemma at_most_one_batch_once_stopping_witness :
  stopping (glob (f_sys sending_when_stopped)) = true /\
  dumped (trace (f_sys (fine_exec sending_when_stopped
     [FDestroy; FHdlr all_well; FHdlr all_well; FDestroy; FHdlr all_well])))
  = [OArray [Ptr 1%positive]].
Proof.
  split; [reflexivity|].
  destruct (at_most_one_batch_once_stopping sending_when_stopped
              [FDestroy; FHdlr all_well; FHdlr all_well; FDestroy; FHdlr all_well])
    as [_ H]; [reflexivity|reflexivity|].
  destruct (H eq_refl) as [[H1 _]|[H1 _]]; [|exact H1].
  vm_compute in H1. discriminate H1.
Defined.

Lemma references_are_accounted_for_witness :
  let f := fine_exec (fine_start (init_plugin indented true three_events))
             [FHdlr all_well; FEnter (Ptr 1); FEnter (Ptr 2); FIncref 1;
              FDestroy; FIncref 0; FPush 1; FHdlr all_well] in
  owed f = [Ptr 1%positive; Ptr 2%positive] /\
  exists c', heap (store (glob (f_sys f))) !! 2%positive = Some c' /\
             refcount c' = 2.
Proof.
  cbv zeta. split; [reflexivity|].
  destruct (references_are_accounted_for (init_plugin indented true three_events)
              [FHdlr all_well; FEnter (Ptr 1); FEnter (Ptr 2); FIncref 1;
               FDestroy; FIncref 0; FPush 1; FHdlr all_well])
    as (_ & H & _).
  - reflexivity.
  - apply three_events_roomy. simpl. lia.
  - simpl. tauto.
  - repeat constructor; discriminate.
  - discriminate.
  - destruct (H 2%positive (stamped 20) eq_refl) as (c' & Hc & _ & Hr).
    exists c'. split; [exact Hc|exact Hr].
Defined.

Lemma destroy_releases_everything_witness :
  let f := fine_exec (fine_start (init_plugin indented true three_events))
             pushed_behind_the_token in
  events (glob (f_sys f)) = [Ptr 2%positive] /\
  store (glob (f_sys (fine_exec f [FDestroy; FEnter (Ptr 3); FHdlr all_well])))
  = three_events.
Proof.
  cbv zeta. split; [reflexivity|].
  destruct (destroy_releases_everything (init_plugin indented true three_events)
              pushed_behind_the_token [FEnter (Ptr 3); FHdlr all_well])
    as (_ & _ & _ & _ & H & _).
  - reflexivity.
  - apply three_events_roomy. simpl. lia.
  - simpl. tauto.
  - repeat constructor; discriminate.
  - reflexivity.
  - reflexivity.
  - reflexivity.
  - reflexivity.
  - exact H.
Defined.

Lemma late_reference_stays_witness :
  f_dpc overtaken_by_destroy = D464 /\
  exists c',
    heap (store (glob (f_sys (fine_exec overtaken_by_destroy
            [FIncref 0; FPush 0; FEnter (Ptr 1); FHdlr all_well])))) !! 1%positive
      = Some c' /\
    2 <= refcount c'.
Proof.
  split; [reflexivity|].
  apply (late_reference_stays overtaken_by_destroy 0 1%positive (stamped 10)
           [FPush 0; FEnter (Ptr 1); FHdlr all_well]); try reflexivity.
  discriminate.
Defined.

Lemma batch_sizes_in_every_execution_witness :
  Forall (fun o => (1 <= length (batch_of o) <= 100)%nat)
    (dumped (trace (exec (hdlr_start (init_plugin indented true three_events))
       [AHdlr all_well; AIncoming (Ptr 1); AIncoming (Ptr 2); AIncoming (Ptr 3);
        AHdlr all_well; AHdlr all_well; AHdlr all_well; AHdlr all_well;
        AHdlr all_well; AHdlr all_well; AHdlr all_well; AHdlr all_well]))).
Proof.
  apply batch_sizes_in_every_execution. simpl. apply not_elem_of_nil.
Defined.

Lemma batch_of_hundred_witness :
  exists k,
    length (batch_of (h_output (thr (hdlr_run k all_well
      (exec (hdlr_start (init_plugin indented true hundred_events)) hundred_queued)))))
    = 100%nat.
Proof.
  destruct (batch_of_hundred all_well (init_plugin indented true hundred_events)
              hundred_queued 1%positive (map Ptr (tl hundred)) [])
    as (k & _ & _ & H & _).
  - reflexivity.
  - vm_compute. reflexivity.
  - vm_compute. reflexivity.
  - vm_compute. reflexivity.
  - reflexivity.
  - apply List.Forall_forall. intros p Hp%in_map_iff.
    by destruct Hp as (i & <- & _).
  - by exists k.
Defined.

Lemma disabled_at_runtime_takes_one_witness :
  let s := exec started_grouping [AIncoming (Ptr 1); AIncoming (Ptr 2)] in
  h_output (thr (hdlr_run 2 all_well (act s (ARequest (tweak_grouping false)))))
  = OEvent (Ptr 1%positive).
Proof.
  cbv zeta.
  destruct (disabled_at_runtime_takes_one all_well
              (exec started_grouping [AIncoming (Ptr 1); AIncoming (Ptr 2)])
              1%positive [Ptr 2%positive]) as (_ & H & _);
    [reflexivity|reflexivity|reflexivity|reflexivity|exact H].
Defined.
